(** * ProGen (progen/progen.py): windowed local attention with rotary
      embedding, spatial gating unit, and the layer stack.

    Arrays are modelled as a shape together with an index function into
    the real numbers: a jax array of floats is idealised as an array of
    reals (rounding, infinities and NaN are outside the model).  Every
    operation that can raise in Python returns a [result]; the checks are
    the ones the source and the array libraries it calls perform, in the
    order in which they are performed. *)

From Stdlib Require Import Reals Lra Lia Arith PeanoNat ZArith List Bool.
Import ListNotations.

Open Scope R_scope.

(** ** Errors raised by the Python code *)

Inductive error : Type :=
| AssertionError      (* a failed [assert] of the source *)
| ZeroDivisionError   (* Python integer/float division or modulo by zero *)
| ShapeError          (* array shapes rejected by jax.numpy / einops *)
| ParamError          (* haiku: parameter missing or of another shape *)
| ValueError.         (* haiku: constructor arguments rejected *)

Inductive result (A : Type) : Type :=
| Ok (a : A)
| Err (e : error).

Arguments Ok {A} a.
Arguments Err {A} e.

Definition bind {A B : Type} (c : result A) (k : A -> result B) : result B :=
  match c with
  | Ok a => k a
  | Err e => Err e
  end.

Notation "x <- c1 ;; c2" := (bind c1 (fun x => c2))
  (at level 61, c1 at next level, right associativity).
Notation "' p <- c1 ;; c2" := (bind c1 (fun x => match x with p => c2 end))
  (at level 61, p pattern, c1 at next level, right associativity).

Definition guard (b : bool) (e : error) : result unit :=
  if b then Ok tt else Err e.

Definition is_ok {A : Type} (c : result A) : bool :=
  match c with Ok _ => true | Err _ => false end.

(** ** Arrays *)

Record Vec : Type := mkVec { vlen : nat; vat : nat -> R }.
Record Mat : Type := mkMat { rows : nat; cols : nat; mat : nat -> nat -> R }.
Record T3 : Type :=
  mkT3 { t3d0 : nat; t3d1 : nat; t3d2 : nat; t3 : nat -> nat -> nat -> R }.
Record T4 : Type :=
  mkT4 { t4d0 : nat; t4d1 : nat; t4d2 : nat; t4d3 : nat;
         t4 : nat -> nat -> nat -> nat -> R }.

(** Sum of [f 0 .. f (n-1)], the reduction of an axis of length [n]. *)
Fixpoint rsum (n : nat) (f : nat -> R) : R :=
  match n with
  | O => 0
  | S k => rsum k f + f k
  end.

(** Maximum of [f 0 .. f (n-1)] (used by softmax; [n = 0] never occurs there
    with a meaningful value). *)
Fixpoint rmax (n : nat) (f : nat -> R) : R :=
  match n with
  | O => 0
  | S O => f O
  | S k => Rmax (rmax k f) (f k)
  end.

(** numpy broadcasting of one axis: equal lengths, or one of them is 1. *)
Definition bdim (a b : nat) : result nat :=
  if a =? b then Ok a
  else if a =? 1 then Ok b
  else if b =? 1 then Ok a
  else Err ShapeError.

(** Index into an axis of length [sz] that may have been broadcast. *)
Definition bix (sz i : nat) : nat := if sz =? 1 then O else i.

Definition mat_zip (f : R -> R -> R) (a b : Mat) : result Mat :=
  r <- bdim (rows a) (rows b) ;;
  c <- bdim (cols a) (cols b) ;;
  Ok (mkMat r c (fun i j =>
        f (mat a (bix (rows a) i) (bix (cols a) j))
          (mat b (bix (rows b) i) (bix (cols b) j)))).

Definition t3_zip (f : R -> R -> R) (a b : T3) : result T3 :=
  n0 <- bdim (t3d0 a) (t3d0 b) ;;
  n1 <- bdim (t3d1 a) (t3d1 b) ;;
  n2 <- bdim (t3d2 a) (t3d2 b) ;;
  Ok (mkT3 n0 n1 n2 (fun i j k =>
        f (t3 a (bix (t3d0 a) i) (bix (t3d1 a) j) (bix (t3d2 a) k))
          (t3 b (bix (t3d0 b) i) (bix (t3d1 b) j) (bix (t3d2 b) k)))).

(** ** Constants *)

Definition EPS : R := 1 / 1000.
Definition ATTN_MASK_VALUE : R := - (10 ^ 10).

(** hk.LayerNorm's default [eps]. *)
Definition LN_EPS : R := 1 / 100000.

(** ** Helpers *)

(** [LayerNorm = partial(hk.LayerNorm, create_scale = True,
    create_offset = False, axis = -1)]: the learned [scale] has the shape
    of the last axis; mean and (population) variance are taken over it. *)
Definition row_mean (x : Mat) (i : nat) : R :=
  rsum (cols x) (fun j => mat x i j) / INR (cols x).

Definition row_var (x : Mat) (i : nat) : R :=
  rsum (cols x) (fun j => (mat x i j - row_mean x i) ^ 2) / INR (cols x).

Definition LayerNorm (scale : Vec) (x : Mat) : result Mat :=
  _ <- guard (vlen scale =? cols x) ParamError ;;
  Ok (mkMat (rows x) (cols x) (fun i j =>
        vat scale j * / sqrt (row_var x i + LN_EPS)
        * (mat x i j - row_mean x i))).

(** [hk.Linear(output_size, with_bias)]: the weight is requested with
    shape [(inputs.shape[-1], output_size)], the bias with shape
    [(output_size,)]. *)
Record LinearParams : Type := mkLinear { lin_w : Mat; lin_b : option Vec }.

Definition Linear (output_size : nat) (with_bias : bool)
    (p : LinearParams) (x : Mat) : result Mat :=
  _ <- guard ((rows (lin_w p) =? cols x) && (cols (lin_w p) =? output_size))
             ParamError ;;
  let dot i j := rsum (cols x) (fun k => mat x i k * mat (lin_w p) k j) in
  if with_bias then
    match lin_b p with
    | Some b =>
        _ <- guard (vlen b =? output_size) ParamError ;;
        Ok (mkMat (rows x) output_size (fun i j => dot i j + vat b j))
    | None => Err ParamError
    end
  else Ok (mkMat (rows x) output_size dot).

(** [np.arange(0, dim, 2)] has [ceil(dim / 2)] entries [0, 2, 4, ...]. *)
Definition arange2_len (dim : nat) : nat := (dim + 1) / 2.

(** [inv_freq = 1.0 / (10000 ** (np.arange(0, dim, 2) / dim))] *)
Definition inv_freq (dim j : nat) : R :=
  1 / Rpower 10000 (INR (2 * j) / INR dim).

(** [sinusoid_inp = einsum("i , j -> i j", arange(seq), inv_freq)] *)
Definition sinusoid_inp (dim i j : nat) : R := INR i * inv_freq dim j.

Definition fixed_pos_embedding (seq dim : nat) : Mat * Mat :=
  (mkMat seq (arange2_len dim) (fun i j => sin (sinusoid_inp dim i j)),
   mkMat seq (arange2_len dim) (fun i j => cos (sinusoid_inp dim i j))).

(** [rotate_every_two]: [x1 = x[:, :, ::2]], [x2 = x[:, :, 1::2]],
    [stack((-x2, x1), axis = -1)] (the two slices must have one shape),
    then ["... d j -> ... (d j)"]. *)
Definition rotate_every_two (x : T3) : result T3 :=
  let x1 := mkT3 (t3d0 x) (t3d1 x) ((t3d2 x + 1) / 2)
                 (fun a i t => t3 x a i (2 * t)) in
  let x2 := mkT3 (t3d0 x) (t3d1 x) (t3d2 x / 2)
                 (fun a i t => t3 x a i (2 * t + 1)) in
  _ <- guard (t3d2 x2 =? t3d2 x1) ShapeError ;;
  let stacked a i t (j : nat) :=
    match j with
    | O => - t3 x2 a i t
    | _ => t3 x1 a i t
    end in
  Ok (mkT3 (t3d0 x) (t3d1 x) (t3d2 x1 * 2)
           (fun a i c => stacked a i (c / 2)%nat (c mod 2)%nat)).

(** [repeat(t, "b n -> b (n j)", j = 2)[None, :, :]] *)
Definition repeat2 (t : Mat) : T3 :=
  mkT3 1 (rows t) (cols t * 2) (fun _ i c => mat t i (c / 2)%nat).

Definition apply_rotary_pos_emb (x : T3) (sincos : Mat * Mat) : result T3 :=
  let sin_ := repeat2 (fst sincos) in
  let cos_ := repeat2 (snd sincos) in
  xc <- t3_zip Rmult x cos_ ;;
  rx <- rotate_every_two x ;;
  rs <- t3_zip Rmult rx sin_ ;;
  t3_zip Rplus xc rs.

(** ** Array operations used by the classes *)

(** [np.split(t, k, axis = -1)]: the last axis must divide into [k] equal
    sections; section [s] of the result. *)
Definition np_split (k : nat) (t : Mat) : result (nat -> Mat) :=
  _ <- guard (cols t mod k =? 0)%nat ShapeError ;;
  let c := (cols t / k)%nat in
  Ok (fun s => mkMat (rows t) c (fun i j => mat t i (s * c + j))).

(** einops: the length of a composed axis is divided by the product of the
    known factors (Python [%] and [//]). *)
Definition einops_infer (length known : nat) : result nat :=
  if known =? 0 then Err ZeroDivisionError
  else if (length mod known =? 0)%nat then Ok (length / known)%nat
  else Err ShapeError.

(** [rearrange(t, 'n (h d) -> h n d', h = h)] *)
Definition rearrange_heads (h : nat) (t : Mat) : result T3 :=
  d <- einops_infer (cols t) h ;;
  Ok (mkT3 h (rows t) d (fun a i c => mat t i (a * d + c))).

(** [rearrange(t, 'h (w n) d -> h w n d', w = window)] *)
Definition rearrange_windows (window : nat) (t : T3) : result T4 :=
  n <- einops_infer (t3d1 t) window ;;
  Ok (mkT4 (t3d0 t) window n (t3d2 t) (fun a w i c => t3 t a (w * n + i) c)).

(** [np.pad(t, ((0, 0), (1, 0), (0, 0), (0, 0)), constant_values = 0.)] *)
Definition np_pad_front (t : T4) : T4 :=
  mkT4 (t4d0 t) (1 + t4d1 t) (t4d2 t) (t4d3 t)
       (fun a w i c => match w with
                       | O => 0
                       | S w' => t4 t a w' i c
                       end).

(** [np.concatenate((t[:, :-1], t[:, 1:]), axis = 2)]: both slices have
    [t.shape[1] - 1] windows. *)
Definition concat_prev_cur (t : T4) : T4 :=
  mkT4 (t4d0 t) (t4d1 t - 1) (t4d2 t + t4d2 t) (t4d3 t)
       (fun a w j c => if (j <? t4d2 t)%nat then t4 t a w j c
                       else t4 t a (w + 1)%nat (j - t4d2 t)%nat c).

(** [np.einsum('h w i d, h w j d -> h w i j', q, k)]; jax's einsum
    broadcasts a label whose length is 1 in one operand. *)
Definition einsum_qk (q k : T4) : result T4 :=
  h <- bdim (t4d0 q) (t4d0 k) ;;
  w <- bdim (t4d1 q) (t4d1 k) ;;
  d <- bdim (t4d3 q) (t4d3 k) ;;
  Ok (mkT4 h w (t4d2 q) (t4d2 k) (fun a b i j =>
        rsum d (fun c =>
          t4 q (bix (t4d0 q) a) (bix (t4d1 q) b) i (bix (t4d3 q) c)
          * t4 k (bix (t4d0 k) a) (bix (t4d1 k) b) j (bix (t4d3 k) c)))).

(** [np.einsum('h w i j, h w j d -> h w i d', attn, v)] *)
Definition einsum_av (attn v : T4) : result T4 :=
  h <- bdim (t4d0 attn) (t4d0 v) ;;
  w <- bdim (t4d1 attn) (t4d1 v) ;;
  n <- bdim (t4d3 attn) (t4d2 v) ;;
  Ok (mkT4 h w (t4d2 attn) (t4d3 v) (fun a b i c =>
        rsum n (fun j =>
          t4 attn (bix (t4d0 attn) a) (bix (t4d1 attn) b) i (bix (t4d3 attn) j)
          * t4 v (bix (t4d0 v) a) (bix (t4d1 v) b) (bix (t4d2 v) j) c))).

Definition t4_scale (t : T4) (s : R) : T4 :=
  mkT4 (t4d0 t) (t4d1 t) (t4d2 t) (t4d3 t) (fun a b i j => t4 t a b i j * s).

(** [np.tril(np.ones((n, m)), k)]: entry [(i, j)] is 1 when [j <= i + k]
    and 0 otherwise. *)
Definition tril_bit (k i j : nat) : bool := (j <=? i + k)%nat.

Definition np_tril_ones (n m k : nat) : Mat :=
  mkMat n m (fun i j => if tril_bit k i j then 1 else 0).

(** [np.where(np.tril(np.ones((n, m)), k), t, value)]: the mask is
    broadcast against the two trailing axes of [t]; an entry of the mask is
    true when it is non-zero, that is when [tril_bit] holds. *)
Definition np_where_tril (n m k : nat) (t : T4) (value : R) : result T4 :=
  d2 <- bdim n (t4d2 t) ;;
  d3 <- bdim m (t4d3 t) ;;
  Ok (mkT4 (t4d0 t) (t4d1 t) d2 d3 (fun a b i j =>
        if tril_bit k (bix n i) (bix m j)
        then t4 t a b (bix (t4d2 t) i) (bix (t4d3 t) j)
        else value)).

(** [jax.nn.softmax(t, axis = -1)]:
    [unnormalized = exp(t - max(t)); unnormalized / sum(unnormalized)]. *)
Definition softmax (t : T4) : T4 :=
  let unnormalized a b i j :=
    exp (t4 t a b i j - rmax (t4d3 t) (t4 t a b i)) in
  mkT4 (t4d0 t) (t4d1 t) (t4d2 t) (t4d3 t) (fun a b i j =>
    unnormalized a b i j / rsum (t4d3 t) (unnormalized a b i)).

(** [rearrange(out, 'h w n d -> (w n) (h d)')] *)
Definition rearrange_merge (t : T4) : Mat :=
  mkMat (t4d1 t * t4d2 t) (t4d0 t * t4d3 t) (fun r c =>
    t4 t (c / t4d3 t)%nat (r / t4d2 t)%nat (r mod t4d2 t)%nat
         (c mod t4d3 t)%nat).

(** [jax.nn.gelu] (tanh approximation, the default). *)
Definition gelu (x : R) : R :=
  x * (1 / 2 * (1 + tanh (sqrt (2 / PI) * (x + 44715 / 1000000 * x ^ 3)))).

Definition mat_map (f : R -> R) (x : Mat) : Mat :=
  mkMat (rows x) (cols x) (fun i j => f (mat x i j)).

(** [np.einsum('n d, m n -> m d', gate, weights)] *)
Definition einsum_mix (gate weights : Mat) : result Mat :=
  n <- bdim (rows gate) (cols weights) ;;
  Ok (mkMat (rows weights) (cols gate) (fun m d =>
        rsum n (fun k =>
          mat gate (bix (rows gate) k) d
          * mat weights m (bix (cols weights) k)))).

(** ** class LocalAttention *)

Module LocalAttention.

(** The attributes set by [__init__]; [to_qkv] and [to_out] are kept as
    their output widths. *)
Record t : Type := mk {
  heads : nat;
  scale : R;
  window_size : nat;
  to_qkv : nat;
  to_out : nat
}.

Record params : Type := mkParams {
  p_norm : Vec;
  p_to_qkv : LinearParams;
  p_to_out : LinearParams
}.

(** [__init__]: [dim_head ** -0.5] raises for [dim_head = 0]. *)
Definition init (dim window_size heads dim_head : nat) : result t :=
  _ <- guard (negb (dim_head =? 0)) ZeroDivisionError ;;
  let inner_dim := (dim_head * heads)%nat in
  Ok (mk heads (Rpower (INR dim_head) (- (1 / 2))) window_size
         (inner_dim * 3) dim).

(** The values bound by [__call__], in the order of the source. *)
Record trace : Type := mkTrace {
  qh : T3; kh : T3; vh : T3;          (* after the head split (line 69) *)
  qr : T3; kr : T3; vr : T3;          (* after apply_rotary_pos_emb (71) *)
  qw : T4; kw : T4; vw : T4;          (* split into windows (72) *)
  ke : T4; ve : T4;                   (* padded and concatenated (74-75) *)
  sim : T4;                           (* masked similarity (77-80) *)
  attn : T4;                          (* softmax (82) *)
  out : Mat                           (* result of to_out (85) *)
}.

Definition call_trace (self : t) (p : params) (x : Mat)
    (pos_emb : Mat * Mat) : result trace :=
  x <- LayerNorm (p_norm p) x ;;
  let n := rows x in
  let h := heads self in
  let wsz := window_size self in
  _ <- guard (negb (wsz =? 0)) ZeroDivisionError ;;
  _ <- guard (n mod wsz =? 0)%nat AssertionError ;;
  let window := (n / wsz)%nat in
  qkv <- Linear (to_qkv self) false (p_to_qkv p) x ;;
  sections <- np_split 3 qkv ;;
  q <- rearrange_heads h (sections 0%nat) ;;
  k <- rearrange_heads h (sections 1%nat) ;;
  v <- rearrange_heads h (sections 2%nat) ;;
  q' <- apply_rotary_pos_emb q pos_emb ;;
  k' <- apply_rotary_pos_emb k pos_emb ;;
  v' <- apply_rotary_pos_emb v pos_emb ;;
  q'' <- rearrange_windows window q' ;;
  k'' <- rearrange_windows window k' ;;
  v'' <- rearrange_windows window v' ;;
  let k''' := concat_prev_cur (np_pad_front k'') in
  let v''' := concat_prev_cur (np_pad_front v'') in
  s <- einsum_qk q'' k''' ;;
  let s := t4_scale s (scale self) in
  s' <- np_where_tril wsz (wsz * 2) wsz s ATTN_MASK_VALUE ;;
  let a := softmax s' in
  o <- einsum_av a v''' ;;
  o' <- Linear (to_out self) true (p_to_out p) (rearrange_merge o) ;;
  Ok (mkTrace q k v q' k' v' q'' k'' v'' k''' v''' s' a o').

Definition call (self : t) (p : params) (x : Mat) (pos_emb : Mat * Mat)
    : result Mat :=
  tr <- call_trace self p x pos_emb ;;
  Ok (out tr).

End LocalAttention.

(** ** class SGU *)

Module SGU.

Record t : Type := mk { seq_len : nat; proj_out : nat }.

Record params : Type := mkParams {
  p_norm : Vec;
  spatial_weights : Mat;
  spatial_biases : Mat;
  p_proj_out : LinearParams
}.

Definition init (dim dim_out seq_len : nat) : t := mk seq_len dim_out.

(** [hk.get_parameter(name, shape = (r, c), ...)] on stored parameters. *)
Definition get_parameter (stored : Mat) (r c : nat) : result Mat :=
  _ <- guard ((rows stored =? r) && (cols stored =? c)) ParamError ;;
  Ok stored.

(** The values bound by [__call__]: the two halves of the input, the
    mixed gate (after the bias), and the result. *)
Record trace : Type := mkTrace {
  x_half : Mat; gate_half : Mat; gate_norm : Mat; gate_mixed : Mat;
  out : Mat
}.

Definition call_trace (self : t) (p : params) (x : Mat) : result trace :=
  let n := seq_len self in
  halves <- np_split 2 x ;;
  let x := halves 0%nat in
  let gate := halves 1%nat in
  gate' <- LayerNorm (p_norm p) gate ;;
  _ <- guard (negb (n =? 0)) ZeroDivisionError ;;
  weights <- get_parameter (spatial_weights p) n n ;;
  biases <- get_parameter (spatial_biases p) n 1 ;;
  let mask := np_tril_ones n n 0 in
  weights <- mat_zip Rmult weights mask ;;
  gate'' <- einsum_mix gate' weights ;;
  gate'' <- mat_zip Rplus gate'' biases ;;
  x' <- mat_zip Rmult x gate'' ;;
  o <- Linear (proj_out self) true (p_proj_out p) x' ;;
  Ok (mkTrace x gate gate' gate'' o).

Definition call (self : t) (p : params) (x : Mat) : result Mat :=
  tr <- call_trace self p x ;;
  Ok (out tr).

End SGU.

(** ** class FeedForward *)

Module FeedForward.

Record t : Type := mk {
  proj_in : nat;
  sgu : option SGU.t;
  proj_out : nat
}.

Record params : Type := mkParams {
  p_norm : Vec;
  p_proj_in : LinearParams;
  p_sgu : option SGU.params;
  p_proj_out : LinearParams
}.

Definition init (dim ff_mult seq_len : nat) (spatial_gate : bool) : t :=
  let hidden_dim := (dim * ff_mult)%nat in
  mk hidden_dim
     (if spatial_gate
      then Some (SGU.init hidden_dim (hidden_dim / 2) seq_len)
      else None)
     dim.

Definition call (self : t) (p : params) (x : Mat) : result Mat :=
  x <- LayerNorm (p_norm p) x ;;
  x <- Linear (proj_in self) true (p_proj_in p) x ;;
  let x := mat_map gelu x in
  x <- match sgu self with
       | Some g =>
           match p_sgu p with
           | Some pg => SGU.call g pg x
           | None => Err ParamError
           end
       | None => Ok x
       end ;;
  Linear (proj_out self) true (p_proj_out p) x.

End FeedForward.

(** ** class ProGenBase *)

Module ProGenBase.

(** The keyword arguments of [__init__]. *)
Record config : Type := mkConfig {
  num_tokens : nat;
  dim : nat;
  seq_len : nat;
  depth : nat;
  window_size : nat;
  global_mlp_depth : nat;
  heads : nat;
  dim_head : nat;
  ff_mult : nat;
  attn_dim : option nat;
  clamp_gate : bool
}.

Record t : Type := mk {
  self_dim_head : nat;
  embed : nat * nat;                          (* hk.Embed(num_tokens, dim) *)
  layers : list (LocalAttention.t * FeedForward.t);
  to_logits : nat                             (* hk.Linear(num_tokens) *)
}.

Record params : Type := mkParams {
  p_embed : Mat;
  p_layers : list (LocalAttention.params * FeedForward.params);
  p_logits_norm : Vec;
  p_logits : LinearParams
}.

(** One iteration of [for i in range(depth)]. *)
Definition make_layer (c : config) (i : nat)
    : result (LocalAttention.t * FeedForward.t) :=
  let use_gmlp := (depth c - i <=? global_mlp_depth c)%nat in
  a <- LocalAttention.init (dim c) (window_size c) (heads c) (dim_head c) ;;
  Ok (a, FeedForward.init (dim c) (ff_mult c) (seq_len c) use_gmlp).

Fixpoint make_layers (c : config) (idxs : list nat)
    : result (list (LocalAttention.t * FeedForward.t)) :=
  match idxs with
  | [] => Ok []
  | i :: rest =>
      l <- make_layer c i ;;
      ls <- make_layers c rest ;;
      Ok (l :: ls)
  end.

(** [hk.Embed(vocab_size, embed_dim)] raises ValueError unless both
    arguments are non-zero ([not (vocab_size and embed_dim)]). *)
Definition Embed_init (vocab_size embed_dim : nat) : result (nat * nat) :=
  _ <- guard (negb (vocab_size =? 0) && negb (embed_dim =? 0)) ValueError ;;
  Ok (vocab_size, embed_dim).

(** [__init__]: the embedding is built (line 167) before the layers. *)
Definition init (c : config) : result t :=
  e <- Embed_init (num_tokens c) (dim c) ;;
  ls <- make_layers c (seq 0 (depth c)) ;;
  Ok (mk (dim_head c) e ls (num_tokens c)).

(** Token ids are 32-bit integers (wider ones wrap around when the array
    is converted). *)
Definition int32 (id : Z) : Z :=
  ((id + 2147483648) mod 4294967296 - 2147483648)%Z.

(** [hk.Embed]: [embeddings[ids]]; jax wraps a negative index once and
    clamps an index that is out of bounds. *)
Definition gather_index (size : nat) (id : Z) : nat :=
  let id := int32 id in
  let id := if (id <? 0)%Z then (id + Z.of_nat size)%Z else id in
  Z.to_nat (Z.max 0 (Z.min id (Z.of_nat size - 1))).

Definition Embed (shape : nat * nat) (table : Mat) (ids : list Z)
    : result Mat :=
  _ <- guard ((rows table =? fst shape) && (cols table =? snd shape))
             ParamError ;;
  Ok (mkMat (length ids) (cols table) (fun i j =>
        mat table (gather_index (rows table) (nth i ids 0%Z)) j)).

(** The body of [for attn, ff in self.layers]. *)
Fixpoint run_layers (ls : list (LocalAttention.t * FeedForward.t))
    (ps : list (LocalAttention.params * FeedForward.params))
    (rotary_emb : Mat * Mat) (x : Mat) : result Mat :=
  match ls with
  | [] => Ok x
  | (attn, ff) :: ls' =>
      match ps with
      | [] => Err ParamError
      | (pa, pf) :: ps' =>
          a <- LocalAttention.call attn pa x rotary_emb ;;
          x <- mat_zip Rplus x a ;;
          f <- FeedForward.call ff pf x ;;
          x <- mat_zip Rplus x f ;;
          run_layers ls' ps' rotary_emb x
      end
  end.

Definition call (self : t) (p : params) (x : list Z) : result Mat :=
  let n := length x in
  x <- Embed (embed self) (p_embed p) x ;;
  let rotary_emb := fixed_pos_embedding n (self_dim_head self) in
  x <- run_layers (layers self) (p_layers p) rotary_emb x ;;
  x <- LayerNorm (p_logits_norm p) x ;;
  Linear (to_logits self) true (p_logits p) x.

End ProGenBase.

(** [ProGen]: the transformed function builds the module from the keyword
    arguments and applies it to the sequence. *)
Definition ProGen (kwargs : ProGenBase.config) (p : ProGenBase.params)
    (seq : list Z) : result Mat :=
  model <- ProGenBase.init kwargs ;;
  ProGenBase.call model p seq.

(** ** Parameters of the declared shapes

    haiku creates each parameter with the shape its module requests; the
    following builds such a parameter set from arbitrary entries (a
    constant [w] here), for use as concrete inputs. *)

Definition const_vec (n : nat) (w : R) : Vec := mkVec n (fun _ => w).
Definition const_mat (r c : nat) (w : R) : Mat := mkMat r c (fun _ _ => w).
Definition const_linear (i o : nat) (bias : bool) (w : R) : LinearParams :=
  mkLinear (const_mat i o w) (if bias then Some (const_vec o 0) else None).

Definition const_attn_params (dim heads dim_head : nat) (w : R)
    : LocalAttention.params :=
  LocalAttention.mkParams (const_vec dim 1)
    (const_linear dim (dim_head * heads * 3) false w)
    (const_linear (heads * dim_head) dim true w).

Definition const_sgu_params (hidden seq_len : nat) (w : R) : SGU.params :=
  SGU.mkParams (const_vec (hidden / 2) 1)
    (const_mat seq_len seq_len w) (const_mat seq_len 1 1)
    (const_linear (hidden / 2) (hidden / 2) true w).

Definition const_ff_params (dim ff_mult seq_len : nat) (gate : bool) (w : R)
    : FeedForward.params :=
  let hidden := (dim * ff_mult)%nat in
  FeedForward.mkParams (const_vec dim 1)
    (const_linear dim hidden true w)
    (if gate then Some (const_sgu_params hidden seq_len w) else None)
    (const_linear (if gate then hidden / 2 else hidden)%nat dim true w).

Definition const_params (c : ProGenBase.config) (w : R) : ProGenBase.params :=
  let layer i :=
    (const_attn_params (ProGenBase.dim c) (ProGenBase.heads c)
                       (ProGenBase.dim_head c) w,
     const_ff_params (ProGenBase.dim c) (ProGenBase.ff_mult c)
                     (ProGenBase.seq_len c)
                     (ProGenBase.depth c - i <=? ProGenBase.global_mlp_depth c)%nat
                     w) in
  ProGenBase.mkParams
    (const_mat (ProGenBase.num_tokens c) (ProGenBase.dim c) w)
    (map layer (seq 0 (ProGenBase.depth c)))
    (const_vec (ProGenBase.dim c) 1)
    (const_linear (ProGenBase.dim c) (ProGenBase.num_tokens c) true w).

(** ** Parameter sets of the shapes the modules request

    At [hk.transform(...).apply] every parameter is looked up with the
    shape its module requests; the following predicates say that a stored
    parameter set has these shapes. *)

Definition linear_ok (i o : nat) (with_bias : bool) (p : LinearParams)
    : bool :=
  (rows (lin_w p) =? i) && (cols (lin_w p) =? o)
  && (if with_bias
      then match lin_b p with Some b => vlen b =? o | None => false end
      else true).

Definition attn_params_ok (dim heads dim_head : nat)
    (p : LocalAttention.params) : bool :=
  (vlen (LocalAttention.p_norm p) =? dim)
  && linear_ok dim (dim_head * heads * 3) false (LocalAttention.p_to_qkv p)
  && linear_ok (heads * dim_head) dim true (LocalAttention.p_to_out p).

(** A rotary table pair for [n] positions and head dimension [dim_head]. *)
Definition pos_emb_ok (n dim_head : nat) (pos_emb : Mat * Mat) : bool :=
  (rows (fst pos_emb) =? n) && (rows (snd pos_emb) =? n)
  && (cols (fst pos_emb) * 2 =? dim_head)
  && (cols (snd pos_emb) * 2 =? dim_head).

(** The situation in which [LocalAttention.__call__] is meant to be used:
    a non-empty input of [dim] features whose length is a multiple of the
    window size, at least one head, parameters of the requested shapes
    and a rotary table for [(n, dim_head)]. *)
Definition attn_call_ok (dim window_size heads dim_head : nat)
    (p : LocalAttention.params) (x : Mat) (pos_emb : Mat * Mat) : bool :=
  (0 <? window_size) && (0 <? rows x) && (rows x mod window_size =? 0)
  && (0 <? heads) && (cols x =? dim)
  && attn_params_ok dim heads dim_head p
  && pos_emb_ok (rows x) dim_head pos_emb.

(** How the values bound by a successful [LocalAttention.__call__] are
    computed from one another, stage by stage ([n] is the input length). *)
Record attn_stages (self : LocalAttention.t) (p : LocalAttention.params)
    (pos_emb : Mat * Mat) (n dim heads dim_head : nat)
    (tr : LocalAttention.trace) : Prop := mkStages {
  st_qh : t3d0 (LocalAttention.qh tr) = heads
          /\ t3d1 (LocalAttention.qh tr) = n
          /\ t3d2 (LocalAttention.qh tr) = dim_head;
  st_kh : t3d0 (LocalAttention.kh tr) = heads
          /\ t3d1 (LocalAttention.kh tr) = n
          /\ t3d2 (LocalAttention.kh tr) = dim_head;
  st_vh : t3d0 (LocalAttention.vh tr) = heads
          /\ t3d1 (LocalAttention.vh tr) = n
          /\ t3d2 (LocalAttention.vh tr) = dim_head;
  st_qr : apply_rotary_pos_emb (LocalAttention.qh tr) pos_emb
          = Ok (LocalAttention.qr tr);
  st_kr : apply_rotary_pos_emb (LocalAttention.kh tr) pos_emb
          = Ok (LocalAttention.kr tr);
  st_vr : apply_rotary_pos_emb (LocalAttention.vh tr) pos_emb
          = Ok (LocalAttention.vr tr);
  st_qw : rearrange_windows (n / LocalAttention.window_size self)
            (LocalAttention.qr tr) = Ok (LocalAttention.qw tr);
  st_kw : rearrange_windows (n / LocalAttention.window_size self)
            (LocalAttention.kr tr) = Ok (LocalAttention.kw tr);
  st_vw : rearrange_windows (n / LocalAttention.window_size self)
            (LocalAttention.vr tr) = Ok (LocalAttention.vw tr);
  st_ke : LocalAttention.ke tr
          = concat_prev_cur (np_pad_front (LocalAttention.kw tr));
  st_ve : LocalAttention.ve tr
          = concat_prev_cur (np_pad_front (LocalAttention.vw tr));
  st_sim : exists s,
      einsum_qk (LocalAttention.qw tr) (LocalAttention.ke tr) = Ok s /\
      np_where_tril (LocalAttention.window_size self)
        (LocalAttention.window_size self * 2)
        (LocalAttention.window_size self)
        (t4_scale s (LocalAttention.scale self)) ATTN_MASK_VALUE
      = Ok (LocalAttention.sim tr);
  st_attn : LocalAttention.attn tr = softmax (LocalAttention.sim tr);
  st_out : exists o,
      einsum_av (LocalAttention.attn tr) (LocalAttention.ve tr) = Ok o /\
      Linear (LocalAttention.to_out self) true (LocalAttention.p_to_out p)
        (rearrange_merge o) = Ok (LocalAttention.out tr);
  st_shape : rows (LocalAttention.out tr) = n
             /\ cols (LocalAttention.out tr) = dim
}.

(** [dst] is [src] with every feature pair [(2t, 2t+1)] of the vector at
    position [i] rotated by the angle whose sine and cosine are entry
    [(i, t)] of the tables. *)
Definition rotated_by (sincos : Mat * Mat) (src dst : T3) : Prop :=
  t3d0 dst = t3d0 src /\ t3d1 dst = t3d1 src /\ t3d2 dst = t3d2 src /\
  forall a i t,
    (a < t3d0 src)%nat -> (i < t3d1 src)%nat -> (2 * t + 1 < t3d2 src)%nat ->
    t3 dst a i (2 * t) =
      t3 src a i (2 * t) * mat (snd sincos) i t
      - t3 src a i (2 * t + 1) * mat (fst sincos) i t /\
    t3 dst a i (2 * t + 1) =
      t3 src a i (2 * t + 1) * mat (snd sincos) i t
      + t3 src a i (2 * t) * mat (fst sincos) i t.

(** [wins] holds the rows of [t] cut into windows of [wsz] positions. *)
Definition windows_of (wsz : nat) (t : T3) (wins : T4) : Prop :=
  t4d0 wins = t3d0 t /\ (t4d1 wins * wsz = t3d1 t)%nat /\
  t4d2 wins = wsz /\ t4d3 wins = t3d2 t /\
  forall a w i c, t4 wins a w i c = t3 t a (w * wsz + i) c.

(** [ext] holds, for every window [w], the window before it (zeros for
    [w = 0]) followed by window [w] of [wins]. *)
Definition prev_cur_of (wins ext : T4) : Prop :=
  t4d0 ext = t4d0 wins /\ t4d1 ext = t4d1 wins /\
  t4d2 ext = (2 * t4d2 wins)%nat /\ t4d3 ext = t4d3 wins /\
  forall a w j c,
    ((j < t4d2 wins)%nat ->
       t4 ext a w j c = match w with
                        | O => 0
                        | S w' => t4 wins a w' j c
                        end) /\
    ((t4d2 wins <= j)%nat ->
       t4 ext a w j c = t4 wins a w (j - t4d2 wins) c).

(** A concrete attention layer ([dim = 3], [window_size = 2], [heads = 2],
    [dim_head = 2]) and inputs of 4 and of 3 positions. *)
Definition sample_attn : LocalAttention.t :=
  LocalAttention.mk 2 (Rpower (INR 2) (- (1 / 2))) 2 12 3.

Definition sample_input (n dim : nat) : Mat :=
  mkMat n dim (fun i j => INR (i + 2 * j)).

Definition sgu_params_ok (hidden seq_len : nat) (p : SGU.params) : bool :=
  (vlen (SGU.p_norm p) =? hidden / 2)
  && (rows (SGU.spatial_weights p) =? seq_len)
  && (cols (SGU.spatial_weights p) =? seq_len)
  && (rows (SGU.spatial_biases p) =? seq_len)
  && (cols (SGU.spatial_biases p) =? 1)
  && linear_ok (hidden / 2) (hidden / 2) true (SGU.p_proj_out p).

(** The situation in which [SGU.__call__] is meant to be used: an input
    of [hidden] features (an even number) whose length is the [seq_len]
    the unit was built for, and parameters of the requested shapes. *)
Definition sgu_call_ok (hidden seq_len : nat) (p : SGU.params) (x : Mat)
    : bool :=
  (0 <? seq_len) && (rows x =? seq_len) && (cols x =? hidden)
  && (hidden mod 2 =? 0) && sgu_params_ok hidden seq_len p.

(** How the values bound by a successful [SGU.__call__] on an input of
    [n] positions and [2 * c] features are computed from one another. *)
Record sgu_stages (p : SGU.params) (x : Mat) (n c : nat) (tr : SGU.trace)
    : Prop := mkSguStages {
  sg_x : forall i j, mat (SGU.x_half tr) i j = mat x i j;
  sg_gate : rows (SGU.gate_half tr) = n /\ cols (SGU.gate_half tr) = c /\
            forall i j, mat (SGU.gate_half tr) i j = mat x i (c + j);
  sg_norm : LayerNorm (SGU.p_norm p) (SGU.gate_half tr)
            = Ok (SGU.gate_norm tr);
  sg_mixed : forall m d, (m < n)%nat -> (d < c)%nat ->
      mat (SGU.gate_mixed tr) m d =
        rsum n (fun k => mat (SGU.gate_norm tr) k d
                         * (mat (SGU.spatial_weights p) m k
                            * (if tril_bit 0 m k then 1 else 0)))
        + mat (SGU.spatial_biases p) m 0;
  sg_out : forall m d, (m < n)%nat ->
      mat (SGU.out tr) m d =
        rsum c (fun k => mat (SGU.x_half tr) m k * mat (SGU.gate_mixed tr) m k
                         * mat (lin_w (SGU.p_proj_out p)) k d)
        + match lin_b (SGU.p_proj_out p) with
          | Some b => vat b d
          | None => 0
          end;
  sg_shape : rows (SGU.out tr) = n /\ cols (SGU.out tr) = c
}.

(** [sample_input n dim] with the gate half (features [dim / 2] onwards)
    overwritten by [v] at every position after [m]. *)
Definition perturb_gate_after (m : nat) (v : R) (n dim : nat) : Mat :=
  mkMat n dim (fun i j =>
    if (m <? i) && (dim / 2 <=? j) then v else mat (sample_input n dim) i j).

Definition ff_params_ok (dim ff_mult seq_len : nat) (gate : bool)
    (p : FeedForward.params) : bool :=
  let hidden := (dim * ff_mult)%nat in
  (vlen (FeedForward.p_norm p) =? dim)
  && linear_ok dim hidden true (FeedForward.p_proj_in p)
  && (if gate
      then match FeedForward.p_sgu p with
           | Some pg => sgu_params_ok hidden seq_len pg
           | None => false
           end
      else true)
  && linear_ok (if gate then hidden / 2 else hidden)%nat dim true
       (FeedForward.p_proj_out p).

(** Layer [i] of the stack on an input of [n] positions: parameters of the
    requested shapes and, when the layer is gated, [n = seq_len > 0] and an
    even hidden width. *)
Definition layer_ok (c : ProGenBase.config) (n i : nat)
    (p : LocalAttention.params * FeedForward.params) : bool :=
  let use_gmlp :=
    (ProGenBase.depth c - i <=? ProGenBase.global_mlp_depth c)%nat in
  attn_params_ok (ProGenBase.dim c) (ProGenBase.heads c)
    (ProGenBase.dim_head c) (fst p)
  && ff_params_ok (ProGenBase.dim c) (ProGenBase.ff_mult c)
       (ProGenBase.seq_len c) use_gmlp (snd p)
  && (if use_gmlp
      then (n =? ProGenBase.seq_len c)
           && ((ProGenBase.dim c * ProGenBase.ff_mult c) mod 2 =? 0)
      else true).

Fixpoint layers_ok (c : ProGenBase.config) (n : nat) (idxs : list nat)
    (ps : list (LocalAttention.params * FeedForward.params)) : bool :=
  match idxs with
  | [] => true
  | i :: idxs' =>
      match ps with
      | [] => false
      | p :: ps' => layer_ok c n i p && layers_ok c n idxs' ps'
      end
  end.

(** The situation in which the model is meant to be used: a non-empty
    vocabulary and feature axis, a non-empty token sequence whose length
    is a multiple of the window size, at least one head, an even positive
    head dimension, and parameters of the requested shapes.  No relation
    between [dim] and [heads] is asked for. *)
Definition progen_call_ok (c : ProGenBase.config) (p : ProGenBase.params)
    (tokens : list Z) : bool :=
  let n := length tokens in
  (0 <? ProGenBase.num_tokens c) && (0 <? ProGenBase.dim c)
  && (0 <? ProGenBase.window_size c) && (0 <? n)
  && (n mod ProGenBase.window_size c =? 0)
  && (0 <? ProGenBase.heads c) && (0 <? ProGenBase.dim_head c)
  && (ProGenBase.dim_head c mod 2 =? 0)
  && (rows (ProGenBase.p_embed p) =? ProGenBase.num_tokens c)
  && (cols (ProGenBase.p_embed p) =? ProGenBase.dim c)
  && layers_ok c n (seq 0 (ProGenBase.depth c)) (ProGenBase.p_layers p)
  && (vlen (ProGenBase.p_logits_norm p) =? ProGenBase.dim c)
  && linear_ok (ProGenBase.dim c) (ProGenBase.num_tokens c) true
       (ProGenBase.p_logits p).

(** [sample_input n dim] with every row from position [m] on overwritten
    by [v]. *)
Definition perturb_rows_from (m : nat) (v : R) (n dim : nat) : Mat :=
  mkMat n dim (fun i j =>
    if (m <=? i)%nat then v else mat (sample_input n dim) i j).

(** Two positions of four features: the [x] half of position 0 is
    [(1, 0)], the gate half of position 1 is [(g, 0)], all else is 0. *)
Definition gate_probe (g : R) : Mat :=
  mkMat 2 4 (fun i j =>
    match i, j with
    | O, O => 1
    | S O, S (S O) => g
    | _, _ => 0
    end).

(** ** Quantities used in the statements *)

(** Euclidean norm of the feature vector at head [a], position [i]. *)
Definition vnorm (x : T3) (a i : nat) : R :=
  sqrt (rsum (t3d2 x) (fun c => (t3 x a i c) ^ 2)).

(** The rotary frequency of feature pair [j] as the specification writes
    it, [10000^(-2j/d)]. *)
Definition rotary_freq (d j : nat) : R :=
  Rpower 10000 (- (2 * INR j / INR d)).

(** * Properties *)

(** ** The error monad and broadcasting *)

Lemma bind_ok_inv {A B : Type} (c : result A) (k : A -> result B) (b : B) :
  bind c k = Ok b -> exists a, c = Ok a /\ k a = Ok b.
Proof.
  destruct c as [a | e]; simpl; intros H.
  - exists a. split; [reflexivity | exact H].
  - discriminate H.
Qed.

Lemma guard_ok_inv (b : bool) (e : error) (u : unit) :
  guard b e = Ok u -> b = true.
Proof. destruct b; simpl; [reflexivity | discriminate]. Qed.

Lemma bdim_refl (a : nat) : bdim a a = Ok a.
Proof. unfold bdim. rewrite Nat.eqb_refl. reflexivity. Qed.

Lemma bdim_1_r (a : nat) : bdim a 1 = Ok a.
Proof.
  unfold bdim. destruct (a =? 1) eqn:E; [reflexivity | ].
  reflexivity.
Qed.

Lemma bix_lt (sz i : nat) : (i < sz)%nat -> bix sz i = i.
Proof.
  unfold bix. intros H. destruct (sz =? 1) eqn:E; [ | reflexivity].
  apply Nat.eqb_eq in E. lia.
Qed.

(** ** Sums *)

Lemma rsum_ext (n : nat) (f g : nat -> R) :
  (forall k, (k < n)%nat -> f k = g k) -> rsum n f = rsum n g.
Proof.
  induction n as [ | n IH]; intros H; simpl.
  - reflexivity.
  - rewrite IH by (intros k Hk; apply H; lia).
    rewrite (H n) by lia. reflexivity.
Qed.

Lemma rsum_zero (n : nat) (f : nat -> R) :
  (forall k, (k < n)%nat -> f k = 0) -> rsum n f = 0.
Proof.
  induction n as [ | n IH]; intros H; simpl.
  - reflexivity.
  - rewrite IH by (intros k Hk; apply H; lia).
    rewrite (H n) by lia. lra.
Qed.

(** A sum over an axis of even length, taken two entries at a time. *)
Lemma rsum_pairs (m : nat) (f : nat -> R) :
  rsum (m * 2) f = rsum m (fun t => f (2 * t)%nat + f (2 * t + 1)%nat).
Proof.
  induction m as [ | m IH].
  - reflexivity.
  - replace (S m * 2)%nat with (S (S (m * 2))) by lia.
    cbn [rsum]. rewrite IH.
    replace (2 * m)%nat with (m * 2)%nat by lia.
    replace (m * 2 + 1)%nat with (S (m * 2)) by lia.
    lra.
Qed.

(** A sum whose terms vanish from index [m] on is the sum of the first [m]
    terms. *)
Lemma rsum_truncate (n m : nat) (f : nat -> R) :
  (m <= n)%nat ->
  (forall k, (m <= k < n)%nat -> f k = 0) ->
  rsum n f = rsum m f.
Proof.
  intros Hmn. induction n as [ | n IH]; intros H.
  - replace m with O by lia. reflexivity.
  - destruct (Nat.eq_dec m (S n)) as [-> | Hne]; [reflexivity | ].
    simpl. rewrite IH by (try lia; intros k Hk; apply H; lia).
    rewrite (H n) by lia. lra.
Qed.

(** ** Parity of an index into an interleaved axis *)

Lemma even_half (d : nat) : Nat.even d = true -> ((d + 1) / 2 = d / 2)%nat.
Proof.
  intros H. apply Nat.even_spec in H. destruct H as [k ->].
  replace (2 * k + 1)%nat with (1 + k * 2)%nat by lia.
  rewrite Nat.div_add by lia.
  replace (2 * k)%nat with (0 + k * 2)%nat by lia.
  rewrite Nat.div_add by lia. reflexivity.
Qed.

Lemma even_half_double (d : nat) : Nat.even d = true -> (d / 2 * 2 = d)%nat.
Proof.
  intros H. apply Nat.even_spec in H. destruct H as [k ->].
  replace (2 * k)%nat with (0 + k * 2)%nat by lia.
  rewrite Nat.div_add by lia. simpl. lia.
Qed.

Lemma div2_double (t : nat) : ((2 * t) / 2 = t)%nat.
Proof. replace (2 * t)%nat with (0 + t * 2)%nat by lia.
       rewrite Nat.div_add by lia. reflexivity. Qed.

Lemma mod2_double (t : nat) : ((2 * t) mod 2 = 0)%nat.
Proof. replace (2 * t)%nat with (0 + t * 2)%nat by lia.
       rewrite Nat.Div0.mod_add. reflexivity. Qed.

Lemma div2_double_1 (t : nat) : ((2 * t + 1) / 2 = t)%nat.
Proof. replace (2 * t + 1)%nat with (1 + t * 2)%nat by lia.
       rewrite Nat.div_add by lia. reflexivity. Qed.

Lemma mod2_double_1 (t : nat) : ((2 * t + 1) mod 2 = 1)%nat.
Proof. replace (2 * t + 1)%nat with (1 + t * 2)%nat by lia.
       rewrite Nat.Div0.mod_add. reflexivity. Qed.

(** ** Rotary embedding *)

Lemma inv_freq_rotary_freq (d j : nat) : inv_freq d j = rotary_freq d j.
Proof.
  unfold inv_freq, rotary_freq. rewrite Rpower_Ropp, mult_INR.
  simpl INR. unfold Rdiv. rewrite Rmult_1_l.
  replace ((1 + 1) * INR j * / INR d) with (2 * INR j * / INR d) by lra.
  reflexivity.
Qed.

(** C3: for [n > 0] and even [d], [fixed_pos_embedding n d] is a pair of
    tables of shape [(n, d/2)] with entries [sin (i * 10000^(-2j/d))] and
    [cos (i * 10000^(-2j/d))]; it is a function of [(n, d)] alone. *)
Theorem fixed_pos_embedding_tables (n d : nat) :
  (0 < n)%nat -> Nat.even d = true ->
  let sincos := fixed_pos_embedding n d in
  rows (fst sincos) = n /\ cols (fst sincos) = (d / 2)%nat /\
  rows (snd sincos) = n /\ cols (snd sincos) = (d / 2)%nat /\
  forall i j, (i < n)%nat -> (j < d / 2)%nat ->
    mat (fst sincos) i j = sin (INR i * rotary_freq d j) /\
    mat (snd sincos) i j = cos (INR i * rotary_freq d j).
Proof.
  intros _ Hd. cbn [fixed_pos_embedding fst snd rows cols mat].
  unfold arange2_len. rewrite (even_half d Hd).
  repeat split; unfold sinusoid_inp; rewrite inv_freq_rotary_freq;
    reflexivity.
Qed.

Lemma fixed_pos_embedding_tables_witness :
  let sincos := fixed_pos_embedding 3 4 in
  rows (fst sincos) = 3%nat /\ cols (fst sincos) = (4 / 2)%nat /\
  rows (snd sincos) = 3%nat /\ cols (snd sincos) = (4 / 2)%nat /\
  forall i j, (i < 3)%nat -> (j < 4 / 2)%nat ->
    mat (fst sincos) i j = sin (INR i * rotary_freq 4 j) /\
    mat (snd sincos) i j = cos (INR i * rotary_freq 4 j).
Proof. apply (fixed_pos_embedding_tables 3 4); [lia | reflexivity]. Defined.

Lemma apply_rotary_pos_emb_spec (x : T3) (sc : Mat * Mat) :
  rows (fst sc) = t3d1 x -> rows (snd sc) = t3d1 x ->
  (cols (fst sc) * 2 = t3d2 x)%nat -> (cols (snd sc) * 2 = t3d2 x)%nat ->
  exists y,
    apply_rotary_pos_emb x sc = Ok y /\
    t3d0 y = t3d0 x /\ t3d1 y = t3d1 x /\ t3d2 y = t3d2 x /\
    forall a i t, (a < t3d0 x)%nat -> (i < t3d1 x)%nat ->
      (t < cols (fst sc))%nat ->
      t3 y a i (2 * t) =
        t3 x a i (2 * t) * mat (snd sc) i t
        - t3 x a i (2 * t + 1) * mat (fst sc) i t /\
      t3 y a i (2 * t + 1) =
        t3 x a i (2 * t + 1) * mat (snd sc) i t
        + t3 x a i (2 * t) * mat (fst sc) i t.
Proof.
  destruct x as [h n d f]. destruct sc as [[sr m s] [cr cc c]].
  cbn [fst snd rows cols mat t3d0 t3d1 t3d2 t3].
  intros -> -> Hs Hc. subst d.
  assert (cc = m) by lia. subst cc. clear Hc.
  unfold apply_rotary_pos_emb, t3_zip, rotate_every_two, repeat2.
  cbn [fst snd rows cols mat t3d0 t3d1 t3d2 t3].
  assert (E1 : (m * 2 / 2 = m)%nat) by (apply Nat.div_mul; lia).
  assert (E2 : ((m * 2 + 1) / 2 = m)%nat).
  { replace (m * 2 + 1)%nat with (2 * m + 1)%nat by lia. apply div2_double_1. }
  rewrite E1, E2, Nat.eqb_refl, bdim_1_r, !bdim_refl.
  cbn [bind guard t3d0 t3d1 t3d2 t3].
  rewrite bdim_1_r, !bdim_refl.
  cbn [bind guard t3d0 t3d1 t3d2 t3].
  rewrite !bdim_refl.
  cbn [bind guard t3d0 t3d1 t3d2 t3].
  eexists. split; [reflexivity | ].
  cbn [t3d0 t3d1 t3d2 t3].
  repeat split; try reflexivity.
  - rewrite !(bix_lt h a), !(bix_lt n i) by assumption.
    rewrite !(bix_lt (m * 2) (2 * t)) by lia.
    rewrite mod2_double, div2_double. lra.
  - rewrite !(bix_lt h a), !(bix_lt n i) by assumption.
    rewrite !(bix_lt (m * 2) (2 * t + 1)) by lia.
    rewrite mod2_double_1, div2_double_1. lra.
Qed.

(** The rotation keeps the sum of squares of a feature vector whenever the
    two tables satisfy [sin^2 + cos^2 = 1]. *)
Lemma rotation_sum_squares (m : nat) (u v : nat -> R) (s c : nat -> R) :
  (forall t, (t < m)%nat -> (s t) ^ 2 + (c t) ^ 2 = 1) ->
  (forall t, (t < m)%nat ->
     v (2 * t)%nat = u (2 * t)%nat * c t - u (2 * t + 1)%nat * s t /\
     v (2 * t + 1)%nat = u (2 * t + 1)%nat * c t + u (2 * t)%nat * s t) ->
  rsum (m * 2) (fun k => (v k) ^ 2) = rsum (m * 2) (fun k => (u k) ^ 2).
Proof.
  intros Hsc Hv. rewrite !rsum_pairs. apply rsum_ext. intros t Ht.
  destruct (Hv t Ht) as [-> ->]. specialize (Hsc t Ht).
  transitivity (((u (2 * t)%nat) ^ 2 + (u (2 * t + 1)%nat) ^ 2)
                * ((s t) ^ 2 + (c t) ^ 2)).
  - ring.
  - rewrite Hsc. ring.
Qed.

Lemma fixed_pos_embedding_unit (n d i j : nat) :
  (mat (fst (fixed_pos_embedding n d)) i j) ^ 2
  + (mat (snd (fixed_pos_embedding n d)) i j) ^ 2 = 1.
Proof.
  cbn [fixed_pos_embedding fst snd mat].
  rewrite <- !Rsqr_pow2. apply sin2_cos2.
Qed.

(** C6: with the tables of [fixed_pos_embedding], for which
    [sin^2 + cos^2 = 1] holds entry by entry, the rotary transform of an
    array whose feature axis has even length [d] returns an array of the
    same shape in which every feature vector has the Euclidean norm of the
    vector it was computed from. *)
Theorem apply_rotary_pos_emb_norm (x : T3) (n d : nat) :
  Nat.even d = true -> t3d1 x = n -> t3d2 x = d ->
  let sincos := fixed_pos_embedding n d in
  (forall i j, (mat (fst sincos) i j) ^ 2 + (mat (snd sincos) i j) ^ 2 = 1) /\
  exists y,
    apply_rotary_pos_emb x sincos = Ok y /\
    t3d0 y = t3d0 x /\ t3d1 y = n /\ t3d2 y = d /\
    forall a i, (a < t3d0 x)%nat -> (i < n)%nat ->
      vnorm y a i = vnorm x a i.
Proof.
  intros Hd Hn Hx sincos. split.
  - intros i j. apply fixed_pos_embedding_unit.
  - assert (Hc : (cols (fst sincos) * 2 = t3d2 x)%nat).
    { unfold sincos. cbn [fixed_pos_embedding fst cols].
      unfold arange2_len. rewrite (even_half d Hd), Hx.
      apply even_half_double, Hd. }
    destruct (apply_rotary_pos_emb_spec x sincos) as
        (y & Hy & H0 & H1 & H2 & Hval);
      try exact Hc;
      try (unfold sincos; cbn [fixed_pos_embedding fst snd rows cols];
           congruence).
    exists y. repeat split; try congruence.
    intros a i Ha Hi. unfold vnorm. f_equal.
    rewrite H2, <- Hc.
    apply (rotation_sum_squares (cols (fst sincos))
             (t3 x a i) (t3 y a i)
             (mat (fst sincos) i) (mat (snd sincos) i)).
    + intros t _. apply fixed_pos_embedding_unit.
    + intros t Ht. apply Hval; [exact Ha | congruence | exact Ht].
Qed.

Lemma apply_rotary_pos_emb_norm_witness :
  exists y,
    apply_rotary_pos_emb (mkT3 1 2 2 (fun _ i c => INR (i + c)))
                         (fixed_pos_embedding 2 2) = Ok y /\
    vnorm y 0 1 = vnorm (mkT3 1 2 2 (fun _ i c => INR (i + c))) 0 1.
Proof.
  destruct (apply_rotary_pos_emb_norm
              (mkT3 1 2 2 (fun _ i c => INR (i + c))) 2 2)
    as (_ & y & Hy & _ & _ & _ & Hn); try reflexivity.
  exists y. split; [exact Hy | apply Hn; simpl; lia].
Defined.

(** ** Shapes and entries of the array operations *)

Ltac to_props :=
  repeat match goal with
         | H : (_ && _) = true |- _ =>
             apply andb_true_iff in H; destruct H
         | H : (_ =? _) = true |- _ => apply Nat.eqb_eq in H
         | H : (_ <? _) = true |- _ => apply Nat.ltb_lt in H
         | H : (_ <=? _) = true |- _ => apply Nat.leb_le in H
         | H : negb _ = true |- _ => apply negb_true_iff in H
         | H : (_ =? _) = false |- _ => apply Nat.eqb_neq in H
         end.

Lemma LayerNorm_ok (scale : Vec) (x : Mat) :
  vlen scale = cols x ->
  exists y, LayerNorm scale x = Ok y /\ rows y = rows x /\ cols y = cols x /\
    forall i j, mat y i j =
      vat scale j * / sqrt (row_var x i + LN_EPS) * (mat x i j - row_mean x i).
Proof.
  intros H. unfold LayerNorm. rewrite H, Nat.eqb_refl. cbn [guard bind].
  eexists. split; [reflexivity | ]. cbn. repeat split; reflexivity.
Qed.

Lemma Linear_ok (o : nat) (with_bias : bool) (p : LinearParams) (x : Mat) :
  linear_ok (cols x) o with_bias p = true ->
  exists y, Linear o with_bias p x = Ok y /\ rows y = rows x /\ cols y = o /\
    forall i j, mat y i j =
      rsum (cols x) (fun k => mat x i k * mat (lin_w p) k j)
      + (if with_bias
         then match lin_b p with Some b => vat b j | None => 0 end
         else 0).
Proof.
  unfold linear_ok, Linear. intros H.
  apply andb_true_iff in H. destruct H as [H Hb]. rewrite H.
  cbn [guard bind]. destruct with_bias.
  - destruct (lin_b p) as [b | ]; [ | discriminate Hb].
    rewrite Hb. cbn [guard bind].
    eexists. split; [reflexivity | ]. cbn. repeat split; reflexivity.
  - eexists. split; [reflexivity | ]. cbn. repeat split; try reflexivity.
    intros i j. lra.
Qed.

Lemma np_split_ok (k : nat) (t : Mat) :
  (cols t mod k = 0)%nat ->
  exists f, np_split k t = Ok f /\
    forall s, rows (f s) = rows t /\ cols (f s) = (cols t / k)%nat /\
      forall i j, mat (f s) i j = mat t i (s * (cols t / k) + j).
Proof.
  intros H. unfold np_split. rewrite H. cbn [Nat.eqb guard bind].
  eexists. split; [reflexivity | ]. intros s. cbn. repeat split; reflexivity.
Qed.

Lemma einops_infer_ok (known m : nat) :
  (0 < known)%nat -> einops_infer (m * known) known = Ok m.
Proof.
  intros H. unfold einops_infer.
  destruct (known =? 0) eqn:E; [apply Nat.eqb_eq in E; lia | ].
  rewrite Nat.Div0.mod_mul. cbn [Nat.eqb].
  rewrite Nat.div_mul by lia. reflexivity.
Qed.

Lemma mat_zip_same (f : R -> R -> R) (a b : Mat) :
  rows b = rows a -> cols b = cols a ->
  exists y, mat_zip f a b = Ok y /\ rows y = rows a /\ cols y = cols a /\
    forall i j, (i < rows a)%nat -> (j < cols a)%nat ->
      mat y i j = f (mat a i j) (mat b i j).
Proof.
  intros Hr Hc. unfold mat_zip. rewrite Hr, Hc, !bdim_refl. cbn [bind].
  eexists. split; [reflexivity | ]. cbn. repeat split; try reflexivity.
  intros i j Hi Hj. rewrite !bix_lt by assumption. reflexivity.
Qed.

Lemma rearrange_heads_ok (h d : nat) (t : Mat) :
  cols t = (d * h)%nat -> (0 < h)%nat ->
  exists y, rearrange_heads h t = Ok y /\
    t3d0 y = h /\ t3d1 y = rows t /\ t3d2 y = d /\
    forall a i c, t3 y a i c = mat t i (a * d + c).
Proof.
  intros Hc Hh. unfold rearrange_heads.
  rewrite Hc, einops_infer_ok by assumption. cbn [bind].
  eexists. split; [reflexivity | ]. cbn. repeat split; reflexivity.
Qed.

Lemma rearrange_windows_ok (window n : nat) (t : T3) :
  t3d1 t = (n * window)%nat -> (0 < window)%nat ->
  exists y, rearrange_windows window t = Ok y /\
    t4d0 y = t3d0 t /\ t4d1 y = window /\ t4d2 y = n /\ t4d3 y = t3d2 t /\
    forall a w i c, t4 y a w i c = t3 t a (w * n + i) c.
Proof.
  intros Hc Hh. unfold rearrange_windows.
  rewrite Hc, einops_infer_ok by assumption. cbn [bind].
  eexists. split; [reflexivity | ]. cbn. repeat split; reflexivity.
Qed.

Lemma einsum_qk_ok (q k : T4) :
  t4d0 k = t4d0 q -> t4d1 k = t4d1 q -> t4d3 k = t4d3 q ->
  exists s, einsum_qk q k = Ok s /\
    t4d0 s = t4d0 q /\ t4d1 s = t4d1 q /\ t4d2 s = t4d2 q /\
    t4d3 s = t4d2 k /\
    forall a b i j, (a < t4d0 q)%nat -> (b < t4d1 q)%nat ->
      t4 s a b i j = rsum (t4d3 q) (fun c => t4 q a b i c * t4 k a b j c).
Proof.
  intros H0 H1 H3. unfold einsum_qk. rewrite H0, H1, H3, !bdim_refl.
  cbn [bind]. eexists. split; [reflexivity | ].
  cbn. repeat split; try reflexivity.
  intros a b i j Ha Hb. apply rsum_ext. intros c Hc.
  rewrite !bix_lt by assumption. reflexivity.
Qed.

Lemma einsum_av_ok (attn v : T4) :
  t4d0 v = t4d0 attn -> t4d1 v = t4d1 attn -> t4d2 v = t4d3 attn ->
  exists o, einsum_av attn v = Ok o /\
    t4d0 o = t4d0 attn /\ t4d1 o = t4d1 attn /\ t4d2 o = t4d2 attn /\
    t4d3 o = t4d3 v /\
    forall a b i c, (a < t4d0 attn)%nat -> (b < t4d1 attn)%nat ->
      t4 o a b i c = rsum (t4d3 attn) (fun j => t4 attn a b i j * t4 v a b j c).
Proof.
  intros H0 H1 H2. unfold einsum_av. rewrite H0, H1, H2, !bdim_refl.
  cbn [bind]. eexists. split; [reflexivity | ].
  cbn. repeat split; try reflexivity.
  intros a b i c Ha Hb. apply rsum_ext. intros j Hj.
  rewrite !bix_lt by assumption. reflexivity.
Qed.

Lemma np_where_tril_ok (n m k : nat) (t : T4) (value : R) :
  t4d2 t = n -> t4d3 t = m ->
  exists y, np_where_tril n m k t value = Ok y /\
    t4d0 y = t4d0 t /\ t4d1 y = t4d1 t /\ t4d2 y = n /\ t4d3 y = m /\
    forall a b i j, (i < n)%nat -> (j < m)%nat ->
      t4 y a b i j = if tril_bit k i j then t4 t a b i j else value.
Proof.
  intros H2 H3. unfold np_where_tril. rewrite H2, H3, !bdim_refl.
  cbn [bind]. eexists. split; [reflexivity | ].
  cbn. repeat split; try reflexivity.
  intros a b i j Hi Hj. rewrite !bix_lt by assumption. reflexivity.
Qed.

Lemma init_ok_inv (dim wsz heads dh : nat) (self : LocalAttention.t) :
  LocalAttention.init dim wsz heads dh = Ok self ->
  (0 < dh)%nat /\
  self = LocalAttention.mk heads (Rpower (INR dh) (- (1 / 2))) wsz
           (dh * heads * 3) dim.
Proof.
  unfold LocalAttention.init. destruct (dh =? 0) eqn:E; cbn; intros H.
  - discriminate H.
  - apply Nat.eqb_neq in E. injection H as <-. split; [lia | reflexivity].
Qed.

(** ** LocalAttention: a well-formed call returns, stage by stage *)

Lemma divisible_windows (n wsz : nat) :
  (0 < wsz)%nat -> (0 < n)%nat -> (n mod wsz = 0)%nat ->
  (n = wsz * (n / wsz))%nat /\ (0 < n / wsz)%nat.
Proof.
  intros Hw Hn Hm.
  assert (E : (n = wsz * (n / wsz))%nat) by (apply Nat.Div0.div_exact; exact Hm).
  split; [exact E | ].
  destruct (n / wsz)%nat; [lia | lia].
Qed.

Lemma LocalAttention_call_trace_ok (dim wsz heads dh : nat)
    (self : LocalAttention.t) (p : LocalAttention.params) (x : Mat)
    (pos_emb : Mat * Mat) :
  LocalAttention.init dim wsz heads dh = Ok self ->
  attn_call_ok dim wsz heads dh p x pos_emb = true ->
  exists tr,
    LocalAttention.call_trace self p x pos_emb = Ok tr /\
    attn_stages self p pos_emb (rows x) dim heads dh tr.
Proof.
  intros Hinit Hwf.
  apply init_ok_inv in Hinit. destruct Hinit as [Hdh ->].
  unfold attn_call_ok, attn_params_ok, pos_emb_ok in Hwf. to_props.
  destruct (divisible_windows (rows x) wsz) as [Hn Hwin]; try assumption.
  unfold LocalAttention.call_trace.
  cbn [LocalAttention.heads LocalAttention.scale LocalAttention.window_size
       LocalAttention.to_qkv LocalAttention.to_out].
  (* norm *)
  destruct (LayerNorm_ok (LocalAttention.p_norm p) x) as (x1 & E1 & R1 & C1 & _);
    [congruence | ].
  rewrite E1. cbn [bind]. rewrite R1.
  replace (wsz =? 0) with false by (symmetry; apply Nat.eqb_neq; lia).
  replace (rows x mod wsz =? 0) with true by (symmetry; apply Nat.eqb_eq; assumption).
  cbn [negb guard bind].
  (* to_qkv, split, heads *)
  destruct (Linear_ok (dh * heads * 3) false (LocalAttention.p_to_qkv p) x1)
    as (qkv & E2 & R2 & C2 & _); [rewrite C1; congruence | ].
  rewrite E2. cbn [bind].
  destruct (np_split_ok 3 qkv) as (sec & E3 & Hsec);
    [rewrite C2; apply Nat.Div0.mod_mul | ].
  rewrite E3. cbn [bind].
  assert (Hcs : forall s, cols (sec s) = (dh * heads)%nat).
  { intros s. destruct (Hsec s) as (_ & -> & _). rewrite C2.
    apply Nat.div_mul. lia. }
  assert (Hrs : forall s, rows (sec s) = rows x).
  { intros s. destruct (Hsec s) as (-> & _). congruence. }
  destruct (rearrange_heads_ok heads dh (sec 0%nat)) as (q & Eq & Q0 & Q1 & Q2 & _);
    [apply Hcs | assumption | ].
  destruct (rearrange_heads_ok heads dh (sec 1%nat)) as (k & Ek & K0 & K1 & K2 & _);
    [apply Hcs | assumption | ].
  destruct (rearrange_heads_ok heads dh (sec 2%nat)) as (v & Ev & V0 & V1 & V2 & _);
    [apply Hcs | assumption | ].
  rewrite Eq, Ek, Ev. cbn [bind]. rewrite Hrs in Q1, K1, V1.
  (* rotary *)
  destruct (apply_rotary_pos_emb_spec q pos_emb)
    as (q' & Eq' & Q0' & Q1' & Q2' & _); try congruence.
  destruct (apply_rotary_pos_emb_spec k pos_emb)
    as (k' & Ek' & K0' & K1' & K2' & _); try congruence.
  destruct (apply_rotary_pos_emb_spec v pos_emb)
    as (v' & Ev' & V0' & V1' & V2' & _); try congruence.
  rewrite Eq', Ek', Ev'. cbn [bind].
  (* windows *)
  destruct (rearrange_windows_ok (rows x / wsz) wsz q')
    as (qw & Eqw & QW0 & QW1 & QW2 & QW3 & _); [lia | assumption | ].
  destruct (rearrange_windows_ok (rows x / wsz) wsz k')
    as (kw & Ekw & KW0 & KW1 & KW2 & KW3 & _); [lia | assumption | ].
  destruct (rearrange_windows_ok (rows x / wsz) wsz v')
    as (vw & Evw & VW0 & VW1 & VW2 & VW3 & _); [lia | assumption | ].
  rewrite Eqw, Ekw, Evw. cbn [bind].
  (* similarity and mask *)
  destruct (einsum_qk_ok qw (concat_prev_cur (np_pad_front kw)))
    as (s & Es & S0 & S1 & S2 & S3 & _);
    try (cbn [concat_prev_cur np_pad_front t4d0 t4d1 t4d2 t4d3]; lia).
  rewrite Es. cbn [bind].
  destruct (np_where_tril_ok wsz (wsz * 2) wsz (t4_scale s
              (Rpower (INR dh) (- (1 / 2)))) ATTN_MASK_VALUE)
    as (s' & Es' & S0' & S1' & S2' & S3' & _);
    try (cbn [t4_scale concat_prev_cur np_pad_front t4d0 t4d1 t4d2 t4d3] in *;
         lia).
  rewrite Es'. cbn [bind].
  (* attention and output *)
  destruct (einsum_av_ok (softmax s') (concat_prev_cur (np_pad_front vw)))
    as (o & Eo & O0 & O1 & O2 & O3 & _);
    try (cbn [softmax t4_scale concat_prev_cur np_pad_front
              t4d0 t4d1 t4d2 t4d3] in *; lia).
  rewrite Eo. cbn [bind].
  destruct (Linear_ok dim true (LocalAttention.p_to_out p) (rearrange_merge o))
    as (y & Ey & R & C & _).
  { cbn [rearrange_merge cols]. 
    cbn [softmax t4_scale concat_prev_cur np_pad_front
              t4d0 t4d1 t4d2 t4d3] in *.
    replace (t4d0 o * t4d3 o)%nat with (heads * dh)%nat; [assumption | ].
    rewrite O0, O3, S0', S0, QW0, VW3, Q0', V2', Q0, V2. reflexivity. }
  rewrite Ey. cbn [bind].
  eexists. split; [reflexivity | ].
  constructor; cbn [LocalAttention.qh LocalAttention.kh LocalAttention.vh
    LocalAttention.qr LocalAttention.kr LocalAttention.vr
    LocalAttention.qw LocalAttention.kw LocalAttention.vw
    LocalAttention.ke LocalAttention.ve LocalAttention.sim
    LocalAttention.attn LocalAttention.out LocalAttention.window_size
    LocalAttention.scale LocalAttention.to_out];
    try (repeat split; assumption); try reflexivity.
  - exists s. split; assumption.
  - exists o. split; assumption.
  - cbn [rearrange_merge rows softmax t4_scale concat_prev_cur np_pad_front
              t4d0 t4d1 t4d2 t4d3] in *.
    split; [ | assumption].
    rewrite R, O1, O2, S1', S2', S1, QW1. lia.
Qed.

Lemma rotated_by_intro (x y : T3) (sc : Mat * Mat) :
  rows (fst sc) = t3d1 x -> rows (snd sc) = t3d1 x ->
  (cols (fst sc) * 2 = t3d2 x)%nat -> (cols (snd sc) * 2 = t3d2 x)%nat ->
  apply_rotary_pos_emb x sc = Ok y -> rotated_by sc x y.
Proof.
  intros H1 H2 H3 H4 Hy.
  destruct (apply_rotary_pos_emb_spec x sc H1 H2 H3 H4)
    as (y' & Hy' & D0 & D1 & D2 & Hval).
  rewrite Hy in Hy'. injection Hy' as <-.
  repeat split; try assumption; apply Hval; try assumption; lia.
Qed.

Lemma windows_of_intro (window wsz : nat) (t : T3) (wins : T4) :
  t3d1 t = (wsz * window)%nat -> (0 < window)%nat ->
  rearrange_windows window t = Ok wins ->
  windows_of wsz t wins /\ t4d1 wins = window.
Proof.
  intros H1 H2 Hw.
  destruct (rearrange_windows_ok window wsz t H1 H2)
    as (w' & Hw' & D0 & D1 & D2 & D3 & Hval).
  rewrite Hw in Hw'. injection Hw' as <-.
  repeat split; try assumption. rewrite D1, H1. lia.
Qed.

Lemma prev_cur_of_intro (wins : T4) :
  prev_cur_of wins (concat_prev_cur (np_pad_front wins)).
Proof.
  unfold prev_cur_of.
  cbn [concat_prev_cur np_pad_front t4d0 t4d1 t4d2 t4d3 t4].
  repeat split; try lia.
  - intros Hj. apply Nat.ltb_lt in Hj. rewrite Hj. reflexivity.
  - intros Hj. apply Nat.ltb_ge in Hj. rewrite Hj.
    replace (w + 1)%nat with (S w) by lia. reflexivity.
Qed.

(** The shapes and the stage-to-stage relations of a well-formed call. *)
Lemma attn_stages_relations (dim wsz heads dh : nat)
    (self : LocalAttention.t) (p : LocalAttention.params) (x : Mat)
    (pos_emb : Mat * Mat) (tr : LocalAttention.trace) :
  LocalAttention.init dim wsz heads dh = Ok self ->
  attn_call_ok dim wsz heads dh p x pos_emb = true ->
  attn_stages self p pos_emb (rows x) dim heads dh tr ->
  rotated_by pos_emb (LocalAttention.qh tr) (LocalAttention.qr tr) /\
  rotated_by pos_emb (LocalAttention.kh tr) (LocalAttention.kr tr) /\
  rotated_by pos_emb (LocalAttention.vh tr) (LocalAttention.vr tr) /\
  windows_of wsz (LocalAttention.qr tr) (LocalAttention.qw tr) /\
  windows_of wsz (LocalAttention.kr tr) (LocalAttention.kw tr) /\
  windows_of wsz (LocalAttention.vr tr) (LocalAttention.vw tr) /\
  t4d1 (LocalAttention.qw tr) = (rows x / wsz)%nat /\
  t4d1 (LocalAttention.kw tr) = (rows x / wsz)%nat /\
  t4d1 (LocalAttention.vw tr) = (rows x / wsz)%nat /\
  prev_cur_of (LocalAttention.kw tr) (LocalAttention.ke tr) /\
  prev_cur_of (LocalAttention.vw tr) (LocalAttention.ve tr).
Proof.
  intros Hinit Hwf St.
  apply init_ok_inv in Hinit. destruct Hinit as [Hdh ->].
  unfold attn_call_ok, attn_params_ok, pos_emb_ok in Hwf. to_props.
  destruct St as [(Q0 & Q1 & Q2) (K0 & K1 & K2) (V0 & V1 & V2)
                  Eq Ek Ev Eqw Ekw Evw Eke Eve _ _ _ _].
  cbn [LocalAttention.window_size] in *.
  assert (Rq : rotated_by pos_emb (LocalAttention.qh tr)
                          (LocalAttention.qr tr))
    by (apply rotated_by_intro; congruence).
  assert (Rk : rotated_by pos_emb (LocalAttention.kh tr)
                          (LocalAttention.kr tr))
    by (apply rotated_by_intro; congruence).
  assert (Rv : rotated_by pos_emb (LocalAttention.vh tr)
                          (LocalAttention.vr tr))
    by (apply rotated_by_intro; congruence).
  destruct (divisible_windows (rows x) wsz) as [Hn Hwin]; try assumption.
  assert (D1q : t3d1 (LocalAttention.qr tr) = (wsz * (rows x / wsz))%nat).
  { destruct Rq as (_ & -> & _). rewrite Q1. exact Hn. }
  assert (D1k : t3d1 (LocalAttention.kr tr) = (wsz * (rows x / wsz))%nat).
  { destruct Rk as (_ & -> & _). rewrite K1. exact Hn. }
  assert (D1v : t3d1 (LocalAttention.vr tr) = (wsz * (rows x / wsz))%nat).
  { destruct Rv as (_ & -> & _). rewrite V1. exact Hn. }
  destruct (windows_of_intro _ _ _ _ D1q Hwin Eqw) as [Wq Nq].
  destruct (windows_of_intro _ _ _ _ D1k Hwin Ekw) as [Wk Nk].
  destruct (windows_of_intro _ _ _ _ D1v Hwin Evw) as [Wv Nv].
  rewrite Eke, Eve.
  exact (conj Rq (conj Rk (conj Rv (conj Wq (conj Wk (conj Wv
          (conj Nq (conj Nk (conj Nv
            (conj (prev_cur_of_intro _) (prev_cur_of_intro _))))))))))).
Qed.

(** ** LocalAttention: the claims *)




Lemma LayerNorm_rows (scale : Vec) (x y : Mat) :
  LayerNorm scale x = Ok y -> rows y = rows x /\ cols y = cols x.
Proof.
  unfold LayerNorm. destruct (vlen scale =? cols x); cbn; intros H.
  - injection H as <-. split; reflexivity.
  - discriminate H.
Qed.

Lemma LocalAttention_call_ok (dim wsz heads dh : nat)
    (self : LocalAttention.t) (p : LocalAttention.params) (x : Mat)
    (pos_emb : Mat * Mat) :
  LocalAttention.init dim wsz heads dh = Ok self ->
  attn_call_ok dim wsz heads dh p x pos_emb = true ->
  exists y, LocalAttention.call self p x pos_emb = Ok y /\
            rows y = rows x /\ cols y = dim.
Proof.
  intros Hinit Hwf.
  destruct (LocalAttention_call_trace_ok _ _ _ _ _ _ _ _ Hinit Hwf)
    as (tr & Htr & St).
  exists (LocalAttention.out tr). unfold LocalAttention.call.
  rewrite Htr. cbn [bind]. split; [reflexivity | ].
  exact (st_shape _ _ _ _ _ _ _ _ St).
Qed.

Lemma LocalAttention_call_indivisible (dim wsz heads dh : nat)
    (self : LocalAttention.t) (p : LocalAttention.params) (x : Mat)
    (pos_emb : Mat * Mat) :
  LocalAttention.init dim wsz heads dh = Ok self ->
  (rows x mod wsz <> 0)%nat ->
  is_ok (LocalAttention.call self p x pos_emb) = false /\
  ((0 < wsz)%nat -> vlen (LocalAttention.p_norm p) = cols x ->
     LocalAttention.call self p x pos_emb = Err AssertionError).
Proof.
  intros Hinit Hmod. destruct (init_ok_inv _ _ _ _ _ Hinit) as [_ ->].
  unfold LocalAttention.call, LocalAttention.call_trace.
  cbn [LocalAttention.window_size].
  destruct (LayerNorm (LocalAttention.p_norm p) x) as [x1 | e] eqn:E1.
  - destruct (LayerNorm_rows _ _ _ E1) as [R1 _].
    cbn [bind]. rewrite R1.
    replace (rows x mod wsz =? 0) with false
      by (symmetry; apply Nat.eqb_neq; exact Hmod).
    destruct (wsz =? 0) eqn:Ew; cbn [negb guard bind is_ok].
    + split; [reflexivity | ]. apply Nat.eqb_eq in Ew. lia.
    + split; [reflexivity | ]. intros _ _. reflexivity.
  - cbn [bind is_ok]. split; [reflexivity | ]. intros _ Hlen.
    destruct (LayerNorm_ok _ _ Hlen) as (y & Hy & _). congruence.
Qed.




(** ** SGU: a well-formed call returns, stage by stage *)

Lemma einsum_mix_ok (gate weights : Mat) :
  cols weights = rows gate ->
  exists y, einsum_mix gate weights = Ok y /\
    rows y = rows weights /\ cols y = cols gate /\
    forall m d, mat y m d =
      rsum (rows gate) (fun k => mat gate k d * mat weights m k).
Proof.
  intros H. unfold einsum_mix. rewrite H, bdim_refl. cbn [bind].
  eexists. split; [reflexivity | ]. cbn. repeat split; try reflexivity.
  intros m d. apply rsum_ext. intros k Hk.
  rewrite !bix_lt by assumption. reflexivity.
Qed.

Lemma mat_zip_column (f : R -> R -> R) (a b : Mat) :
  rows b = rows a -> cols b = 1%nat ->
  exists y, mat_zip f a b = Ok y /\ rows y = rows a /\ cols y = cols a /\
    forall i j, (i < rows a)%nat -> (j < cols a)%nat ->
      mat y i j = f (mat a i j) (mat b i 0).
Proof.
  intros Hr Hc. unfold mat_zip. rewrite Hr, Hc, bdim_refl, bdim_1_r.
  cbn [bind]. eexists. split; [reflexivity | ].
  cbn. repeat split; try reflexivity.
  intros i j Hi Hj. rewrite !bix_lt by assumption. reflexivity.
Qed.

Lemma SGU_call_trace_ok (hidden seq_len : nat) (p : SGU.params) (x : Mat) :
  sgu_call_ok hidden seq_len p x = true ->
  exists tr,
    SGU.call_trace (SGU.init hidden (hidden / 2) seq_len) p x = Ok tr /\
    sgu_stages p x seq_len (hidden / 2) tr.
Proof.
  intros Hwf. unfold sgu_call_ok, sgu_params_ok in Hwf. to_props.
  unfold SGU.call_trace, SGU.init. cbn [SGU.seq_len SGU.proj_out].
  destruct (np_split_ok 2 x) as (halves & E1 & Hh); [congruence | ].
  rewrite E1. cbn [bind].
  assert (Hc : forall s, cols (halves s) = (hidden / 2)%nat).
  { intros s. destruct (Hh s) as (_ & -> & _). congruence. }
  assert (Hr : forall s, rows (halves s) = seq_len).
  { intros s. destruct (Hh s) as (-> & _). congruence. }
  destruct (LayerNorm_ok (SGU.p_norm p) (halves 1%nat))
    as (g1 & E2 & R2 & C2 & _); [rewrite Hc; assumption | ].
  rewrite E2. cbn [bind]. rewrite Hr in R2. rewrite Hc in C2.
  replace (seq_len =? 0) with false by (symmetry; apply Nat.eqb_neq; lia).
  cbn [negb guard bind]. unfold SGU.get_parameter.
  replace (rows (SGU.spatial_weights p) =? seq_len) with true
    by (symmetry; apply Nat.eqb_eq; assumption).
  replace (cols (SGU.spatial_weights p) =? seq_len) with true
    by (symmetry; apply Nat.eqb_eq; assumption).
  replace (rows (SGU.spatial_biases p) =? seq_len) with true
    by (symmetry; apply Nat.eqb_eq; assumption).
  replace (cols (SGU.spatial_biases p) =? 1) with true
    by (symmetry; apply Nat.eqb_eq; assumption).
  cbn [andb guard bind].
  destruct (mat_zip_same Rmult (SGU.spatial_weights p)
              (np_tril_ones seq_len seq_len 0))
    as (w & E3 & R3 & C3 & Wv); [cbn; congruence | cbn; congruence | ].
  rewrite E3. cbn [bind].
  destruct (einsum_mix_ok g1 w) as (g2 & E4 & R4 & C4 & G2v); [congruence | ].
  rewrite E4. cbn [bind].
  destruct (mat_zip_column Rplus g2 (SGU.spatial_biases p))
    as (g3 & E5 & R5 & C5 & G3v); [congruence | assumption | ].
  rewrite E5. cbn [bind].
  destruct (mat_zip_same Rmult (halves 0%nat) g3)
    as (xg & E6 & R6 & C6 & XGv);
    [rewrite Hr; congruence | rewrite Hc; congruence | ].
  rewrite E6. cbn [bind].
  destruct (Linear_ok (hidden / 2) true (SGU.p_proj_out p) xg)
    as (o & E7 & R7 & C7 & Ov); [rewrite C6, Hc; assumption | ].
  rewrite E7. cbn [bind].
  eexists. split; [reflexivity | ].
  constructor; cbn [SGU.x_half SGU.gate_half SGU.gate_norm SGU.gate_mixed
                    SGU.out].
  - intros i j. destruct (Hh 0%nat) as (_ & _ & ->). reflexivity.
  - split; [apply Hr | ]. split; [apply Hc | ].
    intros i j. destruct (Hh 1%nat) as (_ & _ & ->).
    replace (cols x / 2)%nat with (hidden / 2)%nat by congruence.
    f_equal. lia.
  - exact E2.
  - intros m d Hm Hd. rewrite G3v by congruence. f_equal.
    rewrite G2v, R2. apply rsum_ext. intros k Hk.
    rewrite Wv by congruence. reflexivity.
  - intros m d Hm. rewrite Ov, C6, Hc. f_equal.
    apply rsum_ext. intros k Hk. rewrite XGv; [reflexivity | | ].
    + rewrite Hr. exact Hm.
    + rewrite Hc. exact Hk.
  - split; [ | exact C7]. rewrite R7, R6. apply Hr.
Qed.

Lemma row_mean_local (g g' : Mat) (i : nat) :
  cols g' = cols g ->
  (forall j, (j < cols g)%nat -> mat g i j = mat g' i j) ->
  row_mean g i = row_mean g' i.
Proof.
  intros Hc H. unfold row_mean. rewrite Hc. f_equal.
  apply rsum_ext. exact H.
Qed.

Lemma row_var_local (g g' : Mat) (i : nat) :
  cols g' = cols g ->
  (forall j, (j < cols g)%nat -> mat g i j = mat g' i j) ->
  row_var g i = row_var g' i.
Proof.
  intros Hc H. unfold row_var.
  rewrite (row_mean_local g g' i Hc H), Hc. f_equal.
  apply rsum_ext. intros j Hj. rewrite (H j Hj). reflexivity.
Qed.

(** Layer normalisation works position by position. *)
Lemma LayerNorm_row_local (scale : Vec) (g g' y y' : Mat) (i : nat) :
  LayerNorm scale g = Ok y -> LayerNorm scale g' = Ok y' ->
  cols g' = cols g ->
  (forall j, (j < cols g)%nat -> mat g i j = mat g' i j) ->
  forall j, (j < cols g)%nat -> mat y i j = mat y' i j.
Proof.
  unfold LayerNorm. intros Hy Hy' Hc H j Hj.
  destruct (vlen scale =? cols g); [ | discriminate Hy].
  destruct (vlen scale =? cols g'); [ | discriminate Hy'].
  cbn in Hy, Hy'. injection Hy as <-. injection Hy' as <-. cbn [mat].
  rewrite (row_var_local g g' i Hc H), (row_mean_local g g' i Hc H), (H j Hj).
  reflexivity.
Qed.

(** The masked mixing only reads the gate at positions up to [m]. *)
Lemma causal_sum (n m : nat) (g w : nat -> R) :
  (m < n)%nat ->
  rsum n (fun k => g k * (w k * (if tril_bit 0 m k then 1 else 0)))
  = rsum (S m) (fun k => w k * g k).
Proof.
  intros Hm.
  rewrite (rsum_truncate n (S m)); [ | lia | ].
  - apply rsum_ext. intros k Hk. unfold tril_bit.
    replace (k <=? m + 0) with true by (symmetry; apply Nat.leb_le; lia).
    lra.
  - intros k Hk. unfold tril_bit.
    replace (k <=? m + 0) with false by (symmetry; apply Nat.leb_gt; lia).
    lra.
Qed.

(** C5, as the code has it: take two well-formed inputs of an SGU, whose
    length is the [seq_len] the unit was built for, that agree on the [x]
    half everywhere and on the gate half at all positions [<= m].  Both calls
    return, their outputs agree on row [m] in every channel, and the mixed
    gate of row [m] is
    [sum_{k <= m} weight[m, k] * gate[k, :] + bias[m]],
    [gate] being the normalised gate half. *)
Theorem SGU_causal_mixing (hidden seq_len : nat) (p : SGU.params)
    (x x' : Mat) (m : nat) :
  sgu_call_ok hidden seq_len p x = true ->
  sgu_call_ok hidden seq_len p x' = true ->
  (m < seq_len)%nat ->
  (forall i j, (j < hidden / 2)%nat -> mat x i j = mat x' i j) ->
  (forall k j, (k <= m)%nat -> (hidden / 2 <= j < hidden)%nat ->
     mat x k j = mat x' k j) ->
  exists tr tr',
    SGU.call_trace (SGU.init hidden (hidden / 2) seq_len) p x = Ok tr /\
    SGU.call_trace (SGU.init hidden (hidden / 2) seq_len) p x' = Ok tr' /\
    (forall d, mat (SGU.out tr) m d = mat (SGU.out tr') m d) /\
    (forall d, (d < hidden / 2)%nat ->
       mat (SGU.gate_mixed tr) m d =
         rsum (S m) (fun k => mat (SGU.spatial_weights p) m k
                              * mat (SGU.gate_norm tr) k d)
         + mat (SGU.spatial_biases p) m 0).
Proof.
  intros Hwf Hwf' Hm Hx Hg.
  destruct (SGU_call_trace_ok _ _ _ _ Hwf) as (tr & Htr & St).
  destruct (SGU_call_trace_ok _ _ _ _ Hwf') as (tr' & Htr' & St').
  exists tr, tr'. split; [exact Htr | ]. split; [exact Htr' | ].
  unfold sgu_call_ok in Hwf. to_props.
  assert (Hhid : (hidden = hidden / 2 + hidden / 2)%nat).
  { pose proof (Nat.div_mod_eq hidden 2). lia. }
  destruct St as [X (GR & GC & G) N M O _].
  destruct St' as [X' (GR' & GC' & G') N' M' O' _].
  assert (Hnorm : forall k d, (k <= m)%nat -> (d < hidden / 2)%nat ->
            mat (SGU.gate_norm tr) k d = mat (SGU.gate_norm tr') k d).
  { intros k d Hk Hd.
    apply (LayerNorm_row_local _ _ _ _ _ k N N'); try congruence.
    intros j Hj. rewrite G, G'. apply Hg; [exact Hk | lia]. }
  assert (Hmix : forall d, (d < hidden / 2)%nat ->
            mat (SGU.gate_mixed tr) m d =
              rsum (S m) (fun k => mat (SGU.spatial_weights p) m k
                                   * mat (SGU.gate_norm tr) k d)
              + mat (SGU.spatial_biases p) m 0).
  { intros d Hd. rewrite M by assumption. f_equal.
    apply (causal_sum seq_len m (fun k => mat (SGU.gate_norm tr) k d)
             (fun k => mat (SGU.spatial_weights p) m k)). exact Hm. }
  assert (Hmix' : forall d, (d < hidden / 2)%nat ->
            mat (SGU.gate_mixed tr') m d =
              rsum (S m) (fun k => mat (SGU.spatial_weights p) m k
                                   * mat (SGU.gate_norm tr') k d)
              + mat (SGU.spatial_biases p) m 0).
  { intros d Hd. rewrite M' by assumption. f_equal.
    apply (causal_sum seq_len m (fun k => mat (SGU.gate_norm tr') k d)
             (fun k => mat (SGU.spatial_weights p) m k)). exact Hm. }
  split; [ | exact Hmix].
  intros d. rewrite O, O' by assumption. f_equal.
  apply rsum_ext. intros k Hk.
  rewrite X, X', (Hx m k Hk), (Hmix k Hk), (Hmix' k Hk).
  f_equal. f_equal. f_equal.
  apply rsum_ext. intros k' Hk'. rewrite Hnorm; [reflexivity | lia | exact Hk].
Qed.

Lemma SGU_causal_mixing_witness :
  exists tr tr',
    SGU.call_trace (SGU.init 4 (4 / 2) 2) (const_sgu_params 4 2 1)
      (sample_input 2 4) = Ok tr /\
    SGU.call_trace (SGU.init 4 (4 / 2) 2) (const_sgu_params 4 2 1)
      (perturb_gate_after 0 7 2 4) = Ok tr' /\
    forall d, mat (SGU.out tr) 0 d = mat (SGU.out tr') 0 d.
Proof.
  destruct (SGU_causal_mixing 4 2 (const_sgu_params 4 2 1)
              (sample_input 2 4) (perturb_gate_after 0 7 2 4) 0)
    as (tr & tr' & Htr & Htr' & Hout & _).
  - reflexivity.
  - reflexivity.
  - lia.
  - intros i j Hj. cbn [perturb_gate_after mat].
    replace (4 / 2 <=? j) with false
      by (symmetry; apply Nat.leb_gt; exact Hj).
    rewrite andb_false_r. reflexivity.
  - intros k j Hk Hj. cbn [perturb_gate_after mat].
    replace (0 <? k) with false by (symmetry; apply Nat.ltb_ge; exact Hk).
    reflexivity.
  - exists tr, tr'. split; [exact Htr | ]. split; [exact Htr' | exact Hout].
Defined.

(** Evaluate the shape checks of a call on concrete arrays, leaving the
    real arithmetic of the entries as it stands. *)
Ltac run_shapes :=
  cbv -[Rplus Rmult Rminus Ropp Rinv Rdiv sqrt INR IZR pow Rmax exp tanh PI].

(** C5, as stated, fails on the code when the unit was built for
    [seq_len = 1] and is called on two positions: the mixing product
    broadcasts the length-1 axis and sums the gate over both positions, so
    the output at position 0 changes with the gate at position 1. *)
Lemma SGU_causal_mixing_counterexample :
  (forall i j, (j < 2)%nat -> mat (gate_probe 0) i j = mat (gate_probe 2) i j) /\
  (forall j, mat (gate_probe 0) 0 j = mat (gate_probe 2) 0 j) /\
  exists tr tr',
    SGU.call_trace (SGU.init 4 2 1) (const_sgu_params 4 1 1) (gate_probe 0)
    = Ok tr /\
    SGU.call_trace (SGU.init 4 2 1) (const_sgu_params 4 1 1) (gate_probe 2)
    = Ok tr' /\
    mat (SGU.out tr) 0 0 <> mat (SGU.out tr') 0 0.
Proof.
  split.
  { intros i j Hj. destruct i as [ | [ | i]]; destruct j as [ | [ | j]];
      try reflexivity; lia. }
  split.
  { intros j. reflexivity. }
  eexists. eexists. split; [run_shapes; reflexivity | ].
  split; [run_shapes; reflexivity | ].
  run_shapes.
  replace (INR 2) with 2 by (simpl; lra).
  set (u := sqrt _). set (v := sqrt _).
  assert (Hv : 0 < / v).
  { apply Rinv_0_lt_compat. apply sqrt_lt_R0. lra. }
  generalize dependent (/ v). generalize (/ u). clear u v.
  intros a b Hb H. lra.
Qed.

(** ** FeedForward with spatial gating and the runtime length *)

Ltac inv_bind H :=
  let a := fresh "v" in
  let Ha := fresh "E" in
  apply bind_ok_inv in H; destruct H as (a & Ha & H).

Lemma Linear_rows (o : nat) (b : bool) (p : LinearParams) (x y : Mat) :
  Linear o b p x = Ok y -> rows y = rows x /\ cols y = o.
Proof.
  unfold Linear. intros H. inv_bind H.
  destruct b.
  - destruct (lin_b p) as [bias | ]; [ | discriminate H].
    inv_bind H. injection H as <-. split; reflexivity.
  - injection H as <-. split; reflexivity.
Qed.

Lemma np_split_rows (k : nat) (t : Mat) (f : nat -> Mat) :
  np_split k t = Ok f -> forall s, rows (f s) = rows t.
Proof.
  unfold np_split. intros H. inv_bind H. injection H as <-.
  intros s. reflexivity.
Qed.

Lemma bdim_ok_inv (a b c : nat) :
  bdim a b = Ok c -> a = b \/ a = 1%nat \/ b = 1%nat.
Proof.
  unfold bdim. intros H.
  destruct (a =? b) eqn:E1; [left; apply Nat.eqb_eq; exact E1 | ].
  destruct (a =? 1) eqn:E2; [right; left; apply Nat.eqb_eq; exact E2 | ].
  destruct (b =? 1) eqn:E3; [right; right; apply Nat.eqb_eq; exact E3 | ].
  discriminate H.
Qed.

Lemma get_parameter_inv (stored y : Mat) (r c : nat) :
  SGU.get_parameter stored r c = Ok y ->
  y = stored /\ rows stored = r /\ cols stored = c.
Proof.
  unfold SGU.get_parameter. intros H. inv_bind H.
  apply guard_ok_inv in E. to_props. injection H as <-.
  repeat split; assumption.
Qed.

(** A successful [SGU.__call__] has broadcast the length of its input
    against the [seq_len] of the mixing matrix. *)
Lemma SGU_call_lengths (self : SGU.t) (p : SGU.params) (x y : Mat) :
  SGU.call self p x = Ok y ->
  rows x = SGU.seq_len self \/ rows x = 1%nat \/ SGU.seq_len self = 1%nat.
Proof.
  unfold SGU.call, SGU.call_trace. intros H.
  inv_bind H. clear H. rename E into H.
  inv_bind H. pose proof (np_split_rows _ _ _ E 1%nat) as Hr.
  inv_bind H. apply LayerNorm_rows in E0. destruct E0 as [Hr0 _].
  inv_bind H. inv_bind H. apply get_parameter_inv in E1.
  destruct E1 as (-> & Wr & Wc).
  inv_bind H. inv_bind H.
  unfold mat_zip in E2. inv_bind E2. inv_bind E2. injection E2 as <-.
  cbn [np_tril_ones rows cols] in *.
  rewrite Wc, bdim_refl in E4. injection E4 as <-.
  inv_bind H. unfold einsum_mix in E2. inv_bind E2.
  cbn [cols] in E4. apply bdim_ok_inv in E4.
  rewrite Hr0, Hr in E4. exact E4.
Qed.

(** C8, as the code has it: for a feed-forward layer with spatial gating,
    a call whose input length [n] differs from [seq_len] produces no
    output whenever neither of the two lengths is 1 (an axis of length 1
    is broadcast by the mixing product). *)
Theorem FeedForward_length_mismatch_fails (dim ff_mult seq_len : nat)
    (p : FeedForward.params) (x : Mat) :
  rows x <> seq_len -> rows x <> 1%nat -> seq_len <> 1%nat ->
  is_ok (FeedForward.call (FeedForward.init dim ff_mult seq_len true) p x)
  = false.
Proof.
  intros Hne Hn1 Hs1.
  destruct (FeedForward.call (FeedForward.init dim ff_mult seq_len true) p x)
    as [y | e] eqn:Hcall; [ | reflexivity].
  exfalso. unfold FeedForward.call, FeedForward.init in Hcall.
  cbn [FeedForward.sgu FeedForward.proj_in FeedForward.proj_out] in Hcall.
  inv_bind Hcall. apply LayerNorm_rows in E. destruct E as [R0 _].
  inv_bind Hcall. apply Linear_rows in E. destruct E as [R1 _].
  inv_bind Hcall.
  destruct (FeedForward.p_sgu p) as [pg | ]; [ | discriminate E].
  apply SGU_call_lengths in E. cbn [SGU.init SGU.seq_len mat_map rows] in E.
  rewrite R1, R0 in E. destruct E as [E | [E | E]]; contradiction.
Qed.

Lemma FeedForward_length_mismatch_fails_witness :
  is_ok (FeedForward.call (FeedForward.init 2 2 2 true)
           (const_ff_params 2 2 2 true 1) (sample_input 3 2)) = false.
Proof.
  apply (FeedForward_length_mismatch_fails 2 2 2); simpl; lia.
Defined.

(** C8, as stated, fails on the code: built for [seq_len = 1] and called
    on two positions, a gated feed-forward layer returns an output, and so
    does the whole model. *)
Lemma FeedForward_length_mismatch_counterexample :
  rows (sample_input 2 2) <> 1%nat /\
  is_ok (FeedForward.call (FeedForward.init 2 2 1 true)
           (const_ff_params 2 2 1 true 1) (sample_input 2 2)) = true /\
  is_ok (ProGen (ProGenBase.mkConfig 2 2 1 1 2 1 2 2 2 None true)
           (const_params (ProGenBase.mkConfig 2 2 1 1 2 1 2 2 2 None true) 1)
           [0%Z; 1%Z]) = true.
Proof.
  split; [simpl; lia | ]. split; lazy; reflexivity.
Qed.

(** ** The layer stack *)

Lemma FeedForward_call_ok (dim ff_mult seq_len : nat) (gate : bool)
    (p : FeedForward.params) (x : Mat) :
  ff_params_ok dim ff_mult seq_len gate p = true ->
  cols x = dim ->
  (gate = true ->
     rows x = seq_len /\ (0 < seq_len)%nat /\ ((dim * ff_mult) mod 2 = 0)%nat) ->
  exists y,
    FeedForward.call (FeedForward.init dim ff_mult seq_len gate) p x = Ok y /\
    rows y = rows x /\ cols y = dim.
Proof.
  intros Hp Hc Hg. unfold ff_params_ok in Hp. cbv zeta in Hp. to_props.
  unfold FeedForward.call, FeedForward.init.
  cbn [FeedForward.sgu FeedForward.proj_in FeedForward.proj_out].
  destruct (LayerNorm_ok (FeedForward.p_norm p) x) as (x1 & E1 & R1 & C1 & _);
    [congruence | ].
  rewrite E1. cbn [bind].
  destruct (Linear_ok (dim * ff_mult) true (FeedForward.p_proj_in p) x1)
    as (x2 & E2 & R2 & C2 & _); [rewrite C1, Hc; assumption | ].
  rewrite E2. cbn [bind].
  destruct gate.
  - destruct (Hg eq_refl) as (Hn & Hs & Heven).
    destruct (FeedForward.p_sgu p) as [pg | ]; [ | discriminate].
    destruct (SGU_call_trace_ok (dim * ff_mult) seq_len pg (mat_map gelu x2))
      as (tr & Etr & St).
    { unfold sgu_call_ok. cbn [mat_map rows cols].
      rewrite R2, R1, Hn, C2, Heven, Nat.eqb_refl, Nat.eqb_refl.
      replace (0 <? seq_len) with true by (symmetry; apply Nat.ltb_lt; exact Hs).
      cbn [andb Nat.eqb]. assumption. }
    unfold SGU.call. rewrite Etr. cbn [bind].
    destruct (sg_shape _ _ _ _ _ St) as [R3 C3].
    destruct (Linear_ok dim true (FeedForward.p_proj_out p) (SGU.out tr))
      as (y & Ey & Ry & Cy & _); [rewrite C3; assumption | ].
    exists y. split; [exact Ey | ]. split; [ | exact Cy].
    rewrite Ry, R3. symmetry. exact Hn.
  - cbn [bind].
    destruct (Linear_ok dim true (FeedForward.p_proj_out p) (mat_map gelu x2))
      as (y & Ey & Ry & Cy & _); [cbn [mat_map cols]; rewrite C2; assumption | ].
    exists y. split; [exact Ey | ]. split; [ | exact Cy].
    rewrite Ry. cbn [mat_map rows]. congruence.
Qed.

(** The modules [__init__] builds for the layers [idxs]. *)
Lemma make_layers_ok (c : ProGenBase.config) (idxs : list nat) :
  (0 < ProGenBase.dim_head c)%nat ->
  exists a,
    LocalAttention.init (ProGenBase.dim c) (ProGenBase.window_size c)
      (ProGenBase.heads c) (ProGenBase.dim_head c) = Ok a /\
    ProGenBase.make_layers c idxs =
      Ok (map (fun i =>
                 (a, FeedForward.init (ProGenBase.dim c) (ProGenBase.ff_mult c)
                       (ProGenBase.seq_len c)
                       (ProGenBase.depth c - i
                        <=? ProGenBase.global_mlp_depth c)%nat))
              idxs).
Proof.
  intros Hdh.
  assert (Ha : exists a,
            LocalAttention.init (ProGenBase.dim c) (ProGenBase.window_size c)
              (ProGenBase.heads c) (ProGenBase.dim_head c) = Ok a).
  { unfold LocalAttention.init.
    replace (ProGenBase.dim_head c =? 0) with false
      by (symmetry; apply Nat.eqb_neq; lia).
    cbn [negb guard bind]. eexists. reflexivity. }
  destruct Ha as [a Ha]. exists a. split; [exact Ha | ].
  induction idxs as [ | i idxs IH]; [reflexivity | ].
  cbn [ProGenBase.make_layers map]. unfold ProGenBase.make_layer.
  rewrite Ha. cbn [bind]. rewrite IH. reflexivity.
Qed.

Lemma fixed_pos_embedding_ok (n dh : nat) :
  (dh mod 2 = 0)%nat -> pos_emb_ok n dh (fixed_pos_embedding n dh) = true.
Proof.
  intros Hd. unfold pos_emb_ok.
  cbn [fixed_pos_embedding fst snd rows cols]. unfold arange2_len.
  assert (He : Nat.even dh = true).
  { apply Nat.even_spec. exists (dh / 2)%nat.
    pose proof (Nat.div_mod_eq dh 2). lia. }
  rewrite (even_half dh He), (even_half_double dh He), !Nat.eqb_refl.
  reflexivity.
Qed.

Lemma run_layers_ok (c : ProGenBase.config) (a : LocalAttention.t) (n : nat) :
  LocalAttention.init (ProGenBase.dim c) (ProGenBase.window_size c)
    (ProGenBase.heads c) (ProGenBase.dim_head c) = Ok a ->
  (0 < ProGenBase.window_size c)%nat -> (0 < n)%nat ->
  (n mod ProGenBase.window_size c = 0)%nat ->
  (0 < ProGenBase.heads c)%nat -> (ProGenBase.dim_head c mod 2 = 0)%nat ->
  forall idxs ps x,
    layers_ok c n idxs ps = true ->
    rows x = n -> cols x = ProGenBase.dim c ->
    exists y,
      ProGenBase.run_layers
        (map (fun i =>
                (a, FeedForward.init (ProGenBase.dim c) (ProGenBase.ff_mult c)
                      (ProGenBase.seq_len c)
                      (ProGenBase.depth c - i
                       <=? ProGenBase.global_mlp_depth c)%nat))
             idxs)
        ps (fixed_pos_embedding n (ProGenBase.dim_head c)) x = Ok y /\
      rows y = n /\ cols y = ProGenBase.dim c.
Proof.
  intros Ha Hw Hn Hmod Hh Hd idxs.
  induction idxs as [ | i idxs IH]; intros ps x Hl Hr Hc.
  - exists x. cbn. repeat split; assumption.
  - cbn [layers_ok] in Hl. destruct ps as [ | [pa pf] ps]; [discriminate Hl | ].
    apply andb_true_iff in Hl. destruct Hl as [Hl Hls].
    unfold layer_ok in Hl. cbv zeta in Hl. cbn [fst snd] in Hl.
    apply andb_true_iff in Hl. destruct Hl as [Hl Hgate].
    apply andb_true_iff in Hl. destruct Hl as [Hpa Hpf].
    cbn [map ProGenBase.run_layers].
    destruct (LocalAttention_call_ok _ _ _ _ a pa x
                (fixed_pos_embedding n (ProGenBase.dim_head c)) Ha)
      as (o & Eo & Ro & Co).
    { unfold attn_call_ok. rewrite Hr, Hc, Hpa, Hmod, !Nat.eqb_refl.
      rewrite (fixed_pos_embedding_ok n _ Hd).
      replace (0 <? ProGenBase.window_size c) with true
        by (symmetry; apply Nat.ltb_lt; assumption).
      replace (0 <? n) with true by (symmetry; apply Nat.ltb_lt; assumption).
      replace (0 <? ProGenBase.heads c) with true
        by (symmetry; apply Nat.ltb_lt; assumption).
      reflexivity. }
    rewrite Eo. cbn [bind].
    destruct (mat_zip_same Rplus x o) as (x1 & E1 & R1 & C1 & _);
      [congruence | congruence | ].
    rewrite E1. cbn [bind].
    destruct (FeedForward_call_ok (ProGenBase.dim c) (ProGenBase.ff_mult c)
                (ProGenBase.seq_len c)
                (ProGenBase.depth c - i <=? ProGenBase.global_mlp_depth c)%nat
                pf x1 Hpf) as (f & Ef & Rf & Cf).
    { congruence. }
    { intros Hg. rewrite Hg in Hgate. to_props. repeat split; lia. }
    rewrite Ef. cbn [bind].
    destruct (mat_zip_same Rplus x1 f) as (x2 & E2 & R2 & C2 & _);
      [congruence | congruence | ].
    rewrite E2. cbn [bind].
    apply IH; [exact Hls | congruence | congruence].
Qed.

Lemma Embed_ok (shape : nat * nat) (table : Mat) (ids : list Z) :
  rows table = fst shape -> cols table = snd shape ->
  exists y, ProGenBase.Embed shape table ids = Ok y /\
            rows y = length ids /\ cols y = snd shape.
Proof.
  intros Hr Hc. unfold ProGenBase.Embed.
  rewrite Hr, Hc, !Nat.eqb_refl. cbn [andb guard bind].
  eexists. split; [reflexivity | ]. cbn [rows cols]. split; reflexivity.
Qed.

Lemma Embed_rows (shape : nat * nat) (table : Mat) (ids : list Z) (y : Mat) :
  ProGenBase.Embed shape table ids = Ok y -> rows y = length ids.
Proof.
  unfold ProGenBase.Embed. intros H. inv_bind H. injection H as <-.
  reflexivity.
Qed.

Lemma Embed_init_ok (vocab_size embed_dim : nat) :
  (0 < vocab_size)%nat -> (0 < embed_dim)%nat ->
  ProGenBase.Embed_init vocab_size embed_dim = Ok (vocab_size, embed_dim).
Proof.
  intros Hv He. unfold ProGenBase.Embed_init.
  replace (vocab_size =? 0) with false by (symmetry; apply Nat.eqb_neq; lia).
  replace (embed_dim =? 0) with false by (symmetry; apply Nat.eqb_neq; lia).
  reflexivity.
Qed.

(** A well-formed forward pass returns logits of shape [(n, num_tokens)]. *)
Lemma ProGen_call_ok (c : ProGenBase.config) (p : ProGenBase.params)
    (tokens : list Z) :
  progen_call_ok c p tokens = true ->
  exists model y,
    ProGenBase.init c = Ok model /\
    ProGen c p tokens = Ok y /\
    rows y = length tokens /\ cols y = ProGenBase.num_tokens c.
Proof.
  intros Hwf. unfold progen_call_ok in Hwf. cbv zeta in Hwf. to_props.
  destruct (make_layers_ok c (seq 0 (ProGenBase.depth c))) as (a & Ha & Hls);
    [assumption | ].
  unfold ProGen, ProGenBase.init.
  rewrite Embed_init_ok by assumption. cbn [bind].
  rewrite Hls. cbn [bind].
  eexists. 
  unfold ProGenBase.call.
  cbn [ProGenBase.embed ProGenBase.layers ProGenBase.to_logits
       ProGenBase.self_dim_head].
  destruct (Embed_ok (ProGenBase.num_tokens c, ProGenBase.dim c)
              (ProGenBase.p_embed p) tokens) as (x0 & E0 & R0 & C0);
    [assumption | assumption | ].
  rewrite E0. cbn [bind].
  destruct (run_layers_ok c a (length tokens) Ha) with
    (idxs := seq 0 (ProGenBase.depth c)) (ps := ProGenBase.p_layers p)
    (x := x0) as (x1 & E1 & R1 & C1); try assumption.
  rewrite E1. cbn [bind].
  destruct (LayerNorm_ok (ProGenBase.p_logits_norm p) x1)
    as (x2 & E2 & R2 & C2 & _); [congruence | ].
  rewrite E2. cbn [bind].
  destruct (Linear_ok (ProGenBase.num_tokens c) true (ProGenBase.p_logits p) x2)
    as (y & Ey & Ry & Cy & _); [rewrite C2, C1; assumption | ].
  exists y. split; [reflexivity | ]. split; [exact Ey | ].
  split; [congruence | exact Cy].
Qed.

Ltac inv_bind_as H a Ha :=
  apply bind_ok_inv in H; destruct H as (a & Ha & H).

(** With at least one layer, a token sequence whose length is not a
    multiple of the window size yields no logits. *)
Lemma ProGen_indivisible (c : ProGenBase.config) (p : ProGenBase.params)
    (tokens : list Z) :
  (0 < ProGenBase.depth c)%nat ->
  (length tokens mod ProGenBase.window_size c <> 0)%nat ->
  is_ok (ProGen c p tokens) = false.
Proof.
  intros Hdepth Hmod.
  destruct (ProGen c p tokens) as [y | e] eqn:Hrun; [ | reflexivity].
  exfalso. unfold ProGen in Hrun. inv_bind_as Hrun model Hinit.
  unfold ProGenBase.init in Hinit. inv_bind_as Hinit e He.
  inv_bind_as Hinit ls Hls.
  injection Hinit as <-.
  destruct (ProGenBase.depth c) as [ | d] eqn:Hd; [lia | ].
  cbn [seq ProGenBase.make_layers] in Hls.
  inv_bind_as Hls l Hl. inv_bind_as Hls ls' Hls'. injection Hls as <-.
  unfold ProGenBase.make_layer in Hl. inv_bind_as Hl a Ha. injection Hl as <-.
  unfold ProGenBase.call in Hrun.
  cbn [ProGenBase.layers ProGenBase.embed ProGenBase.self_dim_head] in Hrun.
  inv_bind_as Hrun x0 Hx0. apply Embed_rows in Hx0.
  inv_bind_as Hrun x1 Hx1.
  cbn [ProGenBase.run_layers] in Hx1.
  destruct (ProGenBase.p_layers p) as [ | [pa pf] ps]; [discriminate Hx1 | ].
  inv_bind_as Hx1 o Ho.
  destruct (LocalAttention_call_indivisible _ _ _ _ a pa x0
              (fixed_pos_embedding (length tokens) (ProGenBase.dim_head c))
              Ha) as [Hfail _].
  { rewrite Hx0. exact Hmod. }
  rewrite Ho in Hfail. discriminate Hfail.
Qed.

(** ** The contracts of the stack *)

(** C7, as the code has it: when the input length is not a multiple of
    the window size the call of LocalAttention produces no result, and the error is the failed
    assertion, raised right after the normalisation and before the
    projection to queries, keys and values; hence a forward pass of a
    model with at least one layer produces no logits either.  A well-formed
    call, whose input is not empty and has a length that is a multiple of
    the window size, returns an array of the shape [(n, dim)] of its
    input. *)
Theorem LocalAttention_window_contract (dim wsz heads dh : nat)
    (self : LocalAttention.t) (p : LocalAttention.params) (x : Mat)
    (pos_emb : Mat * Mat) :
  LocalAttention.init dim wsz heads dh = Ok self ->
  ((rows x mod wsz <> 0)%nat ->
     is_ok (LocalAttention.call self p x pos_emb) = false /\
     ((0 < wsz)%nat -> vlen (LocalAttention.p_norm p) = cols x ->
        LocalAttention.call self p x pos_emb = Err AssertionError)) /\
  (forall c pp tokens,
     (0 < ProGenBase.depth c)%nat ->
     (length tokens mod ProGenBase.window_size c <> 0)%nat ->
     is_ok (ProGen c pp tokens) = false) /\
  (attn_call_ok dim wsz heads dh p x pos_emb = true ->
     exists y, LocalAttention.call self p x pos_emb = Ok y /\
               rows y = rows x /\ cols y = dim).
Proof.
  intros Hinit. split; [ | split].
  - intros Hmod. exact (LocalAttention_call_indivisible _ _ _ _ _ _ _ _ Hinit Hmod).
  - exact ProGen_indivisible.
  - intros Hwf. exact (LocalAttention_call_ok _ _ _ _ _ _ _ _ Hinit Hwf).
Qed.

Lemma LocalAttention_window_contract_witness :
  LocalAttention.call sample_attn (const_attn_params 3 2 2 1)
    (sample_input 3 3) (fixed_pos_embedding 3 2) = Err AssertionError /\
  exists y,
    LocalAttention.call sample_attn (const_attn_params 3 2 2 1)
      (sample_input 4 3) (fixed_pos_embedding 4 2) = Ok y /\
    rows y = 4%nat /\ cols y = 3%nat.
Proof.
  split.
  - destruct (LocalAttention_window_contract 3 2 2 2 sample_attn
                (const_attn_params 3 2 2 1) (sample_input 3 3)
                (fixed_pos_embedding 3 2)) as [Hneg _]; [reflexivity | ].
    destruct Hneg as [_ Herr]; [simpl; lia | ].
    apply Herr; [lia | reflexivity].
  - destruct (LocalAttention_window_contract 3 2 2 2 sample_attn
                (const_attn_params 3 2 2 1) (sample_input 4 3)
                (fixed_pos_embedding 4 2)) as (_ & _ & Hpos); [reflexivity | ].
    apply Hpos. reflexivity.
Defined.

(** C7, as stated, fails on the code for an empty input: 0 is a multiple
    of the window size and the assertion passes, but the number of windows
    is 0 and the split into windows divides by it. *)
Lemma LocalAttention_window_contract_counterexample :
  (rows (sample_input 0 3) mod 2 = 0)%nat /\
  attn_params_ok 3 2 2 (const_attn_params 3 2 2 1) = true /\
  pos_emb_ok 0 2 (fixed_pos_embedding 0 2) = true /\
  LocalAttention.call sample_attn (const_attn_params 3 2 2 1)
    (sample_input 0 3) (fixed_pos_embedding 0 2) = Err ZeroDivisionError.
Proof.
  split; [reflexivity | ]. split; [reflexivity | ]. split; [reflexivity | ].
  lazy. reflexivity.
Qed.

(** C9, as the code has it: no relation between [dim] and [heads] is
    required.  The attention width is [heads * dim_head], given
    separately, and for every well-formed configuration and input (a
    condition that does not involve [dim mod heads]) the model is built and
    the forward pass returns logits of shape [(n, num_tokens)]. *)
Theorem ProGen_accepts_any_dim (c : ProGenBase.config)
    (p : ProGenBase.params) (tokens : list Z) :
  progen_call_ok c p tokens = true ->
  exists model y,
    ProGenBase.init c = Ok model /\
    ProGen c p tokens = Ok y /\
    rows y = length tokens /\ cols y = ProGenBase.num_tokens c.
Proof. exact (ProGen_call_ok c p tokens). Qed.

Lemma ProGen_accepts_any_dim_witness :
  (5 mod 2 <> 0)%nat /\
  exists model y,
    ProGenBase.init (ProGenBase.mkConfig 4 5 4 2 2 1 2 4 2 None true)
      = Ok model /\
    ProGen (ProGenBase.mkConfig 4 5 4 2 2 1 2 4 2 None true)
      (const_params (ProGenBase.mkConfig 4 5 4 2 2 1 2 4 2 None true) 1)
      [0%Z; 3%Z; 1%Z; 2%Z] = Ok y /\
    rows y = 4%nat /\ cols y = 4%nat.
Proof.
  split; [simpl; lia | ].
  apply (ProGen_accepts_any_dim
           (ProGenBase.mkConfig 4 5 4 2 2 1 2 4 2 None true)
           (const_params (ProGenBase.mkConfig 4 5 4 2 2 1 2 4 2 None true) 1)
           [0%Z; 3%Z; 1%Z; 2%Z]).
  reflexivity.
Defined.

(** C9, as stated, fails on the code: with [dim = 3] and [heads = 2] the
    model is built and the forward pass returns logits. *)
Lemma ProGen_dim_heads_counterexample :
  (3 mod 2 <> 0)%nat /\
  is_ok (ProGenBase.init (ProGenBase.mkConfig 2 3 2 2 1 1 2 2 2 None true))
  = true /\
  is_ok (ProGen (ProGenBase.mkConfig 2 3 2 2 1 1 2 2 2 None true)
           (const_params (ProGenBase.mkConfig 2 3 2 2 1 1 2 2 2 None true) 1)
           [0%Z; 1%Z]) = true.
Proof.
  split; [simpl; lia | ]. split; lazy; reflexivity.
Qed.

Lemma make_layers_unused (nt dim sl depth wsz gmd heads dh ffm : nat)
    (a a' : option nat) (g g' : bool) (idxs : list nat) :
  ProGenBase.make_layers
    (ProGenBase.mkConfig nt dim sl depth wsz gmd heads dh ffm a g) idxs
  = ProGenBase.make_layers
      (ProGenBase.mkConfig nt dim sl depth wsz gmd heads dh ffm a' g') idxs.
Proof.
  induction idxs as [ | i idxs IH]; [reflexivity | ].
  cbn [ProGenBase.make_layers]. rewrite IH. reflexivity.
Qed.

(** C10: [clamp_gate] and [attn_dim] are accepted by the constructor and
    never read: two models whose keyword arguments differ only in them give
    the same result (the same logits, or the same error) on every
    parameter set and token sequence. *)
Theorem ProGen_ignores_clamp_gate_and_attn_dim
    (nt dim sl depth wsz gmd heads dh ffm : nat)
    (a a' : option nat) (g g' : bool)
    (p : ProGenBase.params) (tokens : list Z) :
  ProGen (ProGenBase.mkConfig nt dim sl depth wsz gmd heads dh ffm a g)
    p tokens
  = ProGen (ProGenBase.mkConfig nt dim sl depth wsz gmd heads dh ffm a' g')
      p tokens.
Proof.
  unfold ProGen, ProGenBase.init.
  rewrite (make_layers_unused nt dim sl depth wsz gmd heads dh ffm a a' g g').
  reflexivity.
Qed.

(** * Further properties of the code *)

(** ** rotate_every_two *)

Lemma rotate_every_two_even (x : T3) :
  Nat.even (t3d2 x) = true ->
  exists y, rotate_every_two x = Ok y /\
    t3d0 y = t3d0 x /\ t3d1 y = t3d1 x /\ t3d2 y = t3d2 x /\
    forall a i t,
      t3 y a i (2 * t) = - t3 x a i (2 * t + 1) /\
      t3 y a i (2 * t + 1) = t3 x a i (2 * t).
Proof.
  intros He. unfold rotate_every_two. cbn [t3d2].
  rewrite (even_half _ He), Nat.eqb_refl. cbn [guard bind].
  eexists. split; [reflexivity | ]. cbn [t3d0 t3d1 t3d2 t3].
  split; [reflexivity | ]. split; [reflexivity | ].
  split; [apply even_half_double; exact He | ].
  intros a i t. rewrite mod2_double, div2_double, mod2_double_1, div2_double_1.
  split; reflexivity.
Qed.

Lemma index_parity (c : nat) :
  (c = 2 * (c / 2) /\ c mod 2 = 0)%nat \/
  (c = 2 * (c / 2) + 1 /\ c mod 2 = 1)%nat.
Proof.
  pose proof (Nat.div_mod_eq c 2) as H.
  pose proof (Nat.mod_upper_bound c 2 ltac:(lia)) as Hb.
  destruct (c mod 2)%nat as [ | [ | r]]; [left | right | ]; lia.
Qed.

(** X1: on a feature axis of even length, [rotate_every_two] returns an
    array of the shape of its argument, and applied twice it negates every
    entry. *)
Theorem rotate_every_two_twice (x : T3) :
  Nat.even (t3d2 x) = true ->
  exists y z,
    rotate_every_two x = Ok y /\ rotate_every_two y = Ok z /\
    (t3d0 y = t3d0 x /\ t3d1 y = t3d1 x /\ t3d2 y = t3d2 x) /\
    t3d0 z = t3d0 x /\ t3d1 z = t3d1 x /\ t3d2 z = t3d2 x /\
    forall a i c, t3 z a i c = - t3 x a i c.
Proof.
  intros He.
  destruct (rotate_every_two_even x He) as (y & Hy & Y0 & Y1 & Y2 & Yv).
  destruct (rotate_every_two_even y) as (z & Hz & Z0 & Z1 & Z2 & Zv);
    [rewrite Y2; exact He | ].
  exists y, z. split; [exact Hy | ]. split; [exact Hz | ].
  split; [split; [exact Y0 | split; [exact Y1 | exact Y2]] | ].
  split; [congruence | ]. split; [congruence | ]. split; [congruence | ].
  intros a i c. destruct (index_parity c) as [[Hc _] | [Hc _]]; rewrite Hc.
  - destruct (Zv a i (c / 2)%nat) as [-> _].
    destruct (Yv a i (c / 2)%nat) as [_ ->]. reflexivity.
  - destruct (Zv a i (c / 2)%nat) as [_ ->].
    destruct (Yv a i (c / 2)%nat) as [-> _]. reflexivity.
Qed.

Lemma rotate_every_two_twice_witness :
  exists y z,
    rotate_every_two (mkT3 1 2 4 (fun _ i c => INR (i + c))) = Ok y /\
    rotate_every_two y = Ok z /\
    t3 z 0 1 3 = - INR (1 + 3).
Proof.
  destruct (rotate_every_two_twice (mkT3 1 2 4 (fun _ i c => INR (i + c))))
    as (y & z & Hy & Hz & _ & _ & _ & _ & Hv); [reflexivity | ].
  exists y, z. split; [exact Hy | ]. split; [exact Hz | ].
  rewrite Hv. reflexivity.
Defined.

(** X2: on a feature axis of even length, every feature vector is
    orthogonal to its image under [rotate_every_two]. *)
Theorem rotate_every_two_orthogonal (x : T3) :
  Nat.even (t3d2 x) = true ->
  exists y,
    rotate_every_two x = Ok y /\
    forall a i, rsum (t3d2 x) (fun c => t3 x a i c * t3 y a i c) = 0.
Proof.
  intros He.
  destruct (rotate_every_two_even x He) as (y & Hy & _ & _ & _ & Yv).
  exists y. split; [exact Hy | ]. intros a i.
  rewrite <- (even_half_double _ He), rsum_pairs.
  apply rsum_zero. intros t _.
  destruct (Yv a i t) as [-> ->]. ring.
Qed.

Lemma rotate_every_two_orthogonal_witness :
  exists y,
    rotate_every_two (mkT3 1 2 4 (fun _ i c => INR (i + c))) = Ok y /\
    rsum 4 (fun c => INR (1 + c) * t3 y 0 1 c) = 0.
Proof.
  destruct (rotate_every_two_orthogonal
              (mkT3 1 2 4 (fun _ i c => INR (i + c))))
    as (y & Hy & Hv); [reflexivity | ].
  exists y. split; [exact Hy | exact (Hv 0%nat 1%nat)].
Defined.

Lemma odd_halves (d : nat) :
  Nat.even d = false -> ((d + 1) / 2 = S (d / 2) /\ d = 2 * (d / 2) + 1)%nat.
Proof.
  intros H.
  assert (Ho : Nat.odd d = true) by (unfold Nat.odd; rewrite H; reflexivity).
  apply Nat.odd_spec in Ho. destruct Ho as [k Hk].
  assert (E1 : (d / 2 = k)%nat) by (rewrite Hk; apply div2_double_1).
  assert (E2 : ((d + 1) / 2 = S k)%nat).
  { replace (d + 1)%nat with (2 * S k)%nat by lia. apply div2_double. }
  rewrite E1, E2. split; [reflexivity | exact Hk].
Qed.

Lemma rotate_every_two_odd (x : T3) :
  Nat.even (t3d2 x) = false -> rotate_every_two x = Err ShapeError.
Proof.
  intros H. destruct (odd_halves _ H) as [E _].
  unfold rotate_every_two. cbn [t3d2]. rewrite E.
  replace (t3d2 x / 2 =? S (t3d2 x / 2)) with false
    by (symmetry; apply Nat.eqb_neq; lia).
  reflexivity.
Qed.

Lemma apply_rotary_odd_error (x : T3) (n d : nat) :
  t3d2 x = d -> Nat.even d = false ->
  apply_rotary_pos_emb x (fixed_pos_embedding n d) = Err ShapeError.
Proof.
  intros Hd Ho. rewrite <- Hd in Ho.
  unfold apply_rotary_pos_emb.
  destruct (t3_zip Rmult x (repeat2 (snd (fixed_pos_embedding n d))))
    as [xc | e] eqn:E.
  - cbn [bind]. rewrite (rotate_every_two_odd x Ho). reflexivity.
  - cbn [bind]. f_equal. unfold t3_zip in E.
    destruct (bdim (t3d0 x) (t3d0 (repeat2 (snd (fixed_pos_embedding n d)))))
      as [n0 | e0] eqn:E0; cbn [bind] in E.
    2:{ unfold bdim in E0.
        repeat match type of E0 with
               | (if ?b then _ else _) = _ => destruct b
               end; congruence. }
    destruct (bdim (t3d1 x) (t3d1 (repeat2 (snd (fixed_pos_embedding n d)))))
      as [n1 | e1] eqn:E1; cbn [bind] in E.
    2:{ unfold bdim in E1.
        repeat match type of E1 with
               | (if ?b then _ else _) = _ => destruct b
               end; congruence. }
    destruct (bdim (t3d2 x) (t3d2 (repeat2 (snd (fixed_pos_embedding n d)))))
      as [n2 | e2] eqn:E2; cbn [bind] in E.
    + discriminate E.
    + unfold bdim in E2.
      repeat match type of E2 with
             | (if ?b then _ else _) = _ => destruct b
             end; congruence.
Qed.

(** X3: the rotary transform needs an even head dimension: for an array
    whose feature axis has odd length [d], [apply_rotary_pos_emb] with the
    tables of [fixed_pos_embedding n d] raises a shape error. *)
Theorem apply_rotary_pos_emb_odd (x : T3) (n d : nat) :
  t3d2 x = d -> Nat.even d = false ->
  apply_rotary_pos_emb x (fixed_pos_embedding n d) = Err ShapeError.
Proof. exact (apply_rotary_odd_error x n d). Qed.

Lemma apply_rotary_pos_emb_odd_witness :
  apply_rotary_pos_emb (mkT3 2 4 3 (fun _ i c => INR (i + c)))
    (fixed_pos_embedding 4 3) = Err ShapeError.
Proof.
  apply (apply_rotary_pos_emb_odd (mkT3 2 4 3 (fun _ i c => INR (i + c))) 4 3);
    reflexivity.
Defined.

(** ** The rotary transform *)

(** X4: position 0 is not rotated: with the tables of
    [fixed_pos_embedding], the feature vectors at position 0 come out of
    [apply_rotary_pos_emb] unchanged. *)
Theorem apply_rotary_pos_emb_position_0 (x : T3) (n d : nat) :
  Nat.even d = true -> t3d1 x = n -> t3d2 x = d -> (0 < n)%nat ->
  exists y,
    apply_rotary_pos_emb x (fixed_pos_embedding n d) = Ok y /\
    forall a c, (a < t3d0 x)%nat -> (c < d)%nat -> t3 y a 0 c = t3 x a 0 c.
Proof.
  intros Hd Hn Hx Hpos.
  assert (Hc : (cols (fst (fixed_pos_embedding n d)) * 2 = t3d2 x)%nat).
  { cbn [fixed_pos_embedding fst cols]. unfold arange2_len.
    rewrite (even_half d Hd), Hx. apply even_half_double, Hd. }
  destruct (apply_rotary_pos_emb_spec x (fixed_pos_embedding n d))
    as (y & Hy & _ & _ & _ & Hval);
    try exact Hc;
    try (cbn [fixed_pos_embedding fst snd rows cols]; congruence).
  exists y. split; [exact Hy | ]. intros a c Ha Hcd.
  assert (Ht : (c / 2 < cols (fst (fixed_pos_embedding n d)))%nat).
  { destruct (index_parity c) as [[E _] | [E _]]; lia. }
  destruct (Hval a 0%nat (c / 2)%nat Ha ltac:(lia) Ht) as [H0 H1].
  cbn [fixed_pos_embedding fst snd mat] in H0, H1.
  unfold sinusoid_inp in H0, H1. cbn [INR] in H0, H1.
  rewrite Rmult_0_l, sin_0, cos_0 in H0, H1.
  destruct (index_parity c) as [[E _] | [E _]]; rewrite E.
  - rewrite H0. ring.
  - rewrite H1. ring.
Qed.

Lemma apply_rotary_pos_emb_position_0_witness :
  exists y,
    apply_rotary_pos_emb (mkT3 1 2 2 (fun _ i c => INR (i + c)))
      (fixed_pos_embedding 2 2) = Ok y /\
    t3 y 0 0 1 = INR (0 + 1).
Proof.
  destruct (apply_rotary_pos_emb_position_0
              (mkT3 1 2 2 (fun _ i c => INR (i + c))) 2 2)
    as (y & Hy & Hv); try reflexivity; [lia | ].
  exists y. split; [exact Hy | ]. apply (Hv 0%nat 1%nat); simpl; lia.
Defined.

Lemma rotary_pair_dot (q0 q1 k0 k1 a b : R) :
  (q0 * cos a - q1 * sin a) * (k0 * cos b - k1 * sin b)
  + (q1 * cos a + q0 * sin a) * (k1 * cos b + k0 * sin b)
  = (q0 * k0 + q1 * k1) * cos (a - b) + (q0 * k1 - q1 * k0) * sin (a - b).
Proof. rewrite cos_minus, sin_minus. ring. Qed.

(** X5: relative positions.  Rotate queries and keys with the tables of
    [fixed_pos_embedding].  The dot product of the rotated query at
    position [i] with the rotated key at position [j] depends on the two
    positions only through their difference: moving the same query vector
    to [i'] and the same key vector to [j'] with [i - j = i' - j'] leaves
    it unchanged. *)
Theorem rotary_dot_relative (q k : T3) (n d : nat) :
  Nat.even d = true ->
  t3d1 q = n -> t3d2 q = d -> t3d1 k = n -> t3d2 k = d ->
  exists q' k',
    apply_rotary_pos_emb q (fixed_pos_embedding n d) = Ok q' /\
    apply_rotary_pos_emb k (fixed_pos_embedding n d) = Ok k' /\
    forall a b i j i' j',
      (a < t3d0 q)%nat -> (b < t3d0 k)%nat ->
      (i < n)%nat -> (j < n)%nat -> (i' < n)%nat -> (j' < n)%nat ->
      (i + j' = i' + j)%nat ->
      (forall c, (c < d)%nat -> t3 q a i c = t3 q a i' c) ->
      (forall c, (c < d)%nat -> t3 k b j c = t3 k b j' c) ->
      rsum d (fun c => t3 q' a i c * t3 k' b j c)
      = rsum d (fun c => t3 q' a i' c * t3 k' b j' c).
Proof.
  intros Hd Hq1 Hq2 Hk1 Hk2.
  set (m := cols (fst (fixed_pos_embedding n d))).
  assert (Hm : (m * 2 = d)%nat).
  { unfold m. cbn [fixed_pos_embedding fst cols]. unfold arange2_len.
    rewrite (even_half d Hd). apply even_half_double, Hd. }
  assert (Hm' : (cols (snd (fixed_pos_embedding n d)) * 2 = d)%nat)
    by exact Hm.
  destruct (apply_rotary_pos_emb_spec q (fixed_pos_embedding n d))
    as (q' & Hq' & _ & _ & _ & Qv);
    [ cbn [fixed_pos_embedding fst rows]; congruence
    | cbn [fixed_pos_embedding snd rows]; congruence
    | fold m; congruence | congruence | ].
  destruct (apply_rotary_pos_emb_spec k (fixed_pos_embedding n d))
    as (k' & Hk' & _ & _ & _ & Kv);
    [ cbn [fixed_pos_embedding fst rows]; congruence
    | cbn [fixed_pos_embedding snd rows]; congruence
    | fold m; congruence | congruence | ].
  fold m in Qv, Kv.
  exists q', k'. split; [exact Hq' | ]. split; [exact Hk' | ].
  intros a b i j i' j' Ha Hb Hi Hj Hi' Hj' Hrel Hqeq Hkeq.
  rewrite <- Hm, !rsum_pairs. apply rsum_ext. intros t Ht.
  destruct (Qv a i t Ha ltac:(lia) Ht) as [-> ->].
  destruct (Qv a i' t Ha ltac:(lia) Ht) as [-> ->].
  destruct (Kv b j t Hb ltac:(lia) Ht) as [-> ->].
  destruct (Kv b j' t Hb ltac:(lia) Ht) as [-> ->].
  cbn [fixed_pos_embedding fst snd mat]. unfold sinusoid_inp.
  rewrite !rotary_pair_dot.
  rewrite (Hqeq (2 * t)%nat) by lia. rewrite (Hqeq (2 * t + 1)%nat) by lia.
  rewrite (Hkeq (2 * t)%nat) by lia. rewrite (Hkeq (2 * t + 1)%nat) by lia.
  replace (INR i * inv_freq d t - INR j * inv_freq d t)
    with (INR i' * inv_freq d t - INR j' * inv_freq d t); [reflexivity | ].
  assert (E : INR i + INR j' = INR i' + INR j)
    by (rewrite <- !plus_INR; f_equal; exact Hrel).
  replace (INR i') with (INR i + INR j' - INR j) by lra. ring.
Qed.

Lemma rotary_dot_relative_witness :
  exists q' k',
    apply_rotary_pos_emb (mkT3 1 3 2 (fun _ _ c => INR (1 + c)))
      (fixed_pos_embedding 3 2) = Ok q' /\
    apply_rotary_pos_emb (mkT3 1 3 2 (fun _ _ c => INR (2 + c)))
      (fixed_pos_embedding 3 2) = Ok k' /\
    rsum 2 (fun c => t3 q' 0 1 c * t3 k' 0 0 c)
    = rsum 2 (fun c => t3 q' 0 2 c * t3 k' 0 1 c).
Proof.
  destruct (rotary_dot_relative (mkT3 1 3 2 (fun _ _ c => INR (1 + c)))
              (mkT3 1 3 2 (fun _ _ c => INR (2 + c))) 3 2)
    as (q' & k' & Hq & Hk & Hv); try reflexivity.
  exists q', k'. split; [exact Hq | ]. split; [exact Hk | ].
  apply (Hv 0%nat 0%nat 1%nat 0%nat 2%nat 1%nat); simpl; try lia;
    intros; reflexivity.
Defined.

(** ** fixed_pos_embedding *)

(** X6: the frequencies of [fixed_pos_embedding] start at 1, stay in
    [(0, 1]] and strictly decrease along the feature axis. *)
Theorem inv_freq_decreasing (d j j' : nat) :
  (0 < d)%nat -> (j < j')%nat ->
  inv_freq d 0 = 1 /\
  0 < inv_freq d j' /\ inv_freq d j' < inv_freq d j /\ inv_freq d j <= 1.
Proof.
  intros Hd Hj.
  assert (Hpos : 0 < INR d) by (apply lt_0_INR; exact Hd).
  assert (Hbase : 1 < 10000) by lra.
  assert (Hp : forall y, 0 < Rpower 10000 y) by (intros y; apply exp_pos).
  assert (Hexp : INR (2 * j) / INR d < INR (2 * j') / INR d).
  { apply Rmult_lt_compat_r; [apply Rinv_0_lt_compat; exact Hpos | ].
    apply lt_INR. lia. }
  assert (Hge : 0 <= INR (2 * j) / INR d).
  { apply Rmult_le_pos; [apply pos_INR | ].
    apply Rlt_le, Rinv_0_lt_compat. exact Hpos. }
  assert (H1 : 1 <= Rpower 10000 (INR (2 * j) / INR d)).
  { rewrite <- (Rpower_O 10000) by lra. apply Rle_Rpower; [lra | exact Hge]. }
  pose proof (Rpower_lt 10000 _ _ Hbase Hexp) as Hlt.
  unfold inv_freq. repeat split.
  - cbn [Nat.mul INR]. unfold Rdiv at 2. rewrite Rmult_0_l, Rpower_O by lra.
    lra.
  - apply Rdiv_lt_0_compat; [lra | apply Hp].
  - unfold Rdiv. rewrite !Rmult_1_l.
    apply Rinv_lt_contravar; [ | exact Hlt].
    apply Rmult_lt_0_compat; apply Hp.
  - unfold Rdiv. rewrite Rmult_1_l. rewrite <- Rinv_1.
    apply Rinv_le_contravar; [lra | exact H1].
Qed.

Lemma inv_freq_decreasing_witness :
  inv_freq 8 0 = 1 /\
  0 < inv_freq 8 3 /\ inv_freq 8 3 < inv_freq 8 1 /\ inv_freq 8 1 <= 1.
Proof. apply (inv_freq_decreasing 8 1 3); lia. Defined.

(** ** More on sums, maxima and position-wise operations *)

Lemma rmax_ext (n : nat) (f g : nat -> R) :
  (forall k, (k < n)%nat -> f k = g k) -> rmax n f = rmax n g.
Proof.
  induction n as [ | n IH]; intros H; [reflexivity | ].
  destruct n as [ | n].
  - cbn [rmax]. apply H. lia.
  - change (Rmax (rmax (S n) f) (f (S n)) = Rmax (rmax (S n) g) (g (S n))).
    rewrite IH by (intros k Hk; apply H; lia).
    rewrite (H (S n)) by lia. reflexivity.
Qed.


Lemma rsum_scal_r (n : nat) (f : nat -> R) (s : R) :
  rsum n (fun k => f k * s) = rsum n f * s.
Proof.
  induction n as [ | n IH]; cbn [rsum]; [lra | rewrite IH; lra].
Qed.

Lemma rsum_pos (n : nat) (f : nat -> R) :
  (0 < n)%nat -> (forall k, (k < n)%nat -> 0 < f k) -> 0 < rsum n f.
Proof.
  intros Hn. induction n as [ | n IH]; intros H; [lia | ].
  cbn [rsum]. destruct n as [ | n].
  - cbn [rsum]. specialize (H 0%nat ltac:(lia)). lra.
  - assert (0 < rsum (S n) f) by (apply IH; [lia | intros k Hk; apply H; lia]).
    specialize (H (S n) ltac:(lia)). lra.
Qed.

Lemma Linear_row_local (o : nat) (b : bool) (p : LinearParams)
    (x x' y y' : Mat) (i : nat) :
  Linear o b p x = Ok y -> Linear o b p x' = Ok y' ->
  (forall k, (k < cols x)%nat -> mat x i k = mat x' i k) ->
  forall j, mat y i j = mat y' i j.
Proof.
  unfold Linear. intros Hy Hy' Hrow j.
  inv_bind_as Hy u G. inv_bind_as Hy' u' G'.
  apply guard_ok_inv in G. apply guard_ok_inv in G'. to_props.
  assert (Hc : cols x' = cols x) by congruence.
  assert (Hdot : rsum (cols x) (fun k => mat x i k * mat (lin_w p) k j)
                 = rsum (cols x') (fun k => mat x' i k * mat (lin_w p) k j)).
  { rewrite Hc. apply rsum_ext. intros k Hk. rewrite (Hrow k Hk). reflexivity. }
  destruct b.
  - destruct (lin_b p) as [bias | ]; [ | discriminate Hy].
    inv_bind_as Hy u1 G1. inv_bind_as Hy' u2 G2.
    injection Hy as <-. injection Hy' as <-. cbn [mat]. rewrite Hdot.
    reflexivity.
  - injection Hy as <-. injection Hy' as <-. cbn [mat]. exact Hdot.
Qed.

Lemma np_split_inv (k : nat) (t : Mat) (f : nat -> Mat) :
  np_split k t = Ok f ->
  forall s, cols (f s) = (cols t / k)%nat /\
            forall i j, mat (f s) i j = mat t i (s * (cols t / k) + j).
Proof.
  unfold np_split. intros H. inv_bind_as H u G. injection H as <-.
  intros s. split; [reflexivity | ]. intros i j. reflexivity.
Qed.

Lemma rearrange_heads_inv (h : nat) (t : Mat) (y : T3) :
  rearrange_heads h t = Ok y ->
  exists d, einops_infer (cols t) h = Ok d /\
            forall a i c, t3 y a i c = mat t i (a * d + c).
Proof.
  unfold rearrange_heads. intros H. inv_bind_as H d Hd. injection H as <-.
  exists d. split; [exact Hd | ]. intros a i c. reflexivity.
Qed.

(** The head-split queries, keys and values of a successful call, in terms
    of the projection [to_qkv] of the normalised input. *)
Lemma attn_heads_entries (self : LocalAttention.t) (p : LocalAttention.params)
    (x : Mat) (pos_emb : Mat * Mat) (tr : LocalAttention.trace) :
  LocalAttention.call_trace self p x pos_emb = Ok tr ->
  exists x1 qkv d,
    LayerNorm (LocalAttention.p_norm p) x = Ok x1 /\
    Linear (LocalAttention.to_qkv self) false (LocalAttention.p_to_qkv p) x1
    = Ok qkv /\
    einops_infer (LocalAttention.to_qkv self / 3) (LocalAttention.heads self)
    = Ok d /\
    forall a i c,
      t3 (LocalAttention.qh tr) a i c =
        mat qkv i (0 * (LocalAttention.to_qkv self / 3) + (a * d + c)) /\
      t3 (LocalAttention.kh tr) a i c =
        mat qkv i (1 * (LocalAttention.to_qkv self / 3) + (a * d + c)) /\
      t3 (LocalAttention.vh tr) a i c =
        mat qkv i (2 * (LocalAttention.to_qkv self / 3) + (a * d + c)).
Proof.
  unfold LocalAttention.call_trace. intros H.
  inv_bind_as H x1 Hx1. inv_bind_as H u1 G1. inv_bind_as H u2 G2.
  inv_bind_as H qkv Hqkv. inv_bind_as H sec Hsec3.
  inv_bind_as H q Hq. inv_bind_as H k Hk. inv_bind_as H v Hv.
  inv_bind_as H q' Hq'. inv_bind_as H k' Hk'. inv_bind_as H v' Hv'.
  inv_bind_as H qw Hqw. inv_bind_as H kw Hkw. inv_bind_as H vw Hvw.
  inv_bind_as H s Hs. inv_bind_as H s' Hs'. inv_bind_as H o Ho.
  inv_bind_as H o' Ho'. injection H as <-.
  cbn [LocalAttention.qh LocalAttention.kh LocalAttention.vh].
  destruct (Linear_rows _ _ _ _ _ Hqkv) as [_ Cq].
  pose proof (np_split_inv _ _ _ Hsec3) as Hsec. rewrite Cq in Hsec.
  destruct (rearrange_heads_inv _ _ _ Hq) as (dq & Dq & Qv).
  destruct (rearrange_heads_inv _ _ _ Hk) as (dk & Dk & Kv).
  destruct (rearrange_heads_inv _ _ _ Hv) as (dv & Dv & Vv).
  destruct (Hsec 0%nat) as [C0 S0]. destruct (Hsec 1%nat) as [C1 S1].
  destruct (Hsec 2%nat) as [C2 S2].
  rewrite C0 in Dq. rewrite C1 in Dk. rewrite C2 in Dv.
  assert (dk = dq) by congruence. assert (dv = dq) by congruence. subst dk dv.
  exists x1, qkv, dq. split; [exact Hx1 | ]. split; [exact Hqkv | ].
  split; [exact Dq | ].
  intros a i c. rewrite Qv, Kv, Vv, S0, S1, S2. repeat split; reflexivity.
Qed.

(** ** LocalAttention: entries of the later stages *)

Lemma attn_sim_entries (dim wsz heads dh : nat)
    (self : LocalAttention.t) (p : LocalAttention.params) (x : Mat)
    (pos_emb : Mat * Mat) (tr : LocalAttention.trace) :
  LocalAttention.init dim wsz heads dh = Ok self ->
  attn_call_ok dim wsz heads dh p x pos_emb = true ->
  attn_stages self p pos_emb (rows x) dim heads dh tr ->
  t4d0 (LocalAttention.sim tr) = heads /\
  t4d1 (LocalAttention.sim tr) = (rows x / wsz)%nat /\
  t4d2 (LocalAttention.sim tr) = wsz /\
  t4d3 (LocalAttention.sim tr) = (wsz * 2)%nat /\
  forall a w i j,
    (a < heads)%nat -> (w < rows x / wsz)%nat ->
    (i < wsz)%nat -> (j < wsz * 2)%nat ->
    t4 (LocalAttention.sim tr) a w i j =
      if tril_bit wsz i j
      then rsum dh (fun c => t4 (LocalAttention.qw tr) a w i c
                             * t4 (LocalAttention.ke tr) a w j c)
           * Rpower (INR dh) (- (1 / 2))
      else ATTN_MASK_VALUE.
Proof.
  intros Hinit Hwf St.
  destruct (attn_stages_relations _ _ _ _ _ _ _ _ _ Hinit Hwf St)
    as (Rq & Rk & _ & Wq & Wk & _ & Nq & Nk & _ & Pk & _).
  destruct (init_ok_inv _ _ _ _ _ Hinit) as [_ Hself].
  destruct St as [(Q0 & Q1 & Q2) (K0 & K1 & K2) _ _ _ _ _ _ _ _ _
                  (s & Hs & Hs') _ _ _].
  rewrite Hself in Hs'.
  cbn [LocalAttention.window_size LocalAttention.scale] in Hs'.
  destruct Rq as (RQ0 & RQ1 & RQ2 & _). destruct Rk as (RK0 & RK1 & RK2 & _).
  destruct Wq as (WQ0 & WQ1 & WQ2 & WQ3 & _).
  destruct Wk as (WK0 & WK1 & WK2 & WK3 & _).
  destruct Pk as (PK0 & PK1 & PK2 & PK3 & PKv).
  destruct (einsum_qk_ok (LocalAttention.qw tr) (LocalAttention.ke tr))
    as (s1 & Hs1 & S0 & S1 & S2 & S3 & Sv); try congruence.
  rewrite Hs in Hs1. injection Hs1 as <-.
  destruct (np_where_tril_ok wsz (wsz * 2) wsz
              (t4_scale s (Rpower (INR dh) (- (1 / 2)))) ATTN_MASK_VALUE)
    as (m & Hm & M0 & M1 & M2 & M3 & Mv).
  { cbn [t4_scale t4d2]. congruence. }
  { cbn [t4_scale t4d3]. rewrite S3, PK2, WK2. lia. }
  rewrite Hs' in Hm. injection Hm as <-.
  cbn [t4_scale t4d0 t4d1] in M0, M1.
  split; [congruence | ]. split; [congruence | ].
  split; [exact M2 | ]. split; [exact M3 | ].
  intros a w i j Ha Hw Hi Hj. rewrite (Mv a w i j Hi Hj).
  cbn [t4_scale t4]. rewrite Sv by congruence.
  replace (t4d3 (LocalAttention.qw tr)) with dh by congruence.
  reflexivity.
Qed.

Lemma attn_out_entries (dim wsz heads dh : nat)
    (self : LocalAttention.t) (p : LocalAttention.params) (x : Mat)
    (pos_emb : Mat * Mat) (tr : LocalAttention.trace) :
  LocalAttention.init dim wsz heads dh = Ok self ->
  attn_call_ok dim wsz heads dh p x pos_emb = true ->
  attn_stages self p pos_emb (rows x) dim heads dh tr ->
  exists o,
    einsum_av (LocalAttention.attn tr) (LocalAttention.ve tr) = Ok o /\
    (forall a w i c, (a < heads)%nat -> (w < rows x / wsz)%nat ->
       t4 o a w i c =
         rsum (wsz * 2) (fun j => t4 (LocalAttention.attn tr) a w i j
                                  * t4 (LocalAttention.ve tr) a w j c)) /\
    forall r j,
      mat (LocalAttention.out tr) r j =
        rsum (heads * dh) (fun k =>
          t4 o (k / dh)%nat (r / wsz)%nat (r mod wsz)%nat (k mod dh)%nat
          * mat (lin_w (LocalAttention.p_to_out p)) k j)
        + match lin_b (LocalAttention.p_to_out p) with
          | Some b => vat b j
          | None => 0
          end.
Proof.
  intros Hinit Hwf St.
  destruct (attn_sim_entries _ _ _ _ _ _ _ _ _ Hinit Hwf St)
    as (S0 & S1 & S2 & S3 & _).
  destruct (attn_stages_relations _ _ _ _ _ _ _ _ _ Hinit Hwf St)
    as (_ & _ & Rv & _ & _ & Wv & _ & _ & Nv & _ & Pv).
  destruct (init_ok_inv _ _ _ _ _ Hinit) as [_ Hself].
  destruct St as [_ _ (V0 & V1 & V2) _ _ _ _ _ _ _ _ _ Hattn
                  (o & Ho & Hout) _].
  rewrite Hself in Hout. cbn [LocalAttention.to_out] in Hout.
  destruct Rv as (RV0 & RV1 & RV2 & _).
  destruct Wv as (WV0 & WV1 & WV2 & WV3 & _).
  destruct Pv as (PV0 & PV1 & PV2 & PV3 & _).
  assert (A0 : t4d0 (LocalAttention.attn tr) = heads)
    by (rewrite Hattn; exact S0).
  assert (A1 : t4d1 (LocalAttention.attn tr) = (rows x / wsz)%nat)
    by (rewrite Hattn; exact S1).
  assert (A2 : t4d2 (LocalAttention.attn tr) = wsz)
    by (rewrite Hattn; exact S2).
  assert (A3 : t4d3 (LocalAttention.attn tr) = (wsz * 2)%nat)
    by (rewrite Hattn; exact S3).
  destruct (einsum_av_ok (LocalAttention.attn tr) (LocalAttention.ve tr))
    as (o1 & Ho1 & O0 & O1 & O2 & O3 & Ov); try congruence.
  { rewrite PV2, WV2, A3. lia. }
  rewrite Ho in Ho1. injection Ho1 as <-.
  unfold attn_call_ok, attn_params_ok in Hwf. to_props.
  destruct (Linear_ok dim true (LocalAttention.p_to_out p) (rearrange_merge o))
    as (y & Hy & _ & _ & Yv).
  { cbn [rearrange_merge cols].
    replace (t4d0 o * t4d3 o)%nat with (heads * dh)%nat; [assumption | ].
    rewrite O0, O3, A0, PV3, WV3, RV2, V2. reflexivity. }
  rewrite Hout in Hy. injection Hy as <-.
  exists o. split; [exact Ho | ]. split.
  - intros a w i c Ha Hw. rewrite Ov by congruence. rewrite A3. reflexivity.
  - intros r j. rewrite Yv. cbn [rearrange_merge cols mat].
    replace (t4d0 o * t4d3 o)%nat with (heads * dh)%nat
      by (rewrite O0, O3, A0, PV3, WV3, RV2, V2; reflexivity).
    replace (t4d3 o) with dh by (rewrite O3, PV3, WV3, RV2, V2; reflexivity).
    replace (t4d2 o) with wsz by (rewrite O2, A2; reflexivity).
    reflexivity.
Qed.

(** ** LocalAttention: the attention weights *)

Lemma rsum_nonneg (n : nat) (f : nat -> R) :
  (forall k, (k < n)%nat -> 0 <= f k) -> 0 <= rsum n f.
Proof.
  induction n as [ | n IH]; intros H; cbn [rsum]; [lra | ].
  assert (0 <= rsum n f) by (apply IH; intros k Hk; apply H; lia).
  specialize (H n ltac:(lia)). lra.
Qed.

Lemma rsum_ge_term (n : nat) (f : nat -> R) (j : nat) :
  (forall k, (k < n)%nat -> 0 <= f k) -> (j < n)%nat -> f j <= rsum n f.
Proof.
  induction n as [ | n IH]; intros H Hj; [lia | ]. cbn [rsum].
  assert (0 <= rsum n f) by (apply rsum_nonneg; intros k Hk; apply H; lia).
  destruct (Nat.eq_dec j n) as [-> | Hne]; [lra | ].
  assert (f j <= rsum n f) by (apply IH; [intros k Hk; apply H; lia | lia]).
  specialize (H n ltac:(lia)). lra.
Qed.

(** The rows of a softmax over a non-empty axis are probability vectors. *)
Lemma softmax_rows (t : T4) (a b i : nat) :
  (0 < t4d3 t)%nat ->
  rsum (t4d3 t) (fun j => t4 (softmax t) a b i j) = 1 /\
  forall j, (j < t4d3 t)%nat ->
    0 <= t4 (softmax t) a b i j <= 1.
Proof.
  intros Hn. cbn [softmax t4].
  set (e := fun j => exp (t4 t a b i j - rmax (t4d3 t) (t4 t a b i))).
  assert (He : forall j, 0 < e j) by (intros j; apply exp_pos).
  assert (Hs : 0 < rsum (t4d3 t) e)
    by (apply rsum_pos; [exact Hn | intros k _; apply He]).
  split.
  - change (rsum (t4d3 t) (fun j => e j / rsum (t4d3 t) e) = 1).
    unfold Rdiv. rewrite rsum_scal_r. field. lra.
  - intros j Hj. change (0 <= e j / rsum (t4d3 t) e <= 1).
    assert (Hle : e j <= rsum (t4d3 t) e).
    { apply rsum_ge_term; [intros k _; apply Rlt_le, He | exact Hj]. }
    split.
    + apply Rlt_le, Rdiv_lt_0_compat; [apply He | exact Hs].
    + apply Rmult_le_reg_r with (r := rsum (t4d3 t) e); [exact Hs | ].
      unfold Rdiv. rewrite Rmult_assoc, Rinv_l by lra. lra.
Qed.

(** X7: in a well-formed call every query position gets a probability
    vector over its [2 * window_size] key slots: the attention weights of a
    row lie in [[0, 1]] and sum to 1 (over the reals). *)
Theorem LocalAttention_attention_rows (dim wsz heads dh : nat)
    (self : LocalAttention.t) (p : LocalAttention.params) (x : Mat)
    (pos_emb : Mat * Mat) :
  LocalAttention.init dim wsz heads dh = Ok self ->
  attn_call_ok dim wsz heads dh p x pos_emb = true ->
  exists tr,
    LocalAttention.call_trace self p x pos_emb = Ok tr /\
    (t4d0 (LocalAttention.attn tr) = heads /\
     t4d1 (LocalAttention.attn tr) = (rows x / wsz)%nat /\
     t4d2 (LocalAttention.attn tr) = wsz /\
     t4d3 (LocalAttention.attn tr) = (2 * wsz)%nat) /\
    forall a w i,
      rsum (2 * wsz) (fun j => t4 (LocalAttention.attn tr) a w i j) = 1 /\
      forall j, (j < 2 * wsz)%nat ->
        0 <= t4 (LocalAttention.attn tr) a w i j <= 1.
Proof.
  intros Hinit Hwf.
  destruct (LocalAttention_call_trace_ok _ _ _ _ _ _ _ _ Hinit Hwf)
    as (tr & Htr & St).
  destruct (attn_sim_entries _ _ _ _ _ _ _ _ _ Hinit Hwf St)
    as (S0 & S1 & S2 & S3 & _).
  pose proof (st_attn _ _ _ _ _ _ _ _ St) as Hattn.
  exists tr. split; [exact Htr | ]. rewrite Hattn.
  assert (Hw : (0 < wsz)%nat) by (unfold attn_call_ok in Hwf; to_props; lia).
  assert (S3' : t4d3 (LocalAttention.sim tr) = (2 * wsz)%nat) by lia.
  split.
  - cbn [softmax t4d0 t4d1 t4d2 t4d3]. repeat split; assumption.
  - intros a w i. rewrite <- S3'. apply softmax_rows. lia.
Qed.

Lemma LocalAttention_attention_rows_witness :
  exists tr,
    LocalAttention.call_trace sample_attn (const_attn_params 3 2 2 1)
      (sample_input 4 3) (fixed_pos_embedding 4 2) = Ok tr /\
    rsum (2 * 2) (fun j => t4 (LocalAttention.attn tr) 1 0 1 j) = 1.
Proof.
  destruct (LocalAttention_attention_rows 3 2 2 2 sample_attn
              (const_attn_params 3 2 2 1) (sample_input 4 3)
              (fixed_pos_embedding 4 2))
    as (tr & Htr & _ & Hrows); [reflexivity | reflexivity | ].
  exists tr. split; [exact Htr | ].
  exact (proj1 (Hrows 1%nat 0%nat 1%nat)).
Defined.



(** ** LocalAttention: what a window of the output depends on *)

Lemma rotated_by_local (sc : Mat * Mat) (s s' d d' : T3) (m a i : nat) :
  rotated_by sc s d -> rotated_by sc s' d' ->
  t3d2 s = (2 * m)%nat -> t3d2 s' = (2 * m)%nat ->
  (a < t3d0 s)%nat -> (a < t3d0 s')%nat ->
  (i < t3d1 s)%nat -> (i < t3d1 s')%nat ->
  (forall c, (c < 2 * m)%nat -> t3 s a i c = t3 s' a i c) ->
  forall c, (c < 2 * m)%nat -> t3 d a i c = t3 d' a i c.
Proof.
  intros (_ & _ & _ & Hv) (_ & _ & _ & Hv') Hd Hd' Ha Ha' Hi Hi' Hs c Hc.
  assert (Ht : (2 * (c / 2) + 1 < 2 * m)%nat)
    by (destruct (index_parity c) as [[E _] | [E _]]; lia).
  destruct (Hv a i (c / 2)%nat Ha Hi ltac:(lia)) as [H0 H1].
  destruct (Hv' a i (c / 2)%nat Ha' Hi' ltac:(lia)) as [H0' H1'].
  destruct (index_parity c) as [[E _] | [E _]]; rewrite E.
  - rewrite H0, H0', !Hs by lia. reflexivity.
  - rewrite H1, H1', !Hs by lia. reflexivity.
Qed.

Lemma softmax_row_ext (t t' : T4) (a b i : nat) :
  t4d3 t' = t4d3 t ->
  (forall k, (k < t4d3 t)%nat -> t4 t a b i k = t4 t' a b i k) ->
  forall j, (j < t4d3 t)%nat ->
    t4 (softmax t) a b i j = t4 (softmax t') a b i j.
Proof.
  intros Hd H j Hj. cbn [softmax t4]. rewrite Hd.
  rewrite <- (rmax_ext (t4d3 t) (t4 t a b i) (t4 t' a b i) H).
  rewrite <- (H j Hj).
  rewrite (rsum_ext (t4d3 t)
             (fun j0 => exp (t4 t' a b i j0 - rmax (t4d3 t) (t4 t a b i)))
             (fun j0 => exp (t4 t a b i j0 - rmax (t4d3 t) (t4 t a b i)))).
  - reflexivity.
  - intros k Hk. rewrite (H k Hk). reflexivity.
Qed.

Lemma prev_cur_of_low (wins ext : T4) (a w j c : nat) :
  prev_cur_of wins ext -> (j < t4d2 wins)%nat ->
  t4 ext a w j c = if w =? 0 then 0 else t4 wins a (w - 1) j c.
Proof.
  intros (_ & _ & _ & _ & Hv) Hj. destruct (Hv a w j c) as [Hlo _].
  rewrite (Hlo Hj). destruct w as [ | w0]; [reflexivity | ].
  cbn [Nat.eqb]. replace (S w0 - 1)%nat with w0 by lia. reflexivity.
Qed.

Section AttnLocality.

Variables dim wsz heads dh : nat.
Variable self : LocalAttention.t.
Variable p : LocalAttention.params.
Variable pos_emb : Mat * Mat.
Variables x x' : Mat.
Variables tr tr' : LocalAttention.trace.

Hypothesis Hinit : LocalAttention.init dim wsz heads dh = Ok self.
Hypothesis Hwf : attn_call_ok dim wsz heads dh p x pos_emb = true.
Hypothesis Hwf' : attn_call_ok dim wsz heads dh p x' pos_emb = true.
Hypothesis Htr : LocalAttention.call_trace self p x pos_emb = Ok tr.
Hypothesis Htr' : LocalAttention.call_trace self p x' pos_emb = Ok tr'.
Hypothesis St : attn_stages self p pos_emb (rows x) dim heads dh tr.
Hypothesis St' : attn_stages self p pos_emb (rows x') dim heads dh tr'.

Lemma loc_shapes :
  rows x' = rows x /\ cols x = dim /\ cols x' = dim /\
  (0 < wsz)%nat /\ (rows x = wsz * (rows x / wsz))%nat /\
  exists m, dh = (2 * m)%nat.
Proof.
  unfold attn_call_ok, pos_emb_ok in Hwf, Hwf'. to_props.
  split; [congruence | ]. split; [assumption | ]. split; [assumption | ].
  split; [assumption | ].
  split; [apply (divisible_windows (rows x) wsz); assumption | ].
  exists (cols (fst pos_emb)). lia.
Qed.

(** The head-split arrays at a position depend on the input at that
    position only. *)
Lemma loc_heads (pos : nat) :
  (forall j, (j < dim)%nat -> mat x pos j = mat x' pos j) ->
  forall a c,
    t3 (LocalAttention.qh tr) a pos c = t3 (LocalAttention.qh tr') a pos c /\
    t3 (LocalAttention.kh tr) a pos c = t3 (LocalAttention.kh tr') a pos c /\
    t3 (LocalAttention.vh tr) a pos c = t3 (LocalAttention.vh tr') a pos c.
Proof.
  intros Hrow a c.
  destruct loc_shapes as (_ & Cx & Cx' & _).
  destruct (attn_heads_entries _ _ _ _ _ Htr)
    as (x1 & qkv & d & Hx1 & Hqkv & Hd & Hv).
  destruct (attn_heads_entries _ _ _ _ _ Htr')
    as (x1' & qkv' & d' & Hx1' & Hqkv' & Hd' & Hv').
  assert (d' = d) by congruence. subst d'.
  assert (Hn : forall j, (j < cols x)%nat -> mat x1 pos j = mat x1' pos j).
  { apply (LayerNorm_row_local _ _ _ _ _ pos Hx1 Hx1'); [congruence | ].
    intros j Hj. apply Hrow. congruence. }
  destruct (LayerNorm_rows _ _ _ Hx1) as [_ C1].
  assert (Hq : forall j, mat qkv pos j = mat qkv' pos j).
  { apply (Linear_row_local _ _ _ _ _ _ _ pos Hqkv Hqkv').
    intros k Hk. apply Hn. congruence. }
  destruct (Hv a pos c) as (-> & -> & ->).
  destruct (Hv' a pos c) as (-> & -> & ->).
  rewrite !Hq. repeat split; reflexivity.
Qed.

(** So do the rotated arrays. *)
Lemma loc_rotated (pos : nat) :
  (pos < rows x)%nat ->
  (forall j, (j < dim)%nat -> mat x pos j = mat x' pos j) ->
  forall a c, (a < heads)%nat -> (c < dh)%nat ->
    t3 (LocalAttention.qr tr) a pos c = t3 (LocalAttention.qr tr') a pos c /\
    t3 (LocalAttention.kr tr) a pos c = t3 (LocalAttention.kr tr') a pos c /\
    t3 (LocalAttention.vr tr) a pos c = t3 (LocalAttention.vr tr') a pos c.
Proof.
  intros Hpos Hrow a c Ha Hc.
  destruct loc_shapes as (Rx & _ & _ & _ & _ & m & Hm).
  destruct (attn_stages_relations _ _ _ _ _ _ _ _ _ Hinit Hwf St)
    as (Rq & Rk & Rv & _).
  destruct (attn_stages_relations _ _ _ _ _ _ _ _ _ Hinit Hwf' St')
    as (Rq' & Rk' & Rv' & _).
  destruct St as [(Q0 & Q1 & Q2) (K0 & K1 & K2) (V0 & V1 & V2)
                  _ _ _ _ _ _ _ _ _ _ _ _].
  destruct St' as [(Q0' & Q1' & Q2') (K0' & K1' & K2') (V0' & V1' & V2')
                   _ _ _ _ _ _ _ _ _ _ _ _].
  pose proof (loc_heads pos Hrow) as Hh.
  rewrite Hm in Hc.
  split; [ | split].
  - apply (rotated_by_local pos_emb _ _ _ _ m a pos Rq Rq');
      try congruence; try lia.
    intros c' _. apply Hh.
  - apply (rotated_by_local pos_emb _ _ _ _ m a pos Rk Rk');
      try congruence; try lia.
    intros c' _. apply Hh.
  - apply (rotated_by_local pos_emb _ _ _ _ m a pos Rv Rv');
      try congruence; try lia.
    intros c' _. apply Hh.
Qed.

Variable w : nat.
Hypothesis Hw : (w < rows x / wsz)%nat.

(** The two inputs agree on the positions of windows [w - 1] and [w]. *)
Hypothesis Hregion :
  forall pos, (w * wsz <= pos + wsz)%nat -> (pos < (w + 1) * wsz)%nat ->
    forall j, (j < dim)%nat -> mat x pos j = mat x' pos j.

Lemma loc_region_rotated (pos : nat) :
  (w * wsz <= pos + wsz)%nat -> (pos < (w + 1) * wsz)%nat ->
  forall a c, (a < heads)%nat -> (c < dh)%nat ->
    t3 (LocalAttention.qr tr) a pos c = t3 (LocalAttention.qr tr') a pos c /\
    t3 (LocalAttention.kr tr) a pos c = t3 (LocalAttention.kr tr') a pos c /\
    t3 (LocalAttention.vr tr) a pos c = t3 (LocalAttention.vr tr') a pos c.
Proof.
  intros H1 H2. apply loc_rotated; [ | apply Hregion; assumption].
  destruct loc_shapes as (_ & _ & _ & _ & Hn & _).
  rewrite Hn. nia.
Qed.

Lemma loc_extended (a j c : nat) :
  (a < heads)%nat -> (j < wsz * 2)%nat -> (c < dh)%nat ->
  t4 (LocalAttention.ke tr) a w j c = t4 (LocalAttention.ke tr') a w j c /\
  t4 (LocalAttention.ve tr) a w j c = t4 (LocalAttention.ve tr') a w j c.
Proof.
  intros Ha Hj Hc.
  destruct (attn_stages_relations _ _ _ _ _ _ _ _ _ Hinit Hwf St)
    as (_ & _ & _ & _ & Wk & Wv & _ & _ & _ & Pk & Pv).
  destruct (attn_stages_relations _ _ _ _ _ _ _ _ _ Hinit Hwf' St')
    as (_ & _ & _ & _ & Wk' & Wv' & _ & _ & _ & Pk' & Pv').
  destruct Wk as (_ & _ & WK2 & _ & WKv). destruct Wv as (_ & _ & WV2 & _ & WVv).
  destruct Wk' as (_ & _ & WK2' & _ & WKv').
  destruct Wv' as (_ & _ & WV2' & _ & WVv').
  pose proof (prev_cur_of_low _ _ a w j c Pk) as Klow.
  pose proof (prev_cur_of_low _ _ a w j c Pv) as Vlow.
  pose proof (prev_cur_of_low _ _ a w j c Pk') as Klow'.
  pose proof (prev_cur_of_low _ _ a w j c Pv') as Vlow'.
  rewrite WK2 in Klow. rewrite WV2 in Vlow.
  rewrite WK2' in Klow'. rewrite WV2' in Vlow'.
  destruct Pk as (_ & _ & _ & _ & PKv). destruct Pv as (_ & _ & _ & _ & PVv).
  destruct Pk' as (_ & _ & _ & _ & PKv').
  destruct Pv' as (_ & _ & _ & _ & PVv').
  rewrite WK2 in PKv. rewrite WV2 in PVv.
  rewrite WK2' in PKv'. rewrite WV2' in PVv'.
  destruct (PKv a w j c) as [_ Khi]. destruct (PVv a w j c) as [_ Vhi].
  destruct (PKv' a w j c) as [_ Khi']. destruct (PVv' a w j c) as [_ Vhi'].
  destruct (Nat.lt_ge_cases j wsz) as [Hlt | Hge].
  - rewrite (Klow Hlt), (Klow' Hlt), (Vlow Hlt), (Vlow' Hlt).
    destruct (w =? 0) eqn:Ew0; [split; reflexivity | ].
    apply Nat.eqb_neq in Ew0.
    rewrite WKv, WKv', WVv, WVv'.
    destruct (loc_region_rotated ((w - 1) * wsz + j)) with (a := a) (c := c)
      as (_ & Hk & Hv); try assumption; try nia.
    split; assumption.
  - rewrite (Khi Hge), (Khi' Hge), (Vhi Hge), (Vhi' Hge).
    rewrite WKv, WKv', WVv, WVv'.
    destruct (loc_region_rotated (w * wsz + (j - wsz))) with (a := a) (c := c)
      as (_ & Hk & Hv); try assumption; try lia.
    split; assumption.
Qed.

Lemma loc_sim (a i j : nat) :
  (a < heads)%nat -> (i < wsz)%nat -> (j < wsz * 2)%nat ->
  t4 (LocalAttention.sim tr) a w i j = t4 (LocalAttention.sim tr') a w i j.
Proof.
  intros Ha Hi Hj.
  destruct loc_shapes as (Rx & _).
  destruct (attn_sim_entries _ _ _ _ _ _ _ _ _ Hinit Hwf St)
    as (_ & _ & _ & _ & Sv).
  destruct (attn_sim_entries _ _ _ _ _ _ _ _ _ Hinit Hwf' St')
    as (_ & _ & _ & _ & Sv').
  rewrite (Sv a w i j Ha Hw Hi Hj).
  rewrite (Sv' a w i j Ha ltac:(rewrite Rx; exact Hw) Hi Hj).
  destruct (tril_bit wsz i j); [ | reflexivity]. f_equal.
  apply rsum_ext. intros c Hc.
  destruct (attn_stages_relations _ _ _ _ _ _ _ _ _ Hinit Hwf St)
    as (_ & _ & _ & Wq & _).
  destruct (attn_stages_relations _ _ _ _ _ _ _ _ _ Hinit Hwf' St')
    as (_ & _ & _ & Wq' & _).
  destruct Wq as (_ & _ & _ & _ & WQv). destruct Wq' as (_ & _ & _ & _ & WQv').
  rewrite WQv, WQv'.
  destruct (loc_region_rotated (w * wsz + i)) with (a := a) (c := c)
    as (Hq & _); try assumption; try lia.
  destruct (loc_extended a j c Ha Hj Hc) as [Hk _].
  rewrite Hq, Hk. reflexivity.
Qed.

Lemma loc_attn (a i j : nat) :
  (a < heads)%nat -> (i < wsz)%nat ->
  t4 (LocalAttention.attn tr) a w i j = t4 (LocalAttention.attn tr') a w i j
  \/ (wsz * 2 <= j)%nat.
Proof.
  intros Ha Hi.
  destruct (Nat.lt_ge_cases j (wsz * 2)) as [Hj | Hj]; [left | right; exact Hj].
  destruct (attn_sim_entries _ _ _ _ _ _ _ _ _ Hinit Hwf St)
    as (_ & _ & _ & S3 & _).
  destruct (attn_sim_entries _ _ _ _ _ _ _ _ _ Hinit Hwf' St')
    as (_ & _ & _ & S3' & _).
  rewrite (st_attn _ _ _ _ _ _ _ _ St), (st_attn _ _ _ _ _ _ _ _ St').
  apply softmax_row_ext; [congruence | | rewrite S3; exact Hj].
  intros k Hk. apply loc_sim; [exact Ha | exact Hi | rewrite <- S3; exact Hk].
Qed.

(** The rows of window [w] of the two outputs are equal. *)
Lemma loc_out (r j : nat) :
  (w * wsz <= r)%nat -> (r < (w + 1) * wsz)%nat ->
  mat (LocalAttention.out tr) r j = mat (LocalAttention.out tr') r j.
Proof.
  intros Hlo Hhi.
  destruct loc_shapes as (Rx & _ & _ & Hwsz & _ & m & Hm).
  destruct (attn_out_entries _ _ _ _ _ _ _ _ _ Hinit Hwf St)
    as (o & _ & Ov & Outv).
  destruct (attn_out_entries _ _ _ _ _ _ _ _ _ Hinit Hwf' St')
    as (o' & _ & Ov' & Outv').
  rewrite Outv, Outv'. f_equal. apply rsum_ext. intros k Hk. f_equal.
  assert (Hrw : (r / wsz = w)%nat).
  { symmetry. apply Nat.div_unique with (r := (r - w * wsz)%nat); [lia | nia]. }
  assert (Hri : (r mod wsz < wsz)%nat) by (apply Nat.mod_upper_bound; lia).
  assert (Hdh : (0 < dh)%nat) by (destruct dh; [nia | lia]).
  assert (Hka : (k / dh < heads)%nat).
  { apply Nat.Div0.div_lt_upper_bound. nia. }
  assert (Hkc : (k mod dh < dh)%nat) by (apply Nat.mod_upper_bound; lia).
  rewrite Hrw. rewrite (Ov _ w _ _ Hka Hw).
  rewrite (Ov' _ w _ _ Hka ltac:(rewrite Rx; exact Hw)).
  apply rsum_ext. intros j' Hj'.
  destruct (loc_attn (k / dh) (r mod wsz) j' Hka Hri) as [Ha | Hge]; [ | lia].
  destruct (loc_extended (k / dh) j' (k mod dh) Hka Hj' Hkc) as [_ Hv].
  rewrite Ha, Hv. reflexivity.
Qed.

End AttnLocality.

(** X9: local attention is local.  If two well-formed inputs agree on the
    positions of windows [w - 1] and [w] (of window 0 alone when [w = 0]),
    the two calls return outputs that agree on every position of window
    [w]: a window of the output reads nothing from later windows nor from
    windows before the previous one. *)
Theorem LocalAttention_window_locality (dim wsz heads dh : nat)
    (self : LocalAttention.t) (p : LocalAttention.params)
    (pos_emb : Mat * Mat) (x x' : Mat) (w : nat) :
  LocalAttention.init dim wsz heads dh = Ok self ->
  attn_call_ok dim wsz heads dh p x pos_emb = true ->
  attn_call_ok dim wsz heads dh p x' pos_emb = true ->
  (w < rows x / wsz)%nat ->
  (forall pos, (w * wsz <= pos + wsz)%nat -> (pos < (w + 1) * wsz)%nat ->
     forall j, (j < dim)%nat -> mat x pos j = mat x' pos j) ->
  exists y y',
    LocalAttention.call self p x pos_emb = Ok y /\
    LocalAttention.call self p x' pos_emb = Ok y' /\
    forall r j, (w * wsz <= r)%nat -> (r < (w + 1) * wsz)%nat ->
      mat y r j = mat y' r j.
Proof.
  intros Hinit Hwf Hwf' Hw Hregion.
  destruct (LocalAttention_call_trace_ok _ _ _ _ _ _ _ _ Hinit Hwf)
    as (tr & Htr & St).
  destruct (LocalAttention_call_trace_ok _ _ _ _ _ _ _ _ Hinit Hwf')
    as (tr' & Htr' & St').
  exists (LocalAttention.out tr), (LocalAttention.out tr').
  unfold LocalAttention.call. rewrite Htr, Htr'. cbn [bind].
  split; [reflexivity | ]. split; [reflexivity | ].
  intros r j Hlo Hhi.
  exact (loc_out dim wsz heads dh self p pos_emb x x' tr tr'
           Hinit Hwf Hwf' Htr Htr' St St' w Hw Hregion r j Hlo Hhi).
Qed.

Lemma LocalAttention_window_locality_witness :
  exists y y',
    LocalAttention.call sample_attn (const_attn_params 3 2 2 1)
      (sample_input 4 3) (fixed_pos_embedding 4 2) = Ok y /\
    LocalAttention.call sample_attn (const_attn_params 3 2 2 1)
      (perturb_rows_from 2 7 4 3) (fixed_pos_embedding 4 2) = Ok y' /\
    forall j, mat y 1 j = mat y' 1 j.
Proof.
  destruct (LocalAttention_window_locality 3 2 2 2 sample_attn
              (const_attn_params 3 2 2 1) (fixed_pos_embedding 4 2)
              (sample_input 4 3) (perturb_rows_from 2 7 4 3) 0)
    as (y & y' & Hy & Hy' & Hv).
  - reflexivity.
  - reflexivity.
  - reflexivity.
  - simpl. lia.
  - intros pos _ Hpos j _. cbn [perturb_rows_from mat].
    replace (2 <=? pos) with false by (symmetry; apply Nat.leb_gt; lia).
    reflexivity.
  - exists y, y'. split; [exact Hy | ]. split; [exact Hy' | ].
    intros j. apply Hv; lia.
Defined.

(** ** LocalAttention and the model: configurations that cannot run *)

(** X10: a window size of 0 makes every call fail with a division by
    zero ([n % wsz]), right after the normalisation. *)
Theorem LocalAttention_window_size_0 (dim heads dh : nat)
    (self : LocalAttention.t) (p : LocalAttention.params) (x : Mat)
    (pos_emb : Mat * Mat) :
  LocalAttention.init dim 0 heads dh = Ok self ->
  vlen (LocalAttention.p_norm p) = cols x ->
  LocalAttention.call self p x pos_emb = Err ZeroDivisionError.
Proof.
  intros Hinit Hlen. destruct (init_ok_inv _ _ _ _ _ Hinit) as [_ ->].
  unfold LocalAttention.call, LocalAttention.call_trace.
  destruct (LayerNorm_ok _ _ Hlen) as (x1 & -> & _).
  reflexivity.
Qed.

Lemma LocalAttention_window_size_0_witness :
  LocalAttention.call
    (LocalAttention.mk 2 (Rpower (INR 2) (- (1 / 2))) 0 12 3)
    (const_attn_params 3 2 2 1) (sample_input 4 3) (fixed_pos_embedding 4 2)
  = Err ZeroDivisionError.
Proof.
  apply (LocalAttention_window_size_0 3 2 2); reflexivity.
Defined.

Lemma LocalAttention_odd_error (dim wsz heads dh : nat)
    (self : LocalAttention.t) (p : LocalAttention.params) (x : Mat) :
  LocalAttention.init dim wsz heads dh = Ok self ->
  Nat.even dh = false ->
  (0 < wsz)%nat -> (rows x mod wsz = 0)%nat -> (0 < heads)%nat ->
  cols x = dim -> attn_params_ok dim heads dh p = true ->
  LocalAttention.call self p x (fixed_pos_embedding (rows x) dh)
  = Err ShapeError.
Proof.
  intros Hinit Hodd Hw Hmod Hh Hc Hp.
  destruct (init_ok_inv _ _ _ _ _ Hinit) as [_ ->].
  unfold attn_params_ok in Hp. to_props.
  unfold LocalAttention.call, LocalAttention.call_trace.
  cbn [LocalAttention.heads LocalAttention.window_size LocalAttention.to_qkv].
  destruct (LayerNorm_ok (LocalAttention.p_norm p) x) as (x1 & -> & R1 & C1 & _);
    [congruence | ].
  cbn [bind]. rewrite R1.
  replace (wsz =? 0) with false by (symmetry; apply Nat.eqb_neq; lia).
  replace (rows x mod wsz =? 0) with true
    by (symmetry; apply Nat.eqb_eq; assumption).
  cbn [negb guard bind].
  destruct (Linear_ok (dh * heads * 3) false (LocalAttention.p_to_qkv p) x1)
    as (qkv & -> & R2 & C2 & _); [rewrite C1; congruence | ].
  cbn [bind].
  destruct (np_split_ok 3 qkv) as (sec & -> & Hsec);
    [rewrite C2; apply Nat.Div0.mod_mul | ].
  cbn [bind].
  assert (Hcs : forall s, cols (sec s) = (dh * heads)%nat).
  { intros s. destruct (Hsec s) as (_ & -> & _). rewrite C2.
    apply Nat.div_mul. lia. }
  destruct (rearrange_heads_ok heads dh (sec 0%nat)) as (q & -> & _ & Q1 & Q2 & _);
    [apply Hcs | assumption | ].
  destruct (rearrange_heads_ok heads dh (sec 1%nat)) as (k & -> & _);
    [apply Hcs | assumption | ].
  destruct (rearrange_heads_ok heads dh (sec 2%nat)) as (v & -> & _);
    [apply Hcs | assumption | ].
  cbn [bind].
  rewrite (apply_rotary_odd_error q (rows x) dh Q2 Hodd). reflexivity.
Qed.

(** X11: the head dimension must be even.  With an odd [dim_head] and at
    least one layer, a forward pass that is otherwise in order (non-empty
    vocabulary and feature axis, window size dividing the length, at least
    one head, embedding and first attention layer with parameters of the
    requested shapes) raises a shape error: the rotary tables of
    [fixed_pos_embedding] are one feature wider than the queries. *)
Theorem ProGen_odd_dim_head (c : ProGenBase.config) (p : ProGenBase.params)
    (tokens : list Z) (pa : LocalAttention.params) (pf : FeedForward.params)
    (ps : list (LocalAttention.params * FeedForward.params)) :
  Nat.even (ProGenBase.dim_head c) = false ->
  (0 < ProGenBase.num_tokens c)%nat -> (0 < ProGenBase.dim c)%nat ->
  (0 < ProGenBase.depth c)%nat ->
  (0 < ProGenBase.window_size c)%nat ->
  (length tokens mod ProGenBase.window_size c = 0)%nat ->
  (0 < ProGenBase.heads c)%nat ->
  rows (ProGenBase.p_embed p) = ProGenBase.num_tokens c ->
  cols (ProGenBase.p_embed p) = ProGenBase.dim c ->
  ProGenBase.p_layers p = (pa, pf) :: ps ->
  attn_params_ok (ProGenBase.dim c) (ProGenBase.heads c)
    (ProGenBase.dim_head c) pa = true ->
  ProGen c p tokens = Err ShapeError.
Proof.
  intros Hodd Hnt Hdim Hdepth Hw Hmod Hh Er Ec Hps Hpa.
  assert (Hdh : (0 < ProGenBase.dim_head c)%nat).
  { destruct (ProGenBase.dim_head c); [discriminate Hodd | lia]. }
  destruct (make_layers_ok c (seq 0 (ProGenBase.depth c)) Hdh)
    as (a & Ha & Hls).
  unfold ProGen, ProGenBase.init.
  rewrite Embed_init_ok by assumption. cbn [bind].
  rewrite Hls. cbn [bind].
  unfold ProGenBase.call.
  cbn [ProGenBase.embed ProGenBase.layers ProGenBase.self_dim_head].
  destruct (Embed_ok (ProGenBase.num_tokens c, ProGenBase.dim c)
              (ProGenBase.p_embed p) tokens Er Ec) as (x0 & -> & R0 & C0).
  cbn [bind]. rewrite Hps.
  destruct (ProGenBase.depth c) as [ | d]; [lia | ].
  cbn [seq map ProGenBase.run_layers]. rewrite <- R0.
  rewrite (LocalAttention_odd_error _ _ _ _ a pa x0 Ha Hodd Hw); try assumption.
  - reflexivity.
  - rewrite R0. exact Hmod.
Qed.

Lemma ProGen_odd_dim_head_witness :
  ProGen (ProGenBase.mkConfig 2 3 2 1 1 0 2 3 2 None true)
    (const_params (ProGenBase.mkConfig 2 3 2 1 1 0 2 3 2 None true) 1)
    [0%Z; 1%Z] = Err ShapeError.
Proof.
  apply (ProGen_odd_dim_head
           (ProGenBase.mkConfig 2 3 2 1 1 0 2 3 2 None true)
           (const_params (ProGenBase.mkConfig 2 3 2 1 1 0 2 3 2 None true) 1)
           [0%Z; 1%Z]
           (const_attn_params 3 2 3 1) (const_ff_params 3 2 2 false 1) []);
    try reflexivity; simpl; lia.
Defined.

(** ** ProGenBase.__init__ *)

(** X12: which layers are gated.  When [num_tokens], [dim] and [dim_head]
    are positive the constructor builds [depth] layers; layer [i] carries a spatial gating unit exactly
    when [depth - i <= global_mlp_depth], that is in the last
    [global_mlp_depth] layers (in all of them when [global_mlp_depth >=
    depth]), and that unit is built for the model's [seq_len]. *)
Theorem ProGenBase_init_gating (c : ProGenBase.config) :
  (0 < ProGenBase.num_tokens c)%nat -> (0 < ProGenBase.dim c)%nat ->
  (0 < ProGenBase.dim_head c)%nat ->
  exists model,
    ProGenBase.init c = Ok model /\
    length (ProGenBase.layers model) = ProGenBase.depth c /\
    forall i, (i < ProGenBase.depth c)%nat ->
      exists a ff,
        nth_error (ProGenBase.layers model) i = Some (a, ff) /\
        LocalAttention.window_size a = ProGenBase.window_size c /\
        LocalAttention.heads a = ProGenBase.heads c /\
        (FeedForward.sgu ff = None <->
           (ProGenBase.global_mlp_depth c < ProGenBase.depth c - i)%nat) /\
        (forall g, FeedForward.sgu ff = Some g ->
           SGU.seq_len g = ProGenBase.seq_len c).
Proof.
  intros Hnt Hdim Hdh.
  destruct (make_layers_ok c (seq 0 (ProGenBase.depth c)) Hdh)
    as (a & Ha & Hls).
  destruct (init_ok_inv _ _ _ _ _ Ha) as [_ Hself].
  unfold ProGenBase.init. rewrite Embed_init_ok by assumption. cbn [bind].
  rewrite Hls. cbn [bind].
  eexists. split; [reflexivity | ]. cbn [ProGenBase.layers].
  split; [rewrite length_map, length_seq; reflexivity | ].
  intros i Hi.
  exists a, (FeedForward.init (ProGenBase.dim c) (ProGenBase.ff_mult c)
               (ProGenBase.seq_len c)
               (ProGenBase.depth c - i <=? ProGenBase.global_mlp_depth c)%nat).
  split.
  { rewrite nth_error_map, nth_error_seq.
    replace (i <? ProGenBase.depth c) with true
      by (symmetry; apply Nat.ltb_lt; exact Hi).
    reflexivity. }
  split; [rewrite Hself; reflexivity | ].
  split; [rewrite Hself; reflexivity | ].
  unfold FeedForward.init. cbn [FeedForward.sgu].
  destruct (ProGenBase.depth c - i <=? ProGenBase.global_mlp_depth c)%nat
    eqn:E.
  - apply Nat.leb_le in E. split.
    + split; [discriminate | lia].
    + intros g Hg. injection Hg as <-. reflexivity.
  - apply Nat.leb_gt in E. split.
    + split; [intros _; exact E | reflexivity].
    + intros g Hg. discriminate Hg.
Qed.

Lemma ProGenBase_init_gating_witness :
  exists model,
    ProGenBase.init (ProGenBase.mkConfig 4 5 4 3 2 1 2 4 2 None true)
      = Ok model /\
    length (ProGenBase.layers model) = 3%nat.
Proof.
  destruct (ProGenBase_init_gating
              (ProGenBase.mkConfig 4 5 4 3 2 1 2 4 2 None true))
    as (model & Hm & Hlen & _); [simpl; lia | simpl; lia | simpl; lia | ].
  exists model. split; [exact Hm | exact Hlen].
Defined.

(** X13: what the constructor rejects.  [hk.Embed] is built first and
    raises ValueError when [num_tokens] or [dim] is 0.  Past that check,
    [dim_head = 0] cannot be used with any layer: the constructor raises
    ZeroDivisionError ([dim_head ** -0.5]) as soon as [depth > 0], and so
    does the transformed function on every input; with [depth = 0] no
    attention layer is built and the constructor returns a model without
    layers. *)
Theorem ProGenBase_init_dim_head_0 (c : ProGenBase.config) :
  ((ProGenBase.num_tokens c = 0 \/ ProGenBase.dim c = 0)%nat ->
     ProGenBase.init c = Err ValueError /\
     forall p tokens, ProGen c p tokens = Err ValueError) /\
  ((0 < ProGenBase.num_tokens c)%nat -> (0 < ProGenBase.dim c)%nat ->
   ProGenBase.dim_head c = 0%nat ->
   ((0 < ProGenBase.depth c)%nat ->
      ProGenBase.init c = Err ZeroDivisionError /\
      forall p tokens, ProGen c p tokens = Err ZeroDivisionError) /\
   (ProGenBase.depth c = 0%nat ->
      exists model, ProGenBase.init c = Ok model /\
                    ProGenBase.layers model = [])).
Proof.
  split.
  - intros Hz.
    assert (Hinit : ProGenBase.init c = Err ValueError).
    { unfold ProGenBase.init, ProGenBase.Embed_init.
      destruct Hz as [-> | ->]; [reflexivity | ].
      rewrite andb_false_r. reflexivity. }
    split; [exact Hinit | ].
    intros p tokens. unfold ProGen. rewrite Hinit. reflexivity.
  - intros Hnt Hdim Hdh. split.
    + intros Hdepth.
      assert (Hinit : ProGenBase.init c = Err ZeroDivisionError).
      { unfold ProGenBase.init. rewrite Embed_init_ok by assumption.
        cbn [bind].
        destruct (ProGenBase.depth c) as [ | d]; [lia | ].
        cbn [seq ProGenBase.make_layers]. unfold ProGenBase.make_layer.
        unfold LocalAttention.init. rewrite Hdh. reflexivity. }
      split; [exact Hinit | ].
      intros p tokens. unfold ProGen. rewrite Hinit. reflexivity.
    + intros Hdepth. unfold ProGenBase.init.
      rewrite Embed_init_ok by assumption. rewrite Hdepth.
      cbn [seq ProGenBase.make_layers bind].
      eexists. split; reflexivity.
Qed.

Lemma ProGenBase_init_dim_head_0_witness :
  ProGenBase.init (ProGenBase.mkConfig 4 0 4 2 2 1 2 4 2 None true)
  = Err ValueError /\
  ProGenBase.init (ProGenBase.mkConfig 4 5 4 2 2 1 2 0 2 None true)
  = Err ZeroDivisionError.
Proof.
  split.
  - destruct (ProGenBase_init_dim_head_0
                (ProGenBase.mkConfig 4 0 4 2 2 1 2 4 2 None true))
      as [Herr _].
    destruct Herr as [Hinit _]; [right; reflexivity | exact Hinit].
  - destruct (ProGenBase_init_dim_head_0
                (ProGenBase.mkConfig 4 5 4 2 2 1 2 0 2 None true))
      as [_ Herr].
    destruct Herr as [Herr _]; [simpl; lia | simpl; lia | reflexivity | ].
    destruct Herr as [Hinit _]; [simpl; lia | exact Hinit].
Defined.

(** ** FeedForward without gating works position by position *)

Lemma row_mean_eq (g g' : Mat) (i i' : nat) :
  cols g' = cols g ->
  (forall j, (j < cols g)%nat -> mat g i j = mat g' i' j) ->
  row_mean g i = row_mean g' i'.
Proof.
  intros Hc H. unfold row_mean. rewrite Hc. f_equal.
  apply rsum_ext. exact H.
Qed.

Lemma row_var_eq (g g' : Mat) (i i' : nat) :
  cols g' = cols g ->
  (forall j, (j < cols g)%nat -> mat g i j = mat g' i' j) ->
  row_var g i = row_var g' i'.
Proof.
  intros Hc H. unfold row_var.
  rewrite (row_mean_eq g g' i i' Hc H), Hc. f_equal.
  apply rsum_ext. intros j Hj. rewrite (H j Hj). reflexivity.
Qed.

Lemma LayerNorm_rows_eq (scale : Vec) (g g' y y' : Mat) (i i' : nat) :
  LayerNorm scale g = Ok y -> LayerNorm scale g' = Ok y' ->
  cols g' = cols g ->
  (forall j, (j < cols g)%nat -> mat g i j = mat g' i' j) ->
  forall j, (j < cols g)%nat -> mat y i j = mat y' i' j.
Proof.
  unfold LayerNorm. intros Hy Hy' Hc H j Hj.
  destruct (vlen scale =? cols g); [ | discriminate Hy].
  destruct (vlen scale =? cols g'); [ | discriminate Hy'].
  cbn in Hy, Hy'. injection Hy as <-. injection Hy' as <-. cbn [mat].
  rewrite (row_var_eq g g' i i' Hc H), (row_mean_eq g g' i i' Hc H), (H j Hj).
  reflexivity.
Qed.

Lemma Linear_rows_eq (o : nat) (b : bool) (p : LinearParams)
    (x x' y y' : Mat) (i i' : nat) :
  Linear o b p x = Ok y -> Linear o b p x' = Ok y' ->
  (forall k, (k < cols x)%nat -> mat x i k = mat x' i' k) ->
  forall j, mat y i j = mat y' i' j.
Proof.
  unfold Linear. intros Hy Hy' Hrow j.
  inv_bind_as Hy u G. inv_bind_as Hy' u' G'.
  apply guard_ok_inv in G. apply guard_ok_inv in G'. to_props.
  assert (Hc : cols x' = cols x) by congruence.
  assert (Hdot : rsum (cols x) (fun k => mat x i k * mat (lin_w p) k j)
                 = rsum (cols x') (fun k => mat x' i' k * mat (lin_w p) k j)).
  { rewrite Hc. apply rsum_ext. intros k Hk. rewrite (Hrow k Hk). reflexivity. }
  destruct b.
  - destruct (lin_b p) as [bias | ]; [ | discriminate Hy].
    inv_bind_as Hy u1 G1. inv_bind_as Hy' u2 G2.
    injection Hy as <-. injection Hy' as <-. cbn [mat]. rewrite Hdot.
    reflexivity.
  - injection Hy as <-. injection Hy' as <-. cbn [mat]. exact Hdot.
Qed.

Lemma ff_plain_rows_eq (dim ff_mult seq_len : nat) (p : FeedForward.params)
    (x x' y y' : Mat) (i i' : nat) :
  FeedForward.call (FeedForward.init dim ff_mult seq_len false) p x = Ok y ->
  FeedForward.call (FeedForward.init dim ff_mult seq_len false) p x' = Ok y' ->
  cols x' = cols x ->
  (forall j, (j < cols x)%nat -> mat x i j = mat x' i' j) ->
  forall j, mat y i j = mat y' i' j.
Proof.
  unfold FeedForward.call, FeedForward.init.
  cbn [FeedForward.sgu FeedForward.proj_in FeedForward.proj_out].
  intros Hy Hy' Hc Hrow.
  inv_bind_as Hy x1 Hx1. inv_bind_as Hy x2 Hx2. inv_bind_as Hy x3 Hx3.
  inv_bind_as Hy' x1' Hx1'. inv_bind_as Hy' x2' Hx2'. inv_bind_as Hy' x3' Hx3'.
  injection Hx3 as <-. injection Hx3' as <-.
  pose proof (LayerNorm_rows_eq _ _ _ _ _ i i' Hx1 Hx1' Hc Hrow) as H1.
  destruct (LayerNorm_rows _ _ _ Hx1) as [_ C1].
  assert (H2 : forall j, mat x2 i j = mat x2' i' j).
  { apply (Linear_rows_eq _ _ _ _ _ _ _ i i' Hx2 Hx2').
    intros k Hk. apply H1. congruence. }
  apply (Linear_rows_eq _ _ _ _ _ _ _ i i' Hy Hy').
  intros k _. cbn [mat_map mat]. rewrite H2. reflexivity.
Qed.

(** X14: a feed-forward layer without spatial gating applies one function
    to every position and accepts every input length: on inputs of [dim]
    features (of any two lengths) both calls return an output of the
    length of their input, and wherever row [i] of one input equals row
    [i'] of the other, row [i] of the first output equals row [i'] of the
    second. *)
Theorem FeedForward_position_wise (dim ff_mult seq_len : nat)
    (p : FeedForward.params) (x x' : Mat) (i i' : nat) :
  ff_params_ok dim ff_mult seq_len false p = true ->
  cols x = dim -> cols x' = dim ->
  (forall j, (j < dim)%nat -> mat x i j = mat x' i' j) ->
  exists y y',
    FeedForward.call (FeedForward.init dim ff_mult seq_len false) p x = Ok y /\
    FeedForward.call (FeedForward.init dim ff_mult seq_len false) p x' = Ok y' /\
    (rows y = rows x /\ cols y = dim) /\
    (rows y' = rows x' /\ cols y' = dim) /\
    forall j, mat y i j = mat y' i' j.
Proof.
  intros Hp Hc Hc' Hrow.
  destruct (FeedForward_call_ok dim ff_mult seq_len false p x Hp Hc)
    as (y & Hy & Ry & Cy); [discriminate | ].
  destruct (FeedForward_call_ok dim ff_mult seq_len false p x' Hp Hc')
    as (y' & Hy' & Ry' & Cy'); [discriminate | ].
  exists y, y'. split; [exact Hy | ]. split; [exact Hy' | ].
  split; [split; assumption | ]. split; [split; assumption | ].
  apply (ff_plain_rows_eq _ _ _ _ _ _ _ _ i i' Hy Hy'); [congruence | ].
  intros j Hj. apply Hrow. congruence.
Qed.

Lemma FeedForward_position_wise_witness :
  exists y y',
    FeedForward.call (FeedForward.init 2 2 5 false)
      (const_ff_params 2 2 5 false 1) (sample_input 3 2) = Ok y /\
    FeedForward.call (FeedForward.init 2 2 5 false)
      (const_ff_params 2 2 5 false 1) (perturb_rows_from 2 7 4 2) = Ok y' /\
    forall j, mat y 1 j = mat y' 1 j.
Proof.
  destruct (FeedForward_position_wise 2 2 5 (const_ff_params 2 2 5 false 1)
              (sample_input 3 2) (perturb_rows_from 2 7 4 2) 1 1)
    as (y & y' & Hy & Hy' & _ & _ & Hv); try reflexivity.
  exists y, y'. split; [exact Hy | ]. split; [exact Hy' | exact Hv].
Defined.

(** ** SGU: edge cases *)

(** X15: an SGU needs an even number of input features and a positive
    [seq_len]: an input with an odd number of features raises a shape
    error at the split, and a unit built with [seq_len = 0] raises
    ZeroDivisionError ([EPS / n]) after the split and the normalisation. *)
Theorem SGU_edge_errors (self : SGU.t) (p : SGU.params) (x : Mat) :
  ((cols x mod 2 = 1)%nat -> SGU.call self p x = Err ShapeError) /\
  ((cols x mod 2 = 0)%nat -> vlen (SGU.p_norm p) = (cols x / 2)%nat ->
   SGU.seq_len self = 0%nat -> SGU.call self p x = Err ZeroDivisionError).
Proof.
  split.
  - intros Hodd. unfold SGU.call, SGU.call_trace, np_split.
    rewrite Hodd. reflexivity.
  - intros Heven Hlen Hn. unfold SGU.call, SGU.call_trace.
    destruct (np_split_ok 2 x Heven) as (halves & -> & Hh). cbn [bind].
    destruct (LayerNorm_ok (SGU.p_norm p) (halves 1%nat)) as (g & -> & _).
    { destruct (Hh 1%nat) as (_ & -> & _). exact Hlen. }
    cbn [bind]. rewrite Hn. reflexivity.
Qed.

Lemma SGU_edge_errors_witness :
  SGU.call (SGU.init 3 1 2) (const_sgu_params 3 2 1) (sample_input 2 3)
  = Err ShapeError /\
  SGU.call (SGU.init 4 2 0) (const_sgu_params 4 0 1) (sample_input 2 4)
  = Err ZeroDivisionError.
Proof.
  split.
  - apply (proj1 (SGU_edge_errors (SGU.init 3 1 2) (const_sgu_params 3 2 1)
                    (sample_input 2 3))). reflexivity.
  - apply (proj2 (SGU_edge_errors (SGU.init 4 2 0) (const_sgu_params 4 0 1)
                    (sample_input 2 4))); reflexivity.
Defined.

(** X16: with a zero mixing matrix the unit mixes nothing: in a well-formed
    call the gate of position [m] is the bias of that position, and the
    output is the projection of the [x] half scaled by it; with the unit
    bias of the initialiser it is the projection of the [x] half. *)
Theorem SGU_zero_weights (hidden seq_len : nat) (p : SGU.params) (x : Mat) :
  sgu_call_ok hidden seq_len p x = true ->
  (forall m k, mat (SGU.spatial_weights p) m k = 0) ->
  exists tr,
    SGU.call_trace (SGU.init hidden (hidden / 2) seq_len) p x = Ok tr /\
    forall m d, (m < seq_len)%nat ->
      ((d < hidden / 2)%nat ->
         mat (SGU.gate_mixed tr) m d = mat (SGU.spatial_biases p) m 0) /\
      mat (SGU.out tr) m d =
        rsum (hidden / 2) (fun k =>
          mat x m k * mat (SGU.spatial_biases p) m 0
          * mat (lin_w (SGU.p_proj_out p)) k d)
        + match lin_b (SGU.p_proj_out p) with
          | Some b => vat b d
          | None => 0
          end.
Proof.
  intros Hwf Hzero.
  destruct (SGU_call_trace_ok _ _ _ _ Hwf) as (tr & Htr & St).
  exists tr. split; [exact Htr | ].
  destruct St as [X _ _ M O _].
  assert (Hg : forall m d, (m < seq_len)%nat -> (d < hidden / 2)%nat ->
            mat (SGU.gate_mixed tr) m d = mat (SGU.spatial_biases p) m 0).
  { intros m d Hm Hd. rewrite (M m d Hm Hd), rsum_zero; [lra | ].
    intros k _. rewrite Hzero. lra. }
  intros m d Hm. split; [intros Hd; apply Hg; assumption | ].
  rewrite (O m d Hm). f_equal. apply rsum_ext. intros k Hk.
  rewrite X, (Hg m k Hm Hk). reflexivity.
Qed.

Lemma SGU_zero_weights_witness :
  exists tr,
    SGU.call_trace (SGU.init 4 (4 / 2) 2) (const_sgu_params 4 2 0)
      (sample_input 2 4) = Ok tr /\
    mat (SGU.gate_mixed tr) 1 0 = 1.
Proof.
  destruct (SGU_zero_weights 4 2 (const_sgu_params 4 2 0) (sample_input 2 4))
    as (tr & Htr & Hv); [reflexivity | intros m k; reflexivity | ].
  exists tr. split; [exact Htr | ].
  destruct (Hv 1%nat 0%nat) as [Hg _]; [lia | ].
  rewrite Hg by (simpl; lia). reflexivity.
Defined.

(** ** The stack reads a prefix of windows *)

(** Row [m] of the output of a well-formed SGU call is determined by row
    [m] of the [x] half and rows [0 .. m] of the gate half. *)
Lemma sgu_prefix_local (hidden seq_len : nat) (p : SGU.params)
    (x x' : Mat) (tr tr' : SGU.trace) (m : nat) :
  sgu_call_ok hidden seq_len p x = true ->
  sgu_call_ok hidden seq_len p x' = true ->
  sgu_stages p x seq_len (hidden / 2) tr ->
  sgu_stages p x' seq_len (hidden / 2) tr' ->
  (m < seq_len)%nat ->
  (forall k j, (k <= m)%nat -> (j < hidden)%nat -> mat x k j = mat x' k j) ->
  forall d, mat (SGU.out tr) m d = mat (SGU.out tr') m d.
Proof.
  intros Hwf Hwf' St St' Hm Hx d.
  unfold sgu_call_ok in Hwf. to_props.
  assert (Hhid : (hidden = hidden / 2 + hidden / 2)%nat).
  { pose proof (Nat.div_mod_eq hidden 2). lia. }
  destruct St as [X (GR & GC & G) N M O _].
  destruct St' as [X' (GR' & GC' & G') N' M' O' _].
  assert (Hnorm : forall k c, (k <= m)%nat -> (c < hidden / 2)%nat ->
            mat (SGU.gate_norm tr) k c = mat (SGU.gate_norm tr') k c).
  { intros k c Hk Hc.
    apply (LayerNorm_row_local _ _ _ _ _ k N N'); try congruence.
    intros j Hj. rewrite G, G'. apply Hx; [exact Hk | lia]. }
  rewrite O, O' by assumption. f_equal.
  apply rsum_ext. intros k Hk.
  rewrite X, X', (Hx m k (Nat.le_refl m)) by lia.
  rewrite (M m k Hm Hk), (M' m k Hm Hk).
  f_equal. f_equal. f_equal.
  rewrite !(causal_sum seq_len m _ (fun k0 => mat (SGU.spatial_weights p) m k0))
    by exact Hm.
  apply rsum_ext. intros k' Hk'. rewrite Hnorm; [reflexivity | lia | exact Hk].
Qed.

(** Row [m] of the output of a well-formed feed-forward call is determined
    by rows [0 .. m] of its input (by row [m] alone when not gated). *)
Lemma ff_prefix_local (dim ff_mult seq_len : nat) (gate : bool)
    (p : FeedForward.params) (x x' : Mat) (m : nat) :
  ff_params_ok dim ff_mult seq_len gate p = true ->
  cols x = dim -> cols x' = dim -> rows x' = rows x -> (m < rows x)%nat ->
  (gate = true ->
     rows x = seq_len /\ (0 < seq_len)%nat /\ ((dim * ff_mult) mod 2 = 0)%nat) ->
  (forall k j, (k <= m)%nat -> (j < dim)%nat -> mat x k j = mat x' k j) ->
  exists y y',
    FeedForward.call (FeedForward.init dim ff_mult seq_len gate) p x = Ok y /\
    FeedForward.call (FeedForward.init dim ff_mult seq_len gate) p x' = Ok y' /\
    forall j, mat y m j = mat y' m j.
Proof.
  intros Hp Hc Hc' Hr Hm Hg Hx.
  destruct gate.
  - destruct (Hg eq_refl) as (Hn & Hs & Heven).
    pose proof Hp as Hp0.
    unfold ff_params_ok in Hp. cbv zeta in Hp. to_props.
    unfold FeedForward.call, FeedForward.init.
    cbn [FeedForward.sgu FeedForward.proj_in FeedForward.proj_out].
    destruct (LayerNorm_ok (FeedForward.p_norm p) x)
      as (x1 & E1 & R1 & C1 & _); [congruence | ].
    destruct (LayerNorm_ok (FeedForward.p_norm p) x')
      as (x1' & E1' & R1' & C1' & _); [congruence | ].
    rewrite E1, E1'. cbn [bind].
    destruct (Linear_ok (dim * ff_mult) true (FeedForward.p_proj_in p) x1)
      as (x2 & E2 & R2 & C2 & _); [rewrite C1, Hc; assumption | ].
    destruct (Linear_ok (dim * ff_mult) true (FeedForward.p_proj_in p) x1')
      as (x2' & E2' & R2' & C2' & _); [rewrite C1', Hc'; assumption | ].
    rewrite E2, E2'. cbn [bind].
    destruct (FeedForward.p_sgu p) as [pg | ]; [ | discriminate].
    assert (Hok : forall z, rows z = seq_len -> cols z = (dim * ff_mult)%nat ->
              sgu_call_ok (dim * ff_mult) seq_len pg (mat_map gelu z) = true).
    { intros z Rz Cz. unfold sgu_call_ok. cbn [mat_map rows cols].
      rewrite Rz, Cz, Heven, !Nat.eqb_refl.
      replace (0 <? seq_len) with true
        by (symmetry; apply Nat.ltb_lt; exact Hs).
      cbn [andb Nat.eqb]. assumption. }
    assert (Hok2 := Hok x2 ltac:(congruence) C2).
    assert (Hok2' := Hok x2' ltac:(congruence) C2').
    destruct (SGU_call_trace_ok _ _ _ _ Hok2) as (tr & Etr & St).
    destruct (SGU_call_trace_ok _ _ _ _ Hok2') as (tr' & Etr' & St').
    unfold SGU.call. rewrite Etr, Etr'. cbn [bind].
    destruct (sg_shape _ _ _ _ _ St) as [R3 C3].
    destruct (sg_shape _ _ _ _ _ St') as [R3' C3'].
    destruct (Linear_ok dim true (FeedForward.p_proj_out p) (SGU.out tr))
      as (y & Ey & _); [rewrite C3; assumption | ].
    destruct (Linear_ok dim true (FeedForward.p_proj_out p) (SGU.out tr'))
      as (y' & Ey' & _); [rewrite C3'; assumption | ].
    exists y, y'. split; [exact Ey | ]. split; [exact Ey' | ].
    apply (Linear_row_local _ _ _ _ _ _ _ m Ey Ey').
    intros k _.
    apply (sgu_prefix_local _ _ _ _ _ _ _ m Hok2 Hok2' St St'); [lia | ].
    intros k0 j Hk0 Hj. cbn [mat_map mat]. f_equal.
    apply (Linear_row_local _ _ _ _ _ _ _ k0 E2 E2').
    intros j0 Hj0.
    apply (LayerNorm_row_local _ _ _ _ _ k0 E1 E1'); [congruence | | congruence].
    intros j1 Hj1. apply Hx; [exact Hk0 | congruence].
  - destruct (FeedForward_call_ok dim ff_mult seq_len false p x Hp Hc)
      as (y & Hy & _); [discriminate | ].
    destruct (FeedForward_call_ok dim ff_mult seq_len false p x' Hp Hc')
      as (y' & Hy' & _); [discriminate | ].
    exists y, y'. split; [exact Hy | ]. split; [exact Hy' | ].
    apply (ff_plain_rows_eq _ _ _ _ _ _ _ _ m m Hy Hy'); [congruence | ].
    intros j Hj. apply Hx; [lia | congruence].
Qed.

(** Rows of the attention output in the first [w + 1] windows are
    determined by the rows of the input in these windows. *)
Lemma attn_prefix_local (dim wsz heads dh : nat)
    (self : LocalAttention.t) (p : LocalAttention.params)
    (pos_emb : Mat * Mat) (x x' : Mat) (w : nat) :
  LocalAttention.init dim wsz heads dh = Ok self ->
  attn_call_ok dim wsz heads dh p x pos_emb = true ->
  attn_call_ok dim wsz heads dh p x' pos_emb = true ->
  ((w + 1) * wsz <= rows x)%nat ->
  (forall r j, (r < (w + 1) * wsz)%nat -> (j < dim)%nat ->
     mat x r j = mat x' r j) ->
  exists y y',
    LocalAttention.call self p x pos_emb = Ok y /\
    LocalAttention.call self p x' pos_emb = Ok y' /\
    forall r j, (r < (w + 1) * wsz)%nat -> mat y r j = mat y' r j.
Proof.
  intros Hinit Hwf Hwf' Hle Hx.
  destruct (LocalAttention_call_trace_ok _ _ _ _ _ _ _ _ Hinit Hwf)
    as (tr & Htr & St).
  destruct (LocalAttention_call_trace_ok _ _ _ _ _ _ _ _ Hinit Hwf')
    as (tr' & Htr' & St').
  exists (LocalAttention.out tr), (LocalAttention.out tr').
  unfold LocalAttention.call. rewrite Htr, Htr'. cbn [bind].
  split; [reflexivity | ]. split; [reflexivity | ].
  intros r j Hr.
  assert (Hwsz : (0 < wsz)%nat) by (unfold attn_call_ok in Hwf; to_props; lia).
  pose proof (Nat.div_mod_eq r wsz) as Hdm.
  pose proof (Nat.mod_upper_bound r wsz ltac:(lia)) as Hmod.
  assert (Hw0 : (r / wsz <= w)%nat) by nia.
  assert (Hn : (rows x = wsz * (rows x / wsz))%nat).
  { unfold attn_call_ok in Hwf. to_props.
    apply (divisible_windows (rows x) wsz); assumption. }
  apply (loc_out dim wsz heads dh self p pos_emb x x' tr tr'
           Hinit Hwf Hwf' Htr Htr' St St' (r / wsz)%nat).
  - apply Nat.Div0.div_lt_upper_bound. nia.
  - intros pos _ Hpos j0 Hj0. apply Hx; [nia | exact Hj0].
  - nia.
  - nia.
Qed.

Lemma Embed_entries (shape : nat * nat) (table : Mat) (ids : list Z)
    (y : Mat) :
  ProGenBase.Embed shape table ids = Ok y ->
  forall i j,
    mat y i j =
      mat table (ProGenBase.gather_index (rows table) (nth i ids 0%Z)) j.
Proof.
  unfold ProGenBase.Embed. intros H. inv_bind_as H u G. injection H as <-.
  intros i j. reflexivity.
Qed.

Lemma run_layers_prefix (c : ProGenBase.config) (a : LocalAttention.t)
    (n w : nat) :
  LocalAttention.init (ProGenBase.dim c) (ProGenBase.window_size c)
    (ProGenBase.heads c) (ProGenBase.dim_head c) = Ok a ->
  (0 < ProGenBase.window_size c)%nat -> (0 < n)%nat ->
  (n mod ProGenBase.window_size c = 0)%nat ->
  (0 < ProGenBase.heads c)%nat -> (ProGenBase.dim_head c mod 2 = 0)%nat ->
  ((w + 1) * ProGenBase.window_size c <= n)%nat ->
  forall idxs ps x x',
    layers_ok c n idxs ps = true ->
    rows x = n -> cols x = ProGenBase.dim c ->
    rows x' = n -> cols x' = ProGenBase.dim c ->
    (forall r j, (r < (w + 1) * ProGenBase.window_size c)%nat ->
       (j < ProGenBase.dim c)%nat -> mat x r j = mat x' r j) ->
    exists y y',
      ProGenBase.run_layers
        (map (fun i =>
                (a, FeedForward.init (ProGenBase.dim c) (ProGenBase.ff_mult c)
                      (ProGenBase.seq_len c)
                      (ProGenBase.depth c - i
                       <=? ProGenBase.global_mlp_depth c)%nat))
             idxs)
        ps (fixed_pos_embedding n (ProGenBase.dim_head c)) x = Ok y /\
      ProGenBase.run_layers
        (map (fun i =>
                (a, FeedForward.init (ProGenBase.dim c) (ProGenBase.ff_mult c)
                      (ProGenBase.seq_len c)
                      (ProGenBase.depth c - i
                       <=? ProGenBase.global_mlp_depth c)%nat))
             idxs)
        ps (fixed_pos_embedding n (ProGenBase.dim_head c)) x' = Ok y' /\
      (rows y = n /\ cols y = ProGenBase.dim c) /\
      (rows y' = n /\ cols y' = ProGenBase.dim c) /\
      forall r j, (r < (w + 1) * ProGenBase.window_size c)%nat ->
        (j < ProGenBase.dim c)%nat -> mat y r j = mat y' r j.
Proof.
  intros Ha Hw Hn Hmod Hh Hd HB idxs.
  induction idxs as [ | i idxs IH]; intros ps x x' Hl Hr Hc Hr' Hc' Hx.
  - exists x, x'. cbn [map ProGenBase.run_layers].
    repeat split; try assumption; try reflexivity. 
  - cbn [layers_ok] in Hl. destruct ps as [ | [pa pf] ps]; [discriminate Hl | ].
    apply andb_true_iff in Hl. destruct Hl as [Hl Hls].
    unfold layer_ok in Hl. cbv zeta in Hl. cbn [fst snd] in Hl.
    apply andb_true_iff in Hl. destruct Hl as [Hl Hgate].
    apply andb_true_iff in Hl. destruct Hl as [Hpa Hpf].
    cbn [map ProGenBase.run_layers].
    assert (Hok : forall z, rows z = n -> cols z = ProGenBase.dim c ->
              attn_call_ok (ProGenBase.dim c) (ProGenBase.window_size c)
                (ProGenBase.heads c) (ProGenBase.dim_head c) pa z
                (fixed_pos_embedding n (ProGenBase.dim_head c)) = true).
    { intros z Rz Cz. unfold attn_call_ok.
      rewrite Rz, Cz, Hpa, Hmod, !Nat.eqb_refl.
      rewrite (fixed_pos_embedding_ok n _ Hd).
      replace (0 <? ProGenBase.window_size c) with true
        by (symmetry; apply Nat.ltb_lt; assumption).
      replace (0 <? n) with true by (symmetry; apply Nat.ltb_lt; assumption).
      replace (0 <? ProGenBase.heads c) with true
        by (symmetry; apply Nat.ltb_lt; assumption).
      reflexivity. }
    destruct (LocalAttention_call_ok _ _ _ _ a pa x _ Ha (Hok x Hr Hc))
      as (o & Ho & Ro & Co).
    destruct (LocalAttention_call_ok _ _ _ _ a pa x' _ Ha (Hok x' Hr' Hc'))
      as (o' & Ho' & Ro' & Co').
    destruct (attn_prefix_local _ _ _ _ a pa _ x x' w Ha (Hok x Hr Hc)
                (Hok x' Hr' Hc')) as (o1 & o1' & Ho1 & Ho1' & Hov);
      [rewrite Hr; exact HB | exact Hx | ].
    rewrite Ho in Ho1. injection Ho1 as <-.
    rewrite Ho' in Ho1'. injection Ho1' as <-.
    rewrite Ho, Ho'. cbn [bind].
    destruct (mat_zip_same Rplus x o) as (x1 & Hx1 & R1 & C1 & X1v);
      [congruence | congruence | ].
    destruct (mat_zip_same Rplus x' o') as (x1' & Hx1' & R1' & C1' & X1v');
      [congruence | congruence | ].
    rewrite Hx1, Hx1'. cbn [bind].
    assert (Hx1a : forall r j, (r < (w + 1) * ProGenBase.window_size c)%nat ->
              (j < ProGenBase.dim c)%nat -> mat x1 r j = mat x1' r j).
    { intros r j Hrr Hj. rewrite X1v, X1v' by lia.
      rewrite (Hx r j Hrr Hj), (Hov r j Hrr). reflexivity. }
    assert (Hgate' : (ProGenBase.depth c - i
                      <=? ProGenBase.global_mlp_depth c)%nat = true ->
              rows x1 = ProGenBase.seq_len c /\
              (0 < ProGenBase.seq_len c)%nat /\
              ((ProGenBase.dim c * ProGenBase.ff_mult c) mod 2 = 0)%nat).
    { intros Hg. rewrite Hg in Hgate. to_props. repeat split; lia. }
    assert (Hgate'' : (ProGenBase.depth c - i
                       <=? ProGenBase.global_mlp_depth c)%nat = true ->
              rows x1' = ProGenBase.seq_len c /\
              (0 < ProGenBase.seq_len c)%nat /\
              ((ProGenBase.dim c * ProGenBase.ff_mult c) mod 2 = 0)%nat).
    { intros Hg. destruct (Hgate' Hg) as (G1 & G2 & G3).
      split; [congruence | split; assumption]. }
    destruct (FeedForward_call_ok _ _ _ _ pf x1 Hpf ltac:(congruence) Hgate')
      as (f & Hf & Rf & Cf).
    destruct (FeedForward_call_ok _ _ _ _ pf x1' Hpf ltac:(congruence) Hgate'')
      as (f' & Hf' & Rf' & Cf').
    rewrite Hf, Hf'. cbn [bind].
    assert (Hfa : forall r j, (r < (w + 1) * ProGenBase.window_size c)%nat ->
              mat f r j = mat f' r j).
    { intros r j Hrr.
      destruct (ff_prefix_local _ _ _ _ pf x1 x1' r Hpf)
        as (f1 & f1' & Hf1 & Hf1' & Hfv);
        [congruence | congruence | congruence | lia | exact Hgate' | | ].
      - intros k j0 Hk Hj0. apply Hx1a; [lia | exact Hj0].
      - rewrite Hf in Hf1. injection Hf1 as <-.
        rewrite Hf' in Hf1'. injection Hf1' as <-. apply Hfv. }
    destruct (mat_zip_same Rplus x1 f) as (x2 & Hx2 & R2 & C2 & X2v);
      [congruence | congruence | ].
    destruct (mat_zip_same Rplus x1' f') as (x2' & Hx2' & R2' & C2' & X2v');
      [congruence | congruence | ].
    rewrite Hx2, Hx2'. cbn [bind].
    apply IH; try congruence.
    intros r j Hrr Hj. rewrite X2v, X2v' by lia.
    rewrite (Hx1a r j Hrr Hj), (Hfa r j Hrr). reflexivity.
Qed.

(** X17: the model is causal window by window.  Take two well-formed
    token sequences of one length that agree on the first [w + 1] windows.
    Both forward passes return logits, and the logits at every position of
    these windows are equal: no position reads a token of a later
    window. *)
Theorem ProGen_window_causal (c : ProGenBase.config) (p : ProGenBase.params)
    (tokens tokens' : list Z) (w : nat) :
  progen_call_ok c p tokens = true ->
  progen_call_ok c p tokens' = true ->
  length tokens' = length tokens ->
  ((w + 1) * ProGenBase.window_size c <= length tokens)%nat ->
  (forall i, (i < (w + 1) * ProGenBase.window_size c)%nat ->
     nth i tokens 0%Z = nth i tokens' 0%Z) ->
  exists y y',
    ProGen c p tokens = Ok y /\ ProGen c p tokens' = Ok y' /\
    forall r j, (r < (w + 1) * ProGenBase.window_size c)%nat ->
      mat y r j = mat y' r j.
Proof.
  intros Hwf Hwf' Hlen HB Htok.
  unfold progen_call_ok in Hwf. cbv zeta in Hwf. to_props.
  destruct (make_layers_ok c (seq 0 (ProGenBase.depth c))) as (a & Ha & Hls);
    [assumption | ].
  unfold ProGen, ProGenBase.init.
  rewrite Embed_init_ok by assumption. cbn [bind].
  rewrite Hls. cbn [bind].
  unfold ProGenBase.call.
  cbn [ProGenBase.embed ProGenBase.layers ProGenBase.to_logits
       ProGenBase.self_dim_head].
  destruct (Embed_ok (ProGenBase.num_tokens c, ProGenBase.dim c)
              (ProGenBase.p_embed p) tokens) as (x0 & E0 & R0 & C0);
    [assumption | assumption | ].
  destruct (Embed_ok (ProGenBase.num_tokens c, ProGenBase.dim c)
              (ProGenBase.p_embed p) tokens') as (x0' & E0' & R0' & C0');
    [assumption | assumption | ].
  rewrite E0, E0', Hlen. cbn [bind].
  destruct (run_layers_prefix c a (length tokens) w Ha) with
    (idxs := seq 0 (ProGenBase.depth c)) (ps := ProGenBase.p_layers p)
    (x := x0) (x' := x0')
    as (x1 & x1' & E1 & E1' & (R1 & C1) & (R1' & C1') & Hx1);
    try assumption; try congruence.
  { intros r j Hr Hj.
    rewrite (Embed_entries _ _ _ _ E0), (Embed_entries _ _ _ _ E0').
    rewrite (Htok r Hr). reflexivity. }
  rewrite E1, E1'. cbn [bind].
  destruct (LayerNorm_ok (ProGenBase.p_logits_norm p) x1)
    as (x2 & E2 & R2 & C2 & _); [congruence | ].
  destruct (LayerNorm_ok (ProGenBase.p_logits_norm p) x1')
    as (x2' & E2' & R2' & C2' & _); [congruence | ].
  rewrite E2, E2'. cbn [bind].
  destruct (Linear_ok (ProGenBase.num_tokens c) true (ProGenBase.p_logits p) x2)
    as (y & Ey & _); [rewrite C2, C1; assumption | ].
  destruct (Linear_ok (ProGenBase.num_tokens c) true (ProGenBase.p_logits p) x2')
    as (y' & Ey' & _); [rewrite C2', C1'; assumption | ].
  exists y, y'. split; [exact Ey | ]. split; [exact Ey' | ].
  intros r j Hr.
  apply (Linear_row_local _ _ _ _ _ _ _ r Ey Ey').
  intros k Hk.
  apply (LayerNorm_row_local _ _ _ _ _ r E2 E2'); [congruence | | congruence].
  intros j0 Hj0. apply Hx1; [exact Hr | congruence].
Qed.

Lemma ProGen_window_causal_witness :
  exists y y',
    ProGen (ProGenBase.mkConfig 4 5 4 2 2 1 2 4 2 None true)
      (const_params (ProGenBase.mkConfig 4 5 4 2 2 1 2 4 2 None true) 1)
      [0%Z; 3%Z; 1%Z; 2%Z] = Ok y /\
    ProGen (ProGenBase.mkConfig 4 5 4 2 2 1 2 4 2 None true)
      (const_params (ProGenBase.mkConfig 4 5 4 2 2 1 2 4 2 None true) 1)
      [0%Z; 3%Z; 2%Z; 0%Z] = Ok y' /\
    forall j, mat y 1 j = mat y' 1 j.
Proof.
  destruct (ProGen_window_causal
              (ProGenBase.mkConfig 4 5 4 2 2 1 2 4 2 None true)
              (const_params (ProGenBase.mkConfig 4 5 4 2 2 1 2 4 2 None true) 1)
              [0%Z; 3%Z; 1%Z; 2%Z] [0%Z; 3%Z; 2%Z; 0%Z] 0)
    as (y & y' & Hy & Hy' & Hv).
  - reflexivity.
  - reflexivity.
  - reflexivity.
  - simpl. lia.
  - intros i Hi. simpl in Hi.
    destruct i as [ | [ | i]]; [reflexivity | reflexivity | lia].
  - exists y, y'. split; [exact Hy | ]. split; [exact Hy' | ].
    intros j. apply Hv. simpl. lia.
Defined.
